(** * Numerical vision kernels of [release/student.py]

    A shallow embedding of the photometric-stereo, Gaussian-pyramid,
    camera-projection and normalised-cross-correlation kernels, and the
    properties their specification states about them.

    Arrays are nested lists indexed [row][column][channel].  Every kernel
    is written once over an abstract scalar type [F] (class [Scalar]) and
    used at two instances:

    - [float], IEEE binary64 as the kernel itself runs it, to execute the
      definitions on concrete images;
    - [R], exact real arithmetic, in which most properties are proved
      (rounding is idealised away, a dtype cast is the identity, and a
      float literal of the source is the real number it denotes).

    A call that raises (shape mismatch, index out of range, singular
    matrix) is modelled by [None]. *)

From Stdlib Require Import Floats.
From Stdlib Require Import Reals Lra RNsatz ZArith.
From stdpp Require Import base option list numbers.

Set Default Proof Using "Type".

(** ** Scalars *)

Class Scalar (F : Type) := {
  sofZ : Z → F;            (* an integer literal or count, as a float *)
  sofFloat : float → F;    (* a float literal of the source *)
  sadd : F → F → F;
  ssub : F → F → F;
  smul : F → F → F;
  sdiv : F → F → F;
  ssqrt : F → F;
  seqb : F → F → bool;     (* == *)
  sltb : F → F → bool;     (* <  *)
  sleb : F → F → bool;     (* <= *)
  cast32 : F → F           (* .astype(np.float32) *)
}.

Declare Scope scalar_scope.
Delimit Scope scalar_scope with S.
Infix "+" := sadd : scalar_scope.
Infix "-" := ssub : scalar_scope.
Infix "*" := smul : scalar_scope.
Infix "/" := sdiv : scalar_scope.
Infix "==" := seqb (at level 70, no associativity) : scalar_scope.

(** Exact arithmetic. *)
#[export] Instance R_eq_dec : EqDecision R := Req_dec_T.
#[export] Instance R_lt_dec (x y : R) : Decision (x < y)%R := Rlt_dec x y.
#[export] Instance R_le_dec (x y : R) : Decision (x <= y)%R := Rle_dec x y.

(** The real number a finite binary64 value denotes:
    [(-1)^s · m · 2^e]. *)
Definition float_to_R (x : float) : R :=
  match Prim2SF x with
  | S754_finite s m e =>
      let v := (IZR (Zpos m) * powerRZ 2 e)%R in if s then (- v)%R else v
  | _ => 0%R
  end.

#[export] Instance R_scalar : Scalar R := {
  sofZ := IZR;
  sofFloat := float_to_R;
  sadd := Rplus; ssub := Rminus; smul := Rmult; sdiv := Rdiv;
  ssqrt := R_sqrt.sqrt;
  seqb x y := bool_decide (x = y);
  sltb x y := bool_decide (x < y)%R;
  sleb x y := bool_decide (x <= y)%R;
  cast32 x := x
}.

(** Rounding of a binary64 value to binary32 (round to nearest even),
    the result again held in a binary64. *)
Definition round_binary32 (x : float) : float :=
  match Prim2SF x with
  | S754_finite s m e => SF2Prim (binary_round 24 128 s m e)
  | _ => x
  end.

Definition float_of_Z (z : Z) : float :=
  match z with
  | Zneg _ => PrimFloat.opp (PrimFloat.of_uint63 (Uint63.of_Z (Z.opp z)))
  | _ => PrimFloat.of_uint63 (Uint63.of_Z z)
  end.

(** IEEE binary64. *)
#[export] Instance float_scalar : Scalar float := {
  sofZ := float_of_Z;
  sofFloat x := x;
  sadd := PrimFloat.add; ssub := PrimFloat.sub;
  smul := PrimFloat.mul; sdiv := PrimFloat.div;
  ssqrt := PrimFloat.sqrt;
  seqb := PrimFloat.eqb;
  sltb := PrimFloat.ltb;
  sleb := PrimFloat.leb;
  cast32 := round_binary32
}.

(** ** Python control flow and slices *)

Definition range (n : nat) : list nat := seq 0 n.

(** [for i in l: s = body(i, s)], stopping at the first exception. *)
Fixpoint for_in {S : Type} (l : list nat) (body : nat → S → option S) (s : S)
  : option S :=
  match l with
  | [] => Some s
  | i :: l' => body i s ≫= for_in l' body
  end.

(** [l[i] = g(l[i])]; an [IndexError] when [i] is out of range. *)
Definition at_index {A : Type} (i : nat) (g : A → option A) (l : list A)
  : option (list A) :=
  a ← l !! i; a' ← g a; Some (<[i := a']> l).

(** A slice bound [i] of a sequence of length [len], as Python adjusts
    it: a negative bound counts from the end, and the result is clipped
    to [0, len]. *)
Definition slice_bound (len i : Z) : nat :=
  Z.to_nat (Z.max 0 (Z.min len (if (i <? 0)%Z then (i + len)%Z else i))).

(** [l[a:b]] *)
Definition py_slice {A : Type} (a b : Z) (l : list A) : list A :=
  let len := Z.of_nat (length l) in
  let a' := slice_bound len a in
  let b' := slice_bound len b in
  take (b' - a') (drop a' l).

(** [l[a:b] = src] on a one-dimensional array: the source must have the
    length of the slice, or length one (it is then broadcast); anything
    else is a [ValueError]. *)
Definition py_set_slice {A : Type} (a b : Z) (src l : list A)
  : option (list A) :=
  let len := Z.of_nat (length l) in
  let a' := slice_bound len a in
  let b' := slice_bound len b in
  let n := (b' - a')%nat in
  if decide (length src = n) then Some (take a' l ++ src ++ drop (a' + n) l)
  else match src with
       | [v] => Some (take a' l ++ replicate n v ++ drop (a' + n) l)
       | _ => None
       end.

(** ** numpy *)

(** An [h] x [w] array of cells, every cell satisfying [P]. *)
Definition pixels {A : Type} (h w : nat) (P : A → Prop) (a : list (list A))
  : Prop :=
  length a = h ∧ Forall (λ row, length row = w ∧ Forall P row) a.

(** A rectangular [h] x [w] x [c] array. *)
Definition shaped3 {A : Type} (h w c : nat) (a : list (list (list A))) : Prop :=
  length a = h ∧
  Forall (λ row, length row = w ∧ Forall (λ px : list A, length px = c) row) a.

(** [a[y, x]] *)
Definition at2 {A : Type} (a : list (list A)) (y x : nat) : option A :=
  row ← a !! y; row !! x.

(** A rectangular [h] x [w] array. *)
Definition shaped2 {A : Type} (h w : nat) (a : list (list A)) : Prop :=
  length a = h ∧ Forall (λ row, length row = w) a.

Section Numpy.
Context {F : Type} `{Scalar F}.
Local Open Scope scalar_scope.

#[export] Instance scalar_inhabited : Inhabited F := populate (sofZ 0).

(** Extents of the second and third axes, read off the first row. *)
Definition dim1 {A : Type} (a : list (list A)) : nat :=
  from_option length 0%nat (head a).
Definition dim2 {A : Type} (a : list (list (list A))) : nat :=
  from_option dim1 0%nat (head a).

Definition np_zeros1 (n : nat) : list F := replicate n (sofZ 0).
Definition np_zeros3 (h w c : nat) : list (list (list F)) :=
  replicate h (replicate w (np_zeros1 c)).

(** [np.sum] of a vector: accumulation from the left, starting at 0. *)
Definition np_sum (v : list F) : F := foldl sadd (sofZ 0) v.

(** [np.mean]: the sum divided by the number of elements. *)
Definition np_mean (v : list F) : F :=
  np_sum v / sofZ (Z.of_nat (length v)).

(** [np.linalg.norm] of a vector: [sqrt(sum(x * x))]. *)
Definition np_norm (v : list F) : F :=
  ssqrt (np_sum ((λ x, x * x) <$> v)).

(** The literal [1e-7]: Python reads it as the binary64 value nearest
    to [10^-7], which is [0x1.ad7f29abcaf48p-24], a little below
    [10^-7].  In exact arithmetic it stands for that same number. *)
Definition lit_1e_7 : F := sofFloat 0x1.ad7f29abcaf48p-24%float.

(** The inner product of two vectors. *)
Definition np_dot (u v : list F) : F := np_sum (zip_with smul u v).

(** [np.matmul(m, v)] and [m.dot(v)], a matrix (a list of rows) times a
    vector; every row must have the length of [v]. *)
Definition np_matvec (m : list (list F)) (v : list F) : option (list F) :=
  if bool_decide (Forall (λ row, length row = length v) m)
  then Some ((λ row, np_dot row v) <$> m)
  else None.

(** [m.T] *)
Definition np_transpose (m : list (list F)) : list (list F) :=
  (λ j, (λ row : list F, row !!! j) <$> m) <$> range (dim1 m).

(** [v @ m], the contraction of a vector with the first axis of a
    matrix: [np.tensordot(v, m, axes=1)], and [np.matmul] on one row. *)
Definition np_vecmat (v : list F) (m : list (list F)) : option (list F) :=
  if bool_decide (length v = length m)
  then Some (np_dot v <$> np_transpose m)
  else None.

(** [np.matmul(a, b)] of two matrices. *)
Definition np_matmul (a b : list (list F)) : option (list (list F)) :=
  mapM (λ row, np_vecmat row b) a.

(** [np.linalg.inv(m)] in exact arithmetic, for a 3 x 3 matrix (the only
    size the kernels' contracts give it): the cofactor formula, and a
    [LinAlgError] on a singular matrix.  Other shapes are not modelled.
    The library routine factorises [m] in binary64 and refuses only an
    exactly zero pivot, so it rounds differently from the instance of
    this definition at [float], and it can return for a matrix that is
    singular in exact arithmetic. *)
Definition np_linalg_inv (m : list (list F)) : option (list (list F)) :=
  match m with
  | [[a; b; c]; [d; e; f]; [g; h; i]] =>
      let det := a * (e * i - f * h) - b * (d * i - f * g)
                 + c * (d * h - e * g) in
      if det == sofZ 0 then None
      else Some [[(e * i - f * h) / det; (c * h - b * i) / det;
                  (b * f - c * e) / det];
                 [(f * g - d * i) / det; (a * i - c * g) / det;
                  (c * d - a * f) / det];
                 [(d * h - e * g) / det; (b * g - a * h) / det;
                  (a * e - b * d) / det]]
  | _ => None
  end.

(** Element-wise maps over the two leading axes. *)
Definition map2d {A B : Type} (f : A → B) (a : list (list A)) : list (list B) :=
  (λ row : list A, f <$> row) <$> a.
Definition zip2d {A B C : Type} (f : A → B → C)
    (a : list (list A)) (b : list (list B)) : list (list C) :=
  zip_with (zip_with f) a b.

Definition map3d {A B : Type} (f : A → B) (a : list (list (list A)))
  : list (list (list B)) :=
  map2d (fmap f) a.

(** [a[mask] = 0] for a boolean mask over the two leading axes. *)
Definition mask_zero (mask : list (list bool)) (a : list (list (list F)))
  : list (list (list F)) :=
  zip2d (λ (b : bool) (v : list F), if b then (λ _, sofZ 0) <$> v else v)
        mask a.

(** Two arrays have one shape. *)
Definition same_shape3 (a b : list (list (list F))) : Prop :=
  Forall2 (Forall2 (λ u v : list F, length u = length v)) a b.

#[export] Instance same_shape3_dec (a b : list (list (list F))) :
  Decision (same_shape3 a b).
Proof. unfold same_shape3. apply _. Defined.

(** [a += b] for arrays of one shape (the kernels add no others; the
    broadcasting of a smaller [b] is not modelled and reads as an
    error). *)
Definition np_iadd3 (a b : list (list (list F)))
  : option (list (list (list F))) :=
  if bool_decide (same_shape3 a b)
  then Some (zip2d (zip_with sadd) a b)
  else None.

(** A binary operation along one axis under numpy's broadcasting: the
    two extents agree, or one of them is one and its only element meets
    every element of the other array; anything else is a [ValueError].
    [f] combines the elements (the sub-arrays of the next axis). *)
Definition np_broadcast {A B C : Type} (f : A → B → option C)
    (a : list A) (b : list B) : option (list C) :=
  if decide (length a = length b) then mapM (λ p, f p.1 p.2) (zip a b)
  else match a, b with
       | [x], _ => mapM (f x) b
       | _, [y] => mapM (λ x, f x y) a
       | _, _ => None
       end.

(** [np.dstack] of two-dimensional arrays of one shape. *)
Definition np_dstack (planes : list (list (list F)))
  : option (list (list (list F))) :=
  match planes with
  | [] => None
  | p0 :: _ =>
      if bool_decide
           (Forall (λ p, length p = length p0 ∧ dim1 p = dim1 p0) planes)
      then Some (imap (λ y (row0 : list F),
                   imap (λ x (_ : F),
                     (λ p : list (list F), (p !!! y) !!! x) <$> planes) row0) p0)
      else None
  end.

(** [np.matmul(a, m)] for a three-dimensional [a]: every vector along
    the last axis is multiplied into [m]. *)
Definition np_matmul3 (a : list (list (list F))) (m : list (list F))
  : option (list (list (list F))) :=
  mapM (λ mat, np_matmul mat m) a.

(** [a op m[:, :, np.newaxis]]: a scalar per pixel broadcast over the
    last axis. *)
Definition bcast_last (op : F → F → F)
    (a : list (list (list F))) (m : list (list F)) : list (list (list F)) :=
  zip2d (λ v s, (λ x, op x s) <$> v) a m.
End Numpy.

Arguments lit_1e_7 : simpl never.

(** ** [preprocess_ncc_impl] *)

Section NCC.
Context {F : Type} `{Scalar F}.
Local Open Scope scalar_scope.

(** [image[y + low : y + high + 1, x + low : x + high + 1, k]] *)
Definition ncc_patch (image : list (list (list F)))
    (y x : nat) (low high : Z) (k : nat) : list (list F) :=
  let y := Z.of_nat y in
  let x := Z.of_nat x in
  (λ row, (λ px : list F, px !!! k)
            <$> py_slice (x + low) (x + high + 1) row)
    <$> py_slice (y + low) (y + high + 1) image.

(** [ans[y, x, a:b] = src] *)
Definition set_slice_at (y x : nat) (a b : Z) (src : list F)
    (ans : list (list (list F))) : option (list (list (list F))) :=
  at_index y (at_index x (py_set_slice a b src)) ans.

(** Lines 298-320: the patch of every pixel whose window lies inside
    the image is copied, channel block by channel block, into the
    zero-initialised [ans]. *)
Definition ncc_patches (image : list (list (list F))) (ncc_size : Z)
  : option (list (list (list F))) :=
  let h := length image in
  let w := dim1 image in
  let c := dim2 image in
  let ans := np_zeros3 h w (Z.to_nat (Z.of_nat c * ncc_size * ncc_size)) in
  let low := (- (ncc_size `div` 2))%Z in
  let high := (ncc_size `div` 2)%Z in
  for_in (range h) (λ y ans,
    for_in (range w) (λ x ans,
      let condition :=
        bool_decide (Z.of_nat y + low >= 0)%Z &&
        bool_decide (Z.of_nat x + low >= 0)%Z &&
        bool_decide (Z.of_nat y + high < Z.of_nat h)%Z &&
        bool_decide (Z.of_nat x + high < Z.of_nat w)%Z in
      if condition then
        for_in (range c) (λ k ans,
          let patch := ncc_patch image y x low high k in
          let flat_patch := concat patch in
          let start := (Z.of_nat k * ncc_size * ncc_size)%Z in
          let end_ := ((Z.of_nat k + 1) * ncc_size * ncc_size)%Z in
          set_slice_at y x start end_ flat_patch ans) ans
      else Some ans) ans) ans.

(** The window of half-width [r] around pixel [(y, x)] lies inside an
    [h] x [w] image. *)
Definition window_inside (h w r y x : nat) : Prop :=
  (r ≤ y ∧ r ≤ x ∧ y + r < h ∧ x + r < w)%nat.

(** The flattened patch of half-width [r] around [(y, x)], written out
    index by index: one block per channel, and inside a block the window
    rows from top to bottom, each from left to right. *)
Definition patch_vector (image : list (list (list F))) (c r y x : nat)
  : list F :=
  k ← range c;
  dy ← range (2 * r + 1);
  dx ← range (2 * r + 1);
  [((image !!! (y - r + dy)%nat) !!! (x - r + dx)%nat) !!! k].

(** Line 322: [ans -= np.mean(ans, axis=2)[:, :, np.newaxis]] *)
Definition ncc_subtract_mean (ans : list (list (list F)))
  : list (list (list F)) :=
  bcast_last ssub ans (map2d np_mean ans).

(** Lines 324-325: the norm of every vector, with an exact zero
    replaced by one. *)
Definition ncc_norm (ans : list (list (list F))) : list (list F) :=
  let norm := map2d np_norm ans in
  map2d (λ n, if n == sofZ 0 then sofZ 1 else n) norm.

(** Line 326: [ans /= norm] *)
Definition ncc_divide (ans : list (list (list F))) : list (list (list F)) :=
  bcast_last sdiv ans (ncc_norm ans).

(** The value of [ans] after line 322. *)
Definition ncc_centered (image : list (list (list F))) (ncc_size : Z)
  : option (list (list (list F))) :=
  ans ← ncc_patches image ncc_size;
  Some (ncc_subtract_mean ans).

(** Lines 298-328.  The guard of line 325 tests the norm against an
    exact zero. *)
Definition preprocess_ncc_impl (image : list (list (list F))) (ncc_size : Z)
  : option (list (list (list F))) :=
  ans ← ncc_patches image ncc_size;
  let ans := ncc_subtract_mean ans in
  Some (ncc_divide ans).

(** Line 344: [np.sum(image1 * image2, axis=2)]. *)
Definition compute_ncc_impl (image1 image2 : list (list (list F)))
  : option (list (list F)) :=
  prod ← np_broadcast (np_broadcast (np_broadcast (λ a b, Some (a * b))))
           image1 image2;
  Some (map2d np_sum prod).

(** What [ans] holds after the filling loops, for an odd patch size. *)
Definition ncc_filled (image : list (list (list F))) (r : nat)
  : list (list (list F)) :=
  let h := length image in
  let w := dim1 image in
  let c := dim2 image in
  imap (λ y, imap (λ x (v : list F),
          if decide (window_inside h w r y x)
          then patch_vector image c r y x else v))
       (np_zeros3 h w (c * ((2 * r + 1) * (2 * r + 1)))).

(** Lines 322 and 324-326 as they act on the vector of one pixel. *)
Definition ncc_center (v : list F) : list F :=
  (λ a, a - np_mean v) <$> v.
Definition ncc_unit (v : list F) : list F :=
  let n := np_norm v in
  let n := if n == sofZ 0 then sofZ 1 else n in
  (λ a, a / n) <$> v.
End NCC.


(** ** [project_impl] and [unproject_corners_impl] *)

Section Camera.
Context {F : Type} `{Scalar F}.
Local Open Scope scalar_scope.

(** Lines 168-178. *)
Definition project_impl (K Rt : list (list F)) (points : list (list (list F)))
  : option (list (list (list F))) :=
  let height := length points in
  let width := dim1 points in
  let proj := np_zeros3 height width 2 in
  for_in (range height) (λ i proj,
    for_in (range width) (λ j proj,
      p ← at2 points i j;
      location ← np_matvec Rt (p ++ [sofZ 1]) ≫= np_matvec K;
      z ← location !! 2%nat;
      if sleb lit_1e_7 z                        (* location[2] >= 1e-7 *)
      then at_index i (at_index j (λ _,
             Some ((λ a, a / z) <$> py_slice 0 2 location))) proj
      else Some proj) proj) proj.

(** What one iteration of the loop leaves in [proj[i, j]], for the point
    [p = points[i, j]] and the old content [v]. *)
Definition project_cell (K Rt : list (list F)) (p v : list F) : list F :=
  let camera := (λ row, np_dot row (p ++ [sofZ 1])) <$> Rt in
  let location := (λ row, np_dot row camera) <$> K in
  let z := location !!! 2%nat in
  if sleb lit_1e_7 z then (λ a, a / z) <$> take 2 location else v.

(** [np.tensordot(a, m, axes=1)] for a three-dimensional [a]: every
    vector along the last axis is contracted with the first axis of
    [m]. *)
Definition np_tensordot3 (a : list (list (list F))) (m : list (list F))
  : option (list (list (list F))) :=
  mapM (mapM (λ v, np_vecmat v m)) a.

(** Lines 226-248. *)
Definition unproject_corners_impl (K : list (list F)) (width height depth : F)
    (Rt : list (list F)) : option (list (list (list F))) :=
  let one := sofZ 1 in
  let zero := sofZ 0 in
  let corners :=
    [[[zero; zero; one]; [width * one; zero; one]];
     [[zero; height * one; one]; [width * one; height * one; one]]] in
  Kinv ← np_linalg_inv K;
  corners ← np_tensordot3 corners (np_transpose Kinv);
  let corners := map2d (fmap (λ a, a * depth)) corners in
  let R := py_slice 0 3 <$> py_slice 0 3 Rt in            (* Rt[:3, :3] *)
  t ← mapM (λ row : list F, row !! 3%nat) (py_slice 0 3 Rt); (* Rt[:3, 3] *)
  corners ← np_tensordot3 corners R;
  Rt_t ← np_matvec (np_transpose R) t;                     (* R.T.dot(t) *)
  Some (map2d (λ v, zip_with ssub v Rt_t) corners).
End Camera.

(** ** [compute_photometric_stereo_impl] *)

Section Stereo.
Context {F : Type} `{Scalar F}.
Local Open Scope scalar_scope.

(** Lines 36-40: the stacked intensities and the least-squares solution
    [G = I · lightsᵀ · (lights · lightsᵀ)⁻¹]. *)
Definition stereo_G (lights : list (list F))
    (images : list (list (list (list F)))) : option (list (list (list F))) :=
  planes ← mapM (λ image : list (list (list F)),
                   mapM (mapM (λ px : list F, px !! 0%nat)) image) images;
  I ← np_dstack planes;
  ILt ← np_matmul3 I (np_transpose lights);
  LLt ← np_matmul lights (np_transpose lights);
  LLt_inv ← np_linalg_inv LLt;
  np_matmul3 ILt LLt_inv.

(** Lines 42-43: [kd], with an exact zero replaced by [1e-7]. *)
Definition stereo_kd (G : list (list (list F))) : list (list F) :=
  let kd := map2d np_norm G in
  map2d (λ k, if k == sofZ 0 then lit_1e_7 else k) kd.

(** Lines 44-45 *)
Definition stereo_normals (G : list (list (list F))) : list (list (list F)) :=
  let kd := stereo_kd G in
  let normals := bcast_last sdiv G kd in
  mask_zero (map2d (λ k, k == sofZ 0) kd) normals.

(** Lines 47-54: the numerator and the denominator of the albedo,
    accumulated over the images. *)
Definition stereo_num_den (lights : list (list F))
    (images : list (list (list (list F)))) (normals : list (list (list F)))
  : option (list (list (list F)) * list (list (list F))) :=
  image0 ← images !! 0%nat;
  let num := np_zeros3 (length image0) (dim1 image0) (dim2 image0) in
  let den := np_zeros3 (length image0) (dim1 image0) (dim2 image0) in
  for_in (range (length images)) (λ j '(num, den),
    currChannel ← images !! j;
    light ← mapM (λ row : list F, row !! j) lights;        (* lights[:, j] *)
    d ← mapM (λ row, np_matvec row light) normals;  (* np.dot(normals, _) *)
    num ← np_iadd3 num (zip2d (λ s v, (λ a, s * a) <$> v) d currChannel);
    let den := bcast_last sadd den (map2d (λ s, s * s) d) in
    Some (num, den)) (num, den).

(** Lines 56-57.  Where [den > 0] fails [np.divide] leaves the entry of
    its freshly allocated result untouched; [junk] is that content. *)
Definition stereo_albedo (junk : nat → nat → nat → F)
    (num den : list (list (list F))) : list (list (list F)) :=
  let den := map3d (λ d, if d == sofZ 0 then sofZ 1 else d) den in
  imap (λ y, imap (λ x, imap (λ k '(n, d),
    if sltb (sofZ 0) d then n / d else junk y x k)))
    (zip2d zip num den).

(** The value of [albedo] after line 57, before the final mask. *)
Definition stereo_albedo_unmasked (junk : nat → nat → nat → F)
    (lights : list (list F)) (images : list (list (list (list F))))
  : option (list (list (list F))) :=
  G ← stereo_G lights images;
  '(num, den) ← stereo_num_den lights images (stereo_normals G);
  Some (stereo_albedo junk num den).

(** Lines 33-63. *)
Definition compute_photometric_stereo_impl (junk : nat → nat → nat → F)
    (lights : list (list F)) (images : list (list (list (list F))))
  : option (list (list (list F)) * list (list (list F))) :=
  G ← stereo_G lights images;
  let normals := stereo_normals G in
  '(num, den) ← stereo_num_den lights images normals;
  let albedo := stereo_albedo junk num den in
  let mask := map2d (λ a, sltb (np_norm a) lit_1e_7) albedo in
  let albedo := mask_zero mask albedo in
  let normals := mask_zero mask normals in
  Some (map3d cast32 albedo, map3d cast32 normals).

(** Lines 42-45 on the vector [g] of one pixel. *)
Definition stereo_divisor (g : list F) : F :=
  let k := np_norm g in
  if seqb k (sofZ 0) then lit_1e_7 else k.

Definition stereo_normal_cell (g : list F) : list F :=
  let k := stereo_divisor g in
  let n := (λ a, sdiv a k) <$> g in
  if seqb k (sofZ 0) then (λ _, sofZ 0) <$> n else n.
End Stereo.

(** ** [pyrdown_impl] and [pyrup_impl] *)

(** [cv::borderInterpolate(p, len, BORDER_REFLECT_101)]: an index outside
    [0, len) is reflected at the ends, [p -> -p] below zero and
    [p -> 2 len - 2 - p] above, until it lies inside.  The loop of the
    library is run on [fuel]. *)
Fixpoint reflect101_loop (fuel : nat) (p len : Z) : Z :=
  match fuel with
  | O => p
  | S fuel' =>
      let p' := if (p <? 0)%Z then (- p)%Z else (2 * len - 2 - p)%Z in
      if (0 <=? p')%Z && (p' <? len)%Z then p'
      else reflect101_loop fuel' p' len
  end.

Definition borderInterpolate (p len : Z) : Z :=
  if (0 <=? p)%Z && (p <? len)%Z then p
  else if (len =? 1)%Z then 0%Z
  else reflect101_loop (Z.to_nat (2 * Z.abs p + 3)) p len.

(** [a[::2]] *)
Fixpoint stride2 {A : Type} (l : list A) : list A :=
  match l with
  | [] => []
  | x :: l' => x :: match l' with [] => [] | _ :: l'' => stride2 l'' end
  end.

Section Pyramid.
Context {F : Type} `{Scalar F}.
Local Open Scope scalar_scope.

(** An image as the kernels receive and return it: an array of two
    dimensions, or of three with the channels last. *)
Inductive ndarray : Type :=
  | Nd2 (a : list (list F))
  | Nd3 (a : list (list (list F))).

(** The correlation at the heart of [cv2.filter2D], on an image held as
    rows of pixels of channels:
    [dst(y, x) = sum over (i, j) of kernel(i, j) * src(y + i - ay, x + j - ax)]
    with the anchor [(ay, ax)] at the kernel centre and samples outside
    the image taken by [BORDER_REFLECT_101]. *)
Definition filter2D_pixels (src : list (list (list F))) (kernel : list (list F))
  : list (list (list F)) :=
  let h := Z.of_nat (length src) in
  let w := Z.of_nat (dim1 src) in
  let ay := (Z.of_nat (length kernel) `div` 2)%Z in
  let ax := (Z.of_nat (dim1 kernel) `div` 2)%Z in
  imap (λ y, imap (λ x, imap (λ c (_ : F),
    np_sum (concat (imap (λ i, imap (λ j kv,
      let sy := Z.to_nat (borderInterpolate (Z.of_nat y + Z.of_nat i - ay) h) in
      let sx := Z.to_nat (borderInterpolate (Z.of_nat x + Z.of_nat j - ax) w) in
      kv * ((src !!! sy) !!! sx) !!! c)) kernel))))) src.

(** [cv2.filter2D(src, -1, kernel, borderType=cv2.BORDER_REFLECT_101)]
    through the Python binding: an empty image is an error, and a result
    of one channel comes back without its channel axis. *)
Definition cv2_filter2D (src : ndarray) (kernel : list (list F))
  : option ndarray :=
  let src3 := match src with
              | Nd2 a => map2d (λ v, [v]) a
              | Nd3 a => a
              end in
  if bool_decide (length src3 = 0 ∨ dim1 src3 = 0 ∨ dim2 src3 = 0)%nat
  then None
  else
    let dst := filter2D_pixels src3 kernel in
    Some (if bool_decide (dim2 src3 = 1%nat)
          then Nd2 (map2d (λ px : list F, px !!! 0%nat) dst)
          else Nd3 dst).

(** [a[::2, ::2]] *)
Definition stride2_2d {A : Type} (a : list (list A)) : list (list A) :=
  stride2 (stride2 <$> a).

(** [a[..., np.newaxis]] when [a.ndim == 2], and [a] otherwise. *)
Definition restore_channel_axis (a : ndarray) : ndarray :=
  match a with
  | Nd2 a => Nd3 (map2d (λ v, [v]) a)
  | Nd3 a => Nd3 a
  end.

(** Lines 94-106. *)
Definition pyrdown_impl (image : ndarray) : option ndarray :=
  let K := (λ k, sofZ k / sofZ 16) <$> [1; 4; 6; 4; 1]%Z in
  let K_col := (λ k, [k]) <$> K in                     (* K[:, np.newaxis] *)
  img_filt ← cv2_filter2D image K_col;
  img_filt ← cv2_filter2D img_filt (np_transpose K_col);
  let down := match img_filt with
              | Nd2 a => Nd2 (stride2_2d a)
              | Nd3 a => Nd3 (stride2_2d a)
              end in
  Some (restore_channel_axis down).

(** [new_img[::2, ::2] = image] for arrays of three dimensions, [new_img]
    being twice as high and wide as [image]. *)
Definition set_stride2_2d (new_img image : list (list (list F)))
  : list (list (list F)) :=
  imap (λ y, imap (λ x (old : list F),
    if Nat.even y && Nat.even x
    then (image !!! (y `div` 2)%nat) !!! (x `div` 2)%nat
    else old)) new_img.

(** Lines 132-153. *)
Definition pyrup_impl (image : ndarray) : option ndarray :=
  new_img ←
    match image with
    | Nd3 a =>
        let new_img := np_zeros3 (2 * length a) (2 * dim1 a) (dim2 a) in
        Some (set_stride2_2d new_img a)
    | Nd2 a =>
        (* a two-dimensional image only broadcasts into the 2h x 2w x 1
           target when it is 1 x 1 *)
        let new_img := np_zeros3 (2 * length a) (2 * dim1 a) 1 in
        if bool_decide (length a = 1 ∧ dim1 a = 1)%nat
        then Some (set_stride2_2d new_img (map2d (λ v, [v]) a))
        else None
    end;
  let K := (λ k, sofZ k / sofZ 8) <$> [1; 4; 6; 4; 1]%Z in
  let K_col := (λ k, [k]) <$> K in
  img_filt ← cv2_filter2D (Nd3 new_img) K_col;
  img_filt ← cv2_filter2D img_filt (np_transpose K_col);
  Some (restore_channel_axis img_filt).

(** The image with a zero inserted after every sample along both axes:
    [2h] x [2w] pixels, the input at the even coordinates and zero
    elsewhere. *)
Definition zero_stuffed (image : list (list (list F))) (h w : nat)
  : list (list (list F)) :=
  (λ y, (λ x,
     if Nat.even y && Nat.even x
     then (image !!! (y `div` 2)%nat) !!! (x `div` 2)%nat
     else np_zeros1 (dim2 image)) <$> range (2 * w)) <$> range (2 * h).
End Pyramid.

(** ** The claims' vocabulary, in exact arithmetic *)

Section Vocabulary.
Local Open Scope R_scope.

(** Entry [(i, j)] of a matrix. *)
Definition entry (m : list (list R)) (i j : nat) : R := (m !!! i) !!! j.

(** Component [i] of [Rt · (p, 1)]. *)
Definition camera_coord (Rt : list (list R)) (p0 p1 p2 : R) (i : nat) : R :=
  entry Rt i 0 * p0 + entry Rt i 1 * p1 + entry Rt i 2 * p2 + entry Rt i 3.

(** Component [i] of [loc = K · Rt · (p, 1)]. *)
Definition image_coord (K Rt : list (list R)) (p0 p1 p2 : R) (i : nat) : R :=
  entry K i 0 * camera_coord Rt p0 p1 p2 0
  + entry K i 1 * camera_coord Rt p0 p1 p2 1
  + entry K i 2 * camera_coord Rt p0 p1 p2 2.

(** Component [j] of the ray [Ki · (x, y, 1)]. *)
Definition ray_coord (Ki : list (list R)) (x y : R) (j : nat) : R :=
  entry Ki j 0 * x + entry Ki j 1 * y + entry Ki j 2.

(** The world point [Rᵀ · (depth · Ki · (x, y, 1)) − Rᵀ · t] of the image
    corner [(x, y)], with [R = Rt[:, 0:3]], [t = Rt[:, 3]] and [Ki] the
    inverse of the intrinsics. *)
Definition world_corner (Ki Rt : list (list R)) (depth x y : R) : list R :=
  (λ i : nat,
     (entry Rt 0 i * (depth * ray_coord Ki x y 0)
      + entry Rt 1 i * (depth * ray_coord Ki x y 1)
      + entry Rt 2 i * (depth * ray_coord Ki x y 2))
     - (entry Rt 0 i * entry Rt 0 3 + entry Rt 1 i * entry Rt 1 3
        + entry Rt 2 i * entry Rt 2 3))
  <$> [0; 1; 2]%nat.

Definition identity3 : list (list R) := [[1; 0; 0]; [0; 1; 0]; [0; 0; 1]].

(** Mirror boundary handling: the index [p] read in a signal of [len]
    samples extended by reflection about its first and last sample, the
    edge samples not repeated (period [2 (len - 1)]). *)
Definition mirror (p len : Z) : Z :=
  if (len =? 1)%Z then 0%Z
  else let m := (2 * (len - 1))%Z in
       let q := (p `mod` m)%Z in
       if (q <? len)%Z then q else (m - q)%Z.

(** Tap [a] of the binomial kernel [1 4 6 4 1]. *)
Definition binomial5 (a : Z) : R := IZR ([1; 4; 6; 4; 1]%Z !!! Z.to_nat a).

(** The convolution of a signal [f] on [Z x Z] with the 1D kernel
    [1 4 6 4 1] / s along both axes, the kernel centred on its middle
    tap: [sum over (a, b) of k(a) k(b) f(y - (a - 2), x - (b - 2))]. *)
Definition blur5 (s : R) (f : Z → Z → R) (y x : Z) : R :=
  np_sum (a ← [0; 1; 2; 3; 4]%Z;
          b ← [0; 1; 2; 3; 4]%Z;
          [binomial5 a / s * (binomial5 b / s)
           * f (y - (a - 2))%Z (x - (b - 2))%Z]).

(** Channel [k] of an [h] x [w] image, extended to [Z x Z] by
    mirroring. *)
Definition mirrored (image : list (list (list R))) (h w k : nat) (y x : Z)
  : R :=
  ((image !!! Z.to_nat (mirror y (Z.of_nat h)))
     !!! Z.to_nat (mirror x (Z.of_nat w))) !!! k.

End Vocabulary.

(** * Properties *)

(** ** The literal [1e-7] in exact arithmetic *)

Lemma lit_1e_7_exact :
  @lit_1e_7 R _ = (7555786372591432 / 75557863725914323419136)%R.
Proof.
  unfold lit_1e_7, sofFloat, R_scalar, float_to_R.
  change (Prim2SF _) with (S754_finite false 7555786372591432 (-76)).
  cbv beta iota zeta. unfold Rdiv. f_equal.
  change (powerRZ 2 (-76)) with (/ 2 ^ 76)%R. f_equal.
  rewrite (pow_IZR 2 76). by f_equal.
Qed.

(** It is positive and lies below [10^-7], by less than [10^-23]. *)
Lemma lit_1e_7_bounds : (0 < @lit_1e_7 R _ < 1e-7)%R.
Proof. rewrite lit_1e_7_exact. lra. Qed.

Lemma lit_1e_7_near : (1e-7 - 1e-23 < @lit_1e_7 R _)%R.
Proof. rewrite lit_1e_7_exact. lra. Qed.

(** ** Loops that fill an array cell by cell *)

Lemma for_in_app {S : Type} (l1 l2 : list nat) (body : nat → S → option S) (s : S) :
  for_in (l1 ++ l2) body s = for_in l1 body s ≫= for_in l2 body.
Proof.
  revert s. induction l1 as [|i l1 IH]; intros s; simpl; [done|].
  destruct (body i s) as [s'|]; simpl; [apply IH | done].
Qed.

(** A loop whose iteration [i] only rewrites cell [i], as a function of
    the cell's old content, computes an indexed map.  [Q] is an
    invariant of the cells. *)
Lemma for_in_fill {A : Type} (Q : A → Prop) (body : nat → list A → option (list A))
    (f : nat → A → A) (l : list A) :
  Forall Q l →
  (∀ i a, Q a → Q (f i a)) →
  (∀ i a s, (i < length l)%nat → Forall Q s → s !! i = Some a →
            body i s = Some (<[i := f i a]> s)) →
  for_in (range (length l)) body l = Some (imap f l).
Proof.
  intros HQ Hf Hbody. unfold range.
  enough (Hgen : ∀ n k s, (k + n = length s)%nat → length s = length l →
            Forall Q s →
            for_in (seq k n) body s
            = Some (take k s ++ imap (λ j, f (k + j)%nat) (drop k s))).
  { rewrite (Hgen (length l) 0%nat l); [|lia|done|done].
    by rewrite take_0, drop_0. }
  induction n as [|n IH]; intros k s Hlen Hl Hs; simpl.
  - rewrite drop_ge by lia. rewrite take_ge by lia. simpl. by rewrite app_nil_r.
  - destruct (lookup_lt_is_Some_2 s k) as [a Ha]; [lia|].
    rewrite (Hbody k a s) by (done || lia). simpl.
    assert (HQa : Q a) by (eapply Forall_lookup_1; eauto).
    rewrite IH; [|rewrite length_insert; lia|by rewrite length_insert|].
    2:{ apply Forall_insert; auto. }
    f_equal.
    rewrite (drop_S s a k Ha). simpl.
    rewrite take_S_r with (x := f k a).
    2:{ apply list_lookup_insert_eq. apply lookup_lt_Some in Ha. lia. }
    rewrite take_insert_ge by lia.
    rewrite drop_insert_lt by lia.
    rewrite <- app_assoc. simpl. rewrite Nat.add_0_r.
    do 2 f_equal. apply imap_ext. intros j b _. simpl. f_equal. lia.
Qed.

(** The same for a doubly nested loop over a two-dimensional array of
    cells. *)
Lemma for_in_fill2 {A : Type} (Q : A → Prop)
    (body : nat → nat → list (list A) → option (list (list A)))
    (f : nat → nat → A → A) (w : nat) (a : list (list A)) :
  Forall (λ row, length row = w ∧ Forall Q row) a →
  (∀ y x v, Q v → Q (f y x v)) →
  (∀ y x s row v,
      (y < length a)%nat → (x < w)%nat →
      Forall (λ row, length row = w ∧ Forall Q row) s →
      s !! y = Some row → row !! x = Some v →
      body y x s = Some (<[y := <[x := f y x v]> row]> s)) →
  for_in (range (length a)) (λ y s, for_in (range w) (λ x s, body y x s) s) a
  = Some (imap (λ y, imap (f y)) a).
Proof.
  intros Ha Hf Hbody.
  apply (for_in_fill (λ row, length row = w ∧ Forall Q row)); [done| |].
  - intros y row [Hlen HQ]. split; [by rewrite length_imap|].
    apply Forall_lookup_2. intros x v. rewrite list_lookup_imap.
    destruct (row !! x) as [v0|] eqn:Hx; simpl; [|done].
    intros [= <-]. apply Hf. eapply Forall_lookup_1; eauto.
  - intros y row s Hya Hs Hy. unfold range.
    enough (Hgen : ∀ n k s row, (k + n = w)%nat →
              Forall (λ row, length row = w ∧ Forall Q row) s →
              s !! y = Some row →
              for_in (seq k n) (λ x s, body y x s) s
              = Some (<[y := take k row
                             ++ imap (λ j, f y (k + j)%nat) (drop k row)]> s)).
    { destruct (Forall_lookup_1 _ _ _ _ Hs Hy) as [Hlen _].
      rewrite (Hgen w 0%nat s row); [|lia|done|done].
      by rewrite take_0, drop_0. }
    clear s row Hs Hy.
    induction n as [|n IH]; intros k s row Hk Hs Hy; simpl.
    + destruct (Forall_lookup_1 _ _ _ _ Hs Hy) as [Hlen _].
      rewrite drop_ge by lia. rewrite take_ge by lia. simpl.
      rewrite app_nil_r. by rewrite list_insert_id.
    + destruct (Forall_lookup_1 _ _ _ _ Hs Hy) as [Hlen HQ].
      destruct (lookup_lt_is_Some_2 row k) as [v Hv]; [lia|].
      rewrite (Hbody y k s row v) by (done || lia). simpl.
      assert (Hylt : (y < length s)%nat) by (by eapply lookup_lt_Some).
      rewrite (IH (S k) _ (<[k := f y k v]> row)); [|lia| |].
      3:{ by apply list_lookup_insert_eq. }
      2:{ apply Forall_insert; [done|]. split; [by rewrite length_insert|].
          apply Forall_insert; [done|]. apply Hf.
          eapply Forall_lookup_1; eauto. }
      f_equal. rewrite list_insert_insert_eq. f_equal.
      rewrite (drop_S row v k Hv). simpl.
      rewrite take_S_r with (x := f y k v).
      2:{ apply list_lookup_insert_eq. lia. }
      rewrite take_insert_ge by lia.
      rewrite drop_insert_lt by lia.
      rewrite <- app_assoc. simpl. rewrite Nat.add_0_r.
      do 2 f_equal. apply imap_ext. intros j b _. simpl. f_equal. lia.
Qed.

Lemma for_in_ext {S : Type} (l : list nat) (b1 b2 : nat → S → option S) (s : S) :
  (∀ i s, i ∈ l → b1 i s = b2 i s) → for_in l b1 s = for_in l b2 s.
Proof.
  revert s. induction l as [|i l IH]; intros s Hb; simpl; [done|].
  rewrite Hb by left. destruct (b2 i s); simpl; [|done].
  apply IH. intros j s' Hj. apply Hb. by right.
Qed.

Lemma at_index_lookup {A : Type} (i : nat) (g : A → option A) (l : list A) (a : A) :
  l !! i = Some a → at_index i g l = a' ← g a; Some (<[i := a']> l).
Proof. intros Ha. unfold at_index. by rewrite Ha. Qed.

(** A loop that works on one cell of an array can run on the cell alone. *)
Lemma for_in_at_index {A : Type} (ks : list nat) (i : nat)
    (g : nat → A → option A) (l : list A) :
  (i < length l)%nat →
  for_in ks (λ k, at_index i (g k)) l = at_index i (for_in ks g) l.
Proof.
  revert l. induction ks as [|k ks IH]; intros l Hi;
    destruct (lookup_lt_is_Some_2 l i Hi) as [a Ha];
    rewrite (at_index_lookup _ (for_in _ g) _ _ Ha); simpl.
  - by rewrite list_insert_id.
  - rewrite (at_index_lookup _ _ _ _ Ha).
    destruct (g k a) as [a'|]; simpl; [|done].
    rewrite IH by (by rewrite length_insert).
    rewrite (at_index_lookup _ _ _ a') by (by apply list_lookup_insert_eq).
    destruct (for_in ks g a'); simpl; [|done].
    by rewrite list_insert_insert_eq.
Qed.

(** ** Slices *)

Lemma slice_bound_nat (len i : nat) :
  (i ≤ len)%nat → slice_bound (Z.of_nat len) (Z.of_nat i) = i.
Proof.
  intros Hi. unfold slice_bound.
  destruct (Z.ltb_spec (Z.of_nat i) 0); lia.
Qed.

Lemma py_slice_window {A : Type} (l : list A) (a n : nat) :
  (a + n ≤ length l)%nat →
  py_slice (Z.of_nat a) (Z.of_nat (a + n)) l = take n (drop a l).
Proof.
  intros Hl. unfold py_slice.
  rewrite !slice_bound_nat by lia. f_equal. lia.
Qed.

Lemma take_drop_lookup_total {A : Type} `{Inhabited A} (l : list A) (a n : nat) :
  (a + n ≤ length l)%nat →
  take n (drop a l) = (λ i, l !!! (a + i)%nat) <$> range n.
Proof.
  intros Hl. apply list_eq. intros i. unfold range.
  rewrite list_lookup_fmap.
  destruct (decide (i < n)%nat) as [Hi|Hi].
  - rewrite lookup_take_lt by done. rewrite lookup_drop.
    rewrite lookup_seq_lt by done. simpl.
    apply list_lookup_lookup_total_lt. lia.
  - rewrite lookup_take_ge by lia.
    rewrite lookup_seq_ge by lia. done.
Qed.

Lemma py_set_slice_block {A : Type} (a n : nat) (src l : list A) :
  length src = n → (a + n ≤ length l)%nat →
  py_set_slice (Z.of_nat a) (Z.of_nat (a + n)) src l
  = Some (take a l ++ src ++ drop (a + n) l).
Proof.
  intros Hsrc Hl. unfold py_set_slice.
  rewrite !slice_bound_nat by lia.
  replace (a + n - a)%nat with n by lia.
  by rewrite decide_True.
Qed.

(** Writing [c] consecutive blocks of [m] elements overwrites a vector of
    [c * m] elements with their concatenation. *)
Lemma for_in_set_blocks {A : Type} (m c : nat) (blocks : nat → list A)
    (vec : list A) :
  (∀ k, (k < c)%nat → length (blocks k) = m) →
  length vec = (c * m)%nat →
  for_in (range c)
    (λ k, py_set_slice (Z.of_nat (k * m)) (Z.of_nat (k * m + m)) (blocks k))
    vec
  = Some (k ← range c; blocks k).
Proof.
  intros Hb Hvec.
  enough (Hgen : ∀ k, (k ≤ c)%nat →
    for_in (range k)
      (λ k, py_set_slice (Z.of_nat (k * m)) (Z.of_nat (k * m + m)) (blocks k))
      vec
    = Some ((j ← range k; blocks j) ++ drop (k * m) vec)).
  { rewrite Hgen by done. rewrite drop_ge by lia. by rewrite app_nil_r. }
  induction k as [|k IH]; intros Hk; [done|].
  unfold range in *. rewrite seq_S, for_in_app, IH by lia. simpl.
  assert (Hpre : length (j ← seq 0 k; blocks j) = (k * m)%nat).
  { clear IH. assert (Hk' : (k ≤ c)%nat) by lia. clear Hk.
    induction k as [|k IHk]; [done|].
    rewrite seq_S, bind_app, length_app, IHk by lia. simpl.
    rewrite app_nil_r, Hb by lia. lia. }
  rewrite py_set_slice_block.
  2:{ apply Hb; lia. }
  2:{ rewrite length_app, length_drop, Hpre. nia. }
  f_equal.
  rewrite take_app_length' by done.
  rewrite drop_app_ge by lia. rewrite Hpre, drop_drop.
  rewrite bind_app. simpl. rewrite app_nil_r, <- app_assoc.
  do 4 f_equal. lia.
Qed.

(** ** Shapes *)

Lemma shaped3_lookup {A : Type} (h w c : nat) (a : list (list (list A)))
    (y x : nat) :
  shaped3 h w c a → (y < h)%nat → (x < w)%nat →
  ∃ row px, a !! y = Some row ∧ row !! x = Some px
            ∧ length row = w ∧ length px = c.
Proof.
  intros [Hh Ha] Hy Hx.
  destruct (lookup_lt_is_Some_2 a y) as [row Hrow]; [lia|].
  destruct (Forall_lookup_1 _ _ _ _ Ha Hrow) as [Hw Hrow'].
  destruct (lookup_lt_is_Some_2 row x) as [px Hpx]; [lia|].
  exists row, px. repeat split; try done.
  apply (Forall_lookup_1 _ _ _ _ Hrow' Hpx).
Qed.

Lemma shaped3_dims {A : Type} (h w c : nat) (a : list (list (list A))) :
  shaped3 h w c a → (0 < h)%nat → (0 < w)%nat →
  length a = h ∧ dim1 a = w ∧ dim2 a = c.
Proof.
  intros Ha Hh Hw.
  destruct (shaped3_lookup h w c a 0 0 Ha Hh Hw) as (row & px & Hr & Hp & ? & ?).
  destruct Ha as [? _]. split; [done|].
  destruct a as [|r a]; [done|]. injection Hr as ->.
  destruct row as [|p row]; [done|]. by injection Hp as ->.
Qed.

(** The extents the code reads off an array describe it whenever it is
    rectangular. *)
Lemma shaped3_own_dims {A : Type} (h w c : nat) (a : list (list (list A))) :
  shaped3 h w c a → shaped3 (length a) (dim1 a) (dim2 a) a.
Proof.
  intros Ha.
  destruct (decide (h = 0)%nat) as [->|Hh].
  { destruct Ha as [Hl _]. destruct a; [|done]. split; [done|constructor]. }
  destruct (decide (w = 0)%nat) as [->|Hw].
  { destruct Ha as [Hl Ha]. split; [done|].
    destruct a as [|r a]; [constructor|].
    assert (r = []) as ->.
    { pose proof (Forall_inv Ha) as [Hr _]. by destruct r. }
    unfold dim1, dim2. simpl.
    revert Ha. apply Forall_impl. simpl. intros row [Hrow _].
    destruct row; [|done]. split; [done|constructor]. }
  destruct (shaped3_dims h w c a Ha) as (-> & -> & ->); [lia..|done].
Qed.

Lemma shaped3_zeros `{Scalar F} (h w c : nat) :
  shaped3 h w c (np_zeros3 h w c).
Proof.
  split; [apply length_replicate|].
  apply Forall_replicate. split; [apply length_replicate|].
  apply Forall_replicate. apply length_replicate.
Qed.

(** ** [preprocess_ncc_impl]: the patch vectors *)

Section NCCPatches.
Context {F : Type} `{Scalar F}.

Lemma concat_fmap_bind {A B : Type} (f : A → list B) (l : list A) :
  concat (f <$> l) = l ≫= f.
Proof. induction l as [|a l IH]; simpl; [done|]. f_equal. exact IH. Qed.

Lemma fmap_bind_singleton {A B : Type} (f : A → B) (l : list A) :
  f <$> l = l ≫= λ a, [f a].
Proof. induction l as [|a l IH]; simpl; by f_equal. Qed.

Lemma length_bind_const {A B : Type} (f : A → list B) (l : list A) (m : nat) :
  (∀ a, a ∈ l → length (f a) = m) → length (l ≫= f) = (length l * m)%nat.
Proof.
  induction l as [|a l IH]; intros Hf; [done|].
  rewrite bind_cons, length_app, Hf by left. rewrite IH; [simpl; lia|].
  intros b Hb. apply Hf. by right.
Qed.

Lemma length_range (n : nat) : length (range n) = n.
Proof. apply length_seq. Qed.

Lemma elem_of_range (n i : nat) : i ∈ range n ↔ (i < n)%nat.
Proof. unfold range. rewrite elem_of_seq. lia. Qed.

Lemma length_patch_vector (image : list (list (list F))) (c r y x : nat) :
  length (patch_vector image c r y x)
  = (c * ((2 * r + 1) * (2 * r + 1)))%nat.
Proof.
  unfold patch_vector.
  rewrite (length_bind_const _ _ ((2 * r + 1) * (2 * r + 1))), length_range; [done|].
  intros k _.
  rewrite (length_bind_const _ _ (2 * r + 1)), length_range; [done|].
  intros dy _.
  rewrite (length_bind_const _ _ 1), length_range; [lia|done].
Qed.

(** The slices of the code pick the window samples one thinks of. *)
Lemma ncc_patch_flat (image : list (list (list F))) (h w c r y x k : nat) :
  shaped3 h w c image → window_inside h w r y x →
  concat (ncc_patch image y x (- Z.of_nat r) (Z.of_nat r) k)
  = dy ← range (2 * r + 1);
    dx ← range (2 * r + 1);
    [((image !!! (y - r + dy)%nat) !!! (x - r + dx)%nat) !!! k].
Proof.
  intros Himg (Hy1 & Hx1 & Hy2 & Hx2). unfold ncc_patch.
  replace (Z.of_nat y + - Z.of_nat r)%Z with (Z.of_nat (y - r)) by lia.
  replace (Z.of_nat y + Z.of_nat r + 1)%Z
    with (Z.of_nat (y - r + (2 * r + 1))) by lia.
  replace (Z.of_nat x + - Z.of_nat r)%Z with (Z.of_nat (x - r)) by lia.
  replace (Z.of_nat x + Z.of_nat r + 1)%Z
    with (Z.of_nat (x - r + (2 * r + 1))) by lia.
  destruct Himg as [Hh Hrows].
  rewrite py_slice_window by lia.
  rewrite take_drop_lookup_total by lia.
  rewrite <- list_fmap_compose, concat_fmap_bind.
  apply Forall_bind_ext, Forall_forall. intros dy Hdy.
  apply list_elem_of_In, elem_of_range in Hdy. simpl.
  destruct (lookup_lt_is_Some_2 image (y - r + dy)) as [row Hrow]; [lia|].
  destruct (Forall_lookup_1 _ _ _ _ Hrows Hrow) as [Hw _].
  rewrite (list_lookup_total_correct _ _ _ Hrow).
  rewrite py_slice_window by lia.
  rewrite take_drop_lookup_total by lia.
  rewrite <- list_fmap_compose. apply fmap_bind_singleton.
Qed.

Lemma ncc_condition (h w r y x : nat) :
  bool_decide (Z.of_nat y + - Z.of_nat r >= 0)%Z &&
  bool_decide (Z.of_nat x + - Z.of_nat r >= 0)%Z &&
  bool_decide (Z.of_nat y + Z.of_nat r < Z.of_nat h)%Z &&
  bool_decide (Z.of_nat x + Z.of_nat r < Z.of_nat w)%Z
  = bool_decide (window_inside h w r y x).
Proof.
  unfold window_inside.
  repeat case_bool_decide; simpl; try done; lia.
Qed.

(** The half-window of an odd patch size [2r + 1] is [r]. *)
Lemma odd_half (r : nat) : ((2 * Z.of_nat r + 1) `div` 2 = Z.of_nat r)%Z.
Proof. symmetry. apply (Z.div_unique _ _ _ 1); lia. Qed.

Lemma ncc_patches_odd (image : list (list (list F))) (h w c r : nat) :
  shaped3 h w c image →
  ncc_patches image (2 * Z.of_nat r + 1) = Some (ncc_filled image r).
Proof.
  intros Himg0. apply shaped3_own_dims in Himg0. clear h w c.
  unfold ncc_patches, ncc_filled.
  set (h := length image) in *. set (w := dim1 image) in *.
  set (c := dim2 image) in *. rewrite odd_half.
  set (m := ((2 * r + 1) * (2 * r + 1))%nat).
  replace (Z.to_nat (Z.of_nat c * (2 * Z.of_nat r + 1) * (2 * Z.of_nat r + 1)))
    with (c * m)%nat by (unfold m; lia).
  pose proof (shaped3_zeros (F := F) h w (c * m)) as [Hzh Hz].
  rewrite <- Hzh at 1.
  apply (for_in_fill2 (λ v, length v = (c * m)%nat)); [done| |].
  - intros y x v Hv. case_decide; [|done]. apply length_patch_vector.
  - intros y x s row v _ _ Hs Hy Hx. rewrite ncc_condition.
    destruct (Forall_lookup_1 _ _ _ _ Hs Hy) as [Hw Hrow].
    pose proof (Forall_lookup_1 _ _ _ _ Hrow Hx) as Hv. simpl in Hv.
    case_bool_decide as Hin; rewrite ?decide_True, ?decide_False by done.
    2:{ by rewrite (list_insert_id row x v Hx), (list_insert_id s y row Hy). }
    set (blocks := λ k : nat,
           dy ← range (2 * r + 1); dx ← range (2 * r + 1);
           [((image !!! (y - r + dy)%nat) !!! (x - r + dx)%nat) !!! k]).
    rewrite (for_in_ext _ _ (λ k, at_index y (at_index x
               (py_set_slice (Z.of_nat (k * m)) (Z.of_nat (k * m + m))
                  (blocks k))))).
    2:{ intros k s' Hk. unfold set_slice_at.
        rewrite (ncc_patch_flat image h w c) by done.
        replace (Z.of_nat k * (2 * Z.of_nat r + 1) * (2 * Z.of_nat r + 1))%Z
          with (Z.of_nat (k * m)) by (unfold m; lia).
        replace ((Z.of_nat k + 1) * (2 * Z.of_nat r + 1) * (2 * Z.of_nat r + 1))%Z
          with (Z.of_nat (k * m + m)) by (unfold m; lia).
        done. }
    rewrite (for_in_at_index (range c) y) by (by eapply lookup_lt_Some).
    rewrite (at_index_lookup _ _ _ _ Hy).
    rewrite (for_in_at_index (range c) x) by (by eapply lookup_lt_Some).
    rewrite (at_index_lookup _ _ _ _ Hx).
    rewrite (for_in_set_blocks m c blocks v); [done| |done].
    intros k _. unfold blocks.
    rewrite (length_bind_const _ _ (2 * r + 1)), length_range; [done|].
    intros dy _.
    rewrite (length_bind_const _ _ 1), length_range; [lia|done].
Qed.
End NCCPatches.

(** ** [preprocess_ncc_impl]: pixel by pixel *)

Section NCCPixels.
Context {F : Type} `{Scalar F}.

Lemma bcast_last_map2d (op : F → F → F) (g : list F → F)
    (a : list (list (list F))) :
  bcast_last op a (map2d g a) = map2d (λ v, (λ x, op x (g v)) <$> v) a.
Proof.
  unfold bcast_last, zip2d, map2d.
  rewrite zip_with_fmap_r, zip_with_diag.
  apply list_fmap_ext. intros _ row _.
  by rewrite zip_with_fmap_r, zip_with_diag.
Qed.

Lemma ncc_subtract_mean_cells (ans : list (list (list F))) :
  ncc_subtract_mean ans = map2d ncc_center ans.
Proof. apply bcast_last_map2d. Qed.

Lemma ncc_divide_cells (ans : list (list (list F))) :
  ncc_divide ans = map2d ncc_unit ans.
Proof.
  unfold ncc_divide, ncc_norm.
  replace (map2d (λ n, if seqb n (sofZ 0) then sofZ 1 else n) (map2d np_norm ans))
    with (map2d (λ v, let n := np_norm v in
                      if seqb n (sofZ 0) then sofZ 1 else n) ans).
  - apply bcast_last_map2d.
  - unfold map2d. rewrite <- list_fmap_compose.
    apply list_fmap_ext. intros _ row _. simpl.
    by rewrite <- list_fmap_compose.
Qed.

Lemma at2_map2d {A B : Type} (f : A → B) (a : list (list A)) (y x : nat) :
  at2 (map2d f a) y x = f <$> at2 a y x.
Proof.
  unfold at2, map2d. rewrite list_lookup_fmap.
  destruct (a !! y) as [row|]; simpl; [|done].
  apply list_lookup_fmap.
Qed.

Lemma at2_zeros (h w c y x : nat) :
  (y < h)%nat → (x < w)%nat →
  at2 (np_zeros3 h w c) y x = Some (np_zeros1 c).
Proof.
  intros Hy Hx. unfold at2, np_zeros3.
  rewrite lookup_replicate_2 by done. simpl.
  by rewrite lookup_replicate_2.
Qed.

Lemma ncc_filled_at (image : list (list (list F))) (h w c r y x : nat) :
  shaped3 h w c image → (y < h)%nat → (x < w)%nat →
  at2 (ncc_filled image r) y x
  = Some (if decide (window_inside h w r y x)
          then patch_vector image c r y x
          else np_zeros1 (c * ((2 * r + 1) * (2 * r + 1)))).
Proof.
  intros Himg Hy Hx.
  destruct (shaped3_dims h w c image Himg) as (Hh & Hw & Hc); [lia..|].
  unfold ncc_filled. rewrite Hh, Hw, Hc.
  pose proof (at2_zeros h w (c * ((2 * r + 1) * (2 * r + 1))) y x Hy Hx) as Hz.
  unfold at2 in *. rewrite list_lookup_imap.
  destruct (np_zeros3 _ _ _ !! y) as [row|]; simpl in *; [|done].
  rewrite list_lookup_imap, Hz. done.
Qed.

(** Every pixel of the result, for an odd patch size [2r + 1] on a
    rectangular image. *)
Lemma preprocess_ncc_odd (image : list (list (list F))) (h w c r : nat) :
  shaped3 h w c image →
  preprocess_ncc_impl image (2 * Z.of_nat r + 1)
  = Some (map2d (λ v, ncc_unit (ncc_center v)) (ncc_filled image r)).
Proof.
  intros Himg. unfold preprocess_ncc_impl.
  rewrite (ncc_patches_odd image h w c r Himg). simpl.
  rewrite ncc_divide_cells, ncc_subtract_mean_cells. f_equal.
  unfold map2d. rewrite <- list_fmap_compose.
  apply list_fmap_ext. intros _ row _. simpl.
  by rewrite <- list_fmap_compose.
Qed.

Lemma ncc_centered_odd (image : list (list (list F))) (h w c r : nat) :
  shaped3 h w c image →
  ncc_centered image (2 * Z.of_nat r + 1)
  = Some (map2d ncc_center (ncc_filled image r)).
Proof.
  intros Himg. unfold ncc_centered.
  rewrite (ncc_patches_odd image h w c r Himg). simpl.
  by rewrite ncc_subtract_mean_cells.
Qed.

(** An odd positive size is [2r + 1] for its half-window [r]. *)
Lemma odd_size (n : Z) :
  (0 < n)%Z → Z.odd n = true →
  n = (2 * Z.of_nat (Z.to_nat (n `div` 2)) + 1)%Z.
Proof.
  intros Hn Hodd.
  rewrite (Z.div_mod n 2) at 1 by lia.
  rewrite Zmod_odd, Hodd.
  assert (0 ≤ n `div` 2)%Z by (apply Z.div_pos; lia). lia.
Qed.
End NCCPixels.

(** ** Exact arithmetic *)

Section ExactSums.
Local Open Scope R_scope.

Lemma seqb_R (x y : R) : seqb x y = bool_decide (x = y).
Proof. done. Qed.

Lemma foldl_Rplus (acc : R) (v : list R) :
  foldl Rplus acc v = acc + foldl Rplus 0 v.
Proof.
  revert acc. induction v as [|a v IH]; intros acc; simpl; [lra|].
  rewrite (IH (acc + a)), (IH (0 + a)). lra.
Qed.

Lemma np_sum_nil : np_sum ([] : list R) = 0.
Proof. done. Qed.

Lemma np_sum_cons (a : R) (v : list R) : np_sum (a :: v) = a + np_sum v.
Proof. unfold np_sum. simpl. rewrite foldl_Rplus. lra. Qed.

Lemma np_sum_zeros (n : nat) : np_sum (replicate n 0) = 0.
Proof.
  induction n as [|n IH]; simpl; [done|]. rewrite np_sum_cons, IH. lra.
Qed.

Lemma np_sum_shift (m : R) (v : list R) :
  np_sum ((λ a, a - m) <$> v) = np_sum v - IZR (Z.of_nat (length v)) * m.
Proof.
  induction v as [|a v IH].
  - unfold np_sum. simpl. change (Z.of_nat 0) with 0%Z. lra.
  - rewrite fmap_cons, !np_sum_cons, IH.
    cbn [length]. rewrite Nat2Z.inj_succ, succ_IZR. lra.
Qed.

Lemma np_sum_scale (g : R) (v : list R) :
  np_sum ((λ a, a / g) <$> v) = np_sum v / g.
Proof.
  induction v as [|a v IH].
  - unfold np_sum. simpl. lra.
  - rewrite fmap_cons, !np_sum_cons, IH. lra.
Qed.

Lemma np_sum_squares_nonneg (v : list R) : 0 <= np_sum ((λ a, a * a) <$> v).
Proof.
  induction v as [|a v IH].
  - unfold np_sum. simpl. lra.
  - rewrite fmap_cons, np_sum_cons. nra.
Qed.

Lemma np_sum_squares_zero (v : list R) :
  np_sum ((λ a, a * a) <$> v) = 0 → Forall (λ a, a = 0) v.
Proof.
  induction v as [|a v IH]; [constructor|].
  rewrite fmap_cons, np_sum_cons. intros Hs.
  pose proof (np_sum_squares_nonneg v).
  constructor; [nra|]. apply IH. nra.
Qed.

(** The norm of a real vector vanishes only on the zero vector. *)
Lemma np_norm_zero (v : list R) : np_norm v = 0 → Forall (λ a, a = 0) v.
Proof.
  unfold np_norm. simpl. intros Hn.
  apply np_sum_squares_zero.
  apply sqrt_eq_0; [apply np_sum_squares_nonneg | exact Hn].
Qed.

Lemma np_norm_zeros (n : nat) : np_norm (replicate n 0 : list R) = 0.
Proof.
  unfold np_norm. simpl. rewrite fmap_replicate.
  replace (0 * 0) with 0 by lra. rewrite np_sum_zeros. apply sqrt_0.
Qed.

Lemma Forall_zero_replicate (v : list R) :
  Forall (λ a, a = 0) v → v = replicate (length v) 0.
Proof. induction 1 as [|a v -> _ IH]; simpl; [done|]. by f_equal. Qed.

(** *** The normalisation of one pixel *)

Lemma ncc_center_zeros (n : nat) :
  ncc_center (replicate n 0 : list R) = replicate n 0.
Proof.
  unfold ncc_center, np_mean. simpl. rewrite np_sum_zeros.
  rewrite fmap_replicate. f_equal. unfold Rdiv. lra.
Qed.

Lemma ncc_unit_zeros (n : nat) :
  ncc_unit (replicate n 0 : list R) = replicate n 0.
Proof.
  unfold ncc_unit. rewrite np_norm_zeros, seqb_R, bool_decide_true by done.
  simpl. rewrite fmap_replicate. f_equal. lra.
Qed.

Lemma ncc_center_sum (v : list R) : np_sum (ncc_center v) = 0.
Proof.
  unfold ncc_center. rewrite np_sum_shift. unfold np_mean. simpl.
  destruct v as [|a v]; [simpl; rewrite np_sum_nil; lra|].
  field. apply not_0_IZR. simpl. lia.
Qed.

Lemma ncc_unit_sum (v : list R) : np_sum v = 0 → np_sum (ncc_unit v) = 0.
Proof.
  intros Hv. unfold ncc_unit. simpl. rewrite np_sum_scale, Hv.
  unfold Rdiv. lra.
Qed.
End ExactSums.

(** ** [project_impl] *)

Section ProjectCells.
Context {F : Type} `{Scalar F}.

Lemma np_matvec_shaped (m : list (list F)) (v : list F) (r : nat) :
  shaped2 r (length v) m →
  np_matvec m v = Some ((λ row, np_dot row v) <$> m).
Proof. intros [_ Hm]. unfold np_matvec. by rewrite bool_decide_true. Qed.

(** The loops of [project_impl] fill [proj] cell by cell. *)
Lemma project_impl_cells (K Rt : list (list F)) (points : list (list (list F)))
    (h w : nat) :
  shaped2 3 3 K → shaped2 3 4 Rt → shaped3 h w 3 points →
  project_impl K Rt points
  = Some (imap (λ i, imap (λ j v,
            project_cell K Rt (default [] (at2 points i j)) v))
          (np_zeros3 (length points) (dim1 points) 2)).
Proof.
  intros HK HRt Hpts. unfold project_impl.
  pose proof (shaped3_own_dims _ _ _ _ Hpts) as Hown.
  pose proof (shaped3_zeros (F := F) (length points) (dim1 points) 2) as [Hzh Hz].
  rewrite <- Hzh at 1.
  apply (for_in_fill2 (λ _, True)).
  - revert Hz. apply Forall_impl. intros row [? _]. split; [done|].
    by apply Forall_true.
  - done.
  - intros i j s row v Hi Hj Hs Hrow Hv. rewrite Hzh in Hi.
    destruct (shaped3_lookup _ _ _ points i j Hown Hi Hj)
      as (prow & p & Hprow & Hp & _ & Hplen).
    assert (Hat : at2 points i j = Some p).
    { unfold at2. by rewrite Hprow. }
    rewrite Hat. simpl.
    assert (Hp3 : length p = 3%nat).
    { destruct Hpts as [_ Hrows].
      destruct (Forall_lookup_1 _ _ _ _ Hrows Hprow) as [_ Hpx].
      apply (Forall_lookup_1 _ _ _ _ Hpx Hp). }
    rewrite (np_matvec_shaped Rt (p ++ [sofZ 1]) 3).
    2:{ by rewrite length_app, Hp3. }
    simpl.
    rewrite (np_matvec_shaped K _ 3).
    2:{ rewrite length_fmap. by destruct HRt as [-> _]. }
    simpl.
    set (camera := (λ row, np_dot row (p ++ [sofZ 1])) <$> Rt).
    set (location := (λ row, np_dot row camera) <$> K).
    assert (Hloc : length location = 3%nat).
    { unfold location. rewrite length_fmap. by destruct HK. }
    destruct (lookup_lt_is_Some_2 location 2) as [z Hz2]; [lia|].
    rewrite Hz2. simpl.
    unfold project_cell. fold camera. fold location.
    rewrite (list_lookup_total_correct _ _ _ Hz2).
    destruct (sleb lit_1e_7 z).
    + rewrite (at_index_lookup _ _ _ _ Hrow). rewrite (at_index_lookup _ _ _ _ Hv).
      simpl. do 4 f_equal. unfold py_slice.
      rewrite Hloc. by vm_compute.
    + by rewrite (list_insert_id row j v Hv), (list_insert_id s i row Hrow).
Qed.
End ProjectCells.

Lemma length3 {A : Type} (l : list A) :
  length l = 3%nat → ∃ a b c, l = [a; b; c].
Proof. destruct l as [|a [|b [|c [|]]]]; try done. eauto. Qed.

Lemma length4 {A : Type} (l : list A) :
  length l = 4%nat → ∃ a b c d, l = [a; b; c; d].
Proof. destruct l as [|a [|b [|c [|d [|]]]]]; try done. eauto. Qed.

Lemma shaped2_3_3 {A : Type} (m : list (list A)) :
  shaped2 3 3 m →
  ∃ a b c d e f g h i, m = [[a; b; c]; [d; e; f]; [g; h; i]].
Proof.
  intros [Hl Hr]. destruct (length3 m Hl) as (r0 & r1 & r2 & ->).
  apply Forall_cons_1 in Hr as [H0 Hr]. apply Forall_cons_1 in Hr as [H1 Hr].
  apply Forall_cons_1 in Hr as [H2 _].
  destruct (length3 r0 H0) as (? & ? & ? & ->).
  destruct (length3 r1 H1) as (? & ? & ? & ->).
  destruct (length3 r2 H2) as (? & ? & ? & ->). by do 9 eexists.
Qed.

Lemma shaped2_3_4 {A : Type} (m : list (list A)) :
  shaped2 3 4 m →
  ∃ a b c t d e f u g h i v,
    m = [[a; b; c; t]; [d; e; f; u]; [g; h; i; v]].
Proof.
  intros [Hl Hr]. destruct (length3 m Hl) as (r0 & r1 & r2 & ->).
  apply Forall_cons_1 in Hr as [H0 Hr]. apply Forall_cons_1 in Hr as [H1 Hr].
  apply Forall_cons_1 in Hr as [H2 _].
  destruct (length4 r0 H0) as (? & ? & ? & ? & ->).
  destruct (length4 r1 H1) as (? & ? & ? & ? & ->).
  destruct (length4 r2 H2) as (? & ? & ? & ? & ->). by do 12 eexists.
Qed.

Lemma at2_imap2 {A B : Type} (f : nat → nat → A → B) (a : list (list A))
    (i j : nat) :
  at2 (imap (λ i, imap (f i)) a) i j = f i j <$> at2 a i j.
Proof.
  unfold at2. rewrite list_lookup_imap.
  destruct (a !! i) as [row|]; simpl; [|done].
  apply list_lookup_imap.
Qed.

Lemma at2_shaped3 {A : Type} (h w c : nat) (a : list (list (list A)))
    (i j : nat) (p : list A) :
  shaped3 h w c a → at2 a i j = Some p →
  (i < h)%nat ∧ (j < w)%nat ∧ length p = c.
Proof.
  intros [Hh Hrows] Hat. unfold at2 in Hat.
  destruct (a !! i) as [row|] eqn:Hrow; simpl in Hat; [|done].
  destruct (Forall_lookup_1 _ _ _ _ Hrows Hrow) as [Hw Hpx].
  apply lookup_lt_Some in Hrow as Hi. apply lookup_lt_Some in Hat as Hj.
  repeat split; [lia..|]. apply (Forall_lookup_1 _ _ _ _ Hpx Hat).
Qed.

Section ProjectTheorem.
Context {F : Type} `{Scalar F}.
Local Open Scope scalar_scope.

(** C4: with [loc = K · Rt · (p, 1)], computed as line 173 computes it,
    the projection of [p] is [(loc.x / loc.z, loc.y / loc.z)] when
    [loc.z >= 1e-7] and exactly [(0, 0)] otherwise: the zero-initialised
    cell is left as it is and no division takes place.  The comparison
    is the kernel's own, against the constant of line 175, so the
    statement holds for every scalar type, binary64 included. *)
Theorem project_impl_spec (K Rt : list (list F)) (points : list (list (list F)))
    (h w : nat) :
  shaped2 3 3 K → shaped2 3 4 Rt → shaped3 h w 3 points →
  ∃ proj, project_impl K Rt points = Some proj ∧
    ∀ i j p, at2 points i j = Some p →
      ∃ x y z,
        np_matvec Rt (p ++ [sofZ 1]) ≫= np_matvec K = Some [x; y; z] ∧
        (sleb lit_1e_7 z = true → at2 proj i j = Some [x / z; y / z]) ∧
        (sleb lit_1e_7 z = false → at2 proj i j = Some [sofZ 0; sofZ 0]).
Proof.
  intros HK HRt Hpts.
  rewrite (project_impl_cells K Rt points h w HK HRt Hpts).
  eexists. split; [done|]. intros i j p Hat.
  rewrite at2_imap2, Hat.
  pose proof (shaped3_own_dims _ _ _ _ Hpts) as Hown.
  destruct (at2_shaped3 _ _ _ _ _ _ _ Hown Hat) as (Hi & Hj & _).
  destruct (at2_shaped3 _ _ _ _ _ _ _ Hpts Hat) as (_ & _ & Hp3).
  rewrite at2_zeros by done.
  rewrite (np_matvec_shaped Rt (p ++ [sofZ 1]) 3)
    by (by rewrite length_app, Hp3).
  cbn [mbind option_bind].
  rewrite (np_matvec_shaped K _ 3)
    by (rewrite length_fmap; by destruct HRt as [-> _]).
  destruct (shaped2_3_3 K HK) as (a & b & c & d & e & f & g & k & l & ->).
  eexists _, _, _. split; [reflexivity|].
  unfold project_cell.
  split; intros Hb; simpl; simpl in Hb; by rewrite Hb.
Qed.
End ProjectTheorem.

Lemma project_impl_spec_witness :
  let K := [[1; 0; 0]; [0; 1; 0]; [0; 0; 1]]%float in
  let Rt := [[1; 0; 0; 0]; [0; 1; 0; 0]; [0; 0; 1; 0]]%float in
  let points := [[[1; 2; 0x1.ad7f29abcaf48p-24]; [1; 2; 0]]]%float in
  ∃ proj, project_impl K Rt points = Some proj ∧
    ∀ i j p, at2 points i j = Some p →
      ∃ x y z,
        np_matvec Rt (p ++ [sofZ 1]) ≫= np_matvec K = Some [x; y; z] ∧
        (sleb lit_1e_7 z = true → at2 proj i j = Some [x / z; y / z]%S) ∧
        (sleb lit_1e_7 z = false → at2 proj i j = Some [sofZ 0; sofZ 0]).
Proof.
  apply (project_impl_spec _ _ _ 1 2).
  - split; [reflexivity|]. repeat constructor.
  - split; [reflexivity|]. repeat constructor.
  - split; [reflexivity|]. repeat constructor.
Defined.

Section CameraTheorems.
Local Open Scope R_scope.

(** In exact arithmetic [loc] has the closed form [image_coord], and the
    two cases are [lit_1e_7 <= loc.z] and [loc.z < lit_1e_7]. *)
Lemma project_impl_exact (K Rt : list (list R)) (points : list (list (list R)))
    (h w : nat) :
  shaped2 3 3 K → shaped2 3 4 Rt → shaped3 h w 3 points →
  ∃ proj, project_impl K Rt points = Some proj ∧
    ∀ i j p0 p1 p2, at2 points i j = Some [p0; p1; p2] →
      let loc := image_coord K Rt p0 p1 p2 in
      (lit_1e_7 <= loc 2%nat →
         at2 proj i j = Some [loc 0%nat / loc 2%nat; loc 1%nat / loc 2%nat]) ∧
      (loc 2%nat < lit_1e_7 → at2 proj i j = Some [0; 0]).
Proof.
  intros HK HRt Hpts.
  rewrite (project_impl_cells K Rt points h w HK HRt Hpts).
  eexists. split; [done|]. intros i j p0 p1 p2 Hat loc.
  rewrite at2_imap2, Hat.
  pose proof (shaped3_own_dims _ _ _ _ Hpts) as Hown.
  destruct (at2_shaped3 _ _ _ _ _ _ _ Hown Hat) as (Hi & Hj & _).
  rewrite at2_zeros by done. simpl.
  destruct (shaped2_3_3 K HK) as (a & b & c & d & e & f & g & k & l & ->).
  destruct (shaped2_3_4 Rt HRt)
    as (r00 & r01 & r02 & t0 & r10 & r11 & r12 & t1 & r20 & r21 & r22 & t2 & ->).
  unfold project_cell, np_dot, np_sum, np_zeros1. simpl.
  match goal with |- context [if _ then [?x / ?z; ?y / ?z] else _] =>
    replace z with (loc 2%nat)
      by (unfold loc, image_coord, camera_coord, entry; simpl; ring);
    replace x with (loc 0%nat)
      by (unfold loc, image_coord, camera_coord, entry; simpl; ring);
    replace y with (loc 1%nat)
      by (unfold loc, image_coord, camera_coord, entry; simpl; ring)
  end.
  split; intros Hz.
  - by rewrite bool_decide_true.
  - by rewrite bool_decide_false by lra.
Qed.

(** A left inverse of a 3 x 3 matrix is the inverse [np.linalg.inv]
    returns. *)
Lemma np_linalg_inv_unique (K Ki : list (list R)) :
  shaped2 3 3 K → shaped2 3 3 Ki →
  np_matmul Ki K = Some identity3 →
  np_linalg_inv K = Some Ki.
Proof.
  intros HK HKi Hinv.
  destruct (shaped2_3_3 K HK) as (a & b & c & d & e & f & g & h & i & ->).
  destruct (shaped2_3_3 Ki HKi)
    as (a' & b' & c' & d' & e' & f' & g' & h' & i' & ->).
  unfold np_matmul, np_vecmat, np_transpose, np_dot, np_sum, identity3 in Hinv.
  simpl in Hinv.
  injection Hinv as H00 H01 H02 H10 H11 H12 H20 H21 H22.
  unfold np_linalg_inv. simpl.
  set (det := a * (e * i - f * h) - b * (d * i - f * g) + c * (d * h - e * g)).
  assert (Hdet : (a' * (e' * i' - f' * h') - b' * (d' * i' - f' * g')
                  + c' * (d' * h' - e' * g')) * det = 1).
  { unfold det. nsatz. }
  assert (Hdet0 : det ≠ 0) by (intros Hz; rewrite Hz in Hdet; lra).
  rewrite bool_decide_false by done.
  do 2 f_equal; [|f_equal; [|f_equal]]; (f_equal; [|f_equal; [|f_equal]]);
    apply (Rmult_eq_reg_r det); try done;
    unfold Rdiv; rewrite Rmult_assoc, Rinv_l, Rmult_1_r by done;
    unfold det; nsatz.
Qed.

(** C5: for an invertible [K] with inverse [Ki], the result is the 2 x 2
    grid, rows [y = 0, y = height] and columns [x = 0, x = width], of
    the points [Rᵀ · (depth · Ki · (x, y, 1)) − Rᵀ · t]; with identity
    intrinsics and extrinsics, depth 1 and a 2 x 2 image these are
    (0,0,1), (2,0,1), (0,2,1), (2,2,1). *)
Theorem unproject_corners_impl_spec (K Ki Rt : list (list R))
    (width height depth : R) :
  shaped2 3 3 K → shaped2 3 3 Ki → shaped2 3 4 Rt →
  np_matmul Ki K = Some identity3 →
  unproject_corners_impl K width height depth Rt
  = Some [[world_corner Ki Rt depth 0 0; world_corner Ki Rt depth width 0];
          [world_corner Ki Rt depth 0 height;
           world_corner Ki Rt depth width height]]
  ∧ unproject_corners_impl identity3 2 2 1
      [[1; 0; 0; 0]; [0; 1; 0; 0]; [0; 0; 1; 0]]
    = Some [[[0; 0; 1]; [2; 0; 1]]; [[0; 2; 1]; [2; 2; 1]]].
Proof.
  assert (Hgen : ∀ K Ki Rt width height depth,
    shaped2 3 3 K → shaped2 3 3 Ki → shaped2 3 4 Rt →
    np_matmul Ki K = Some identity3 →
    unproject_corners_impl K width height depth Rt
    = Some [[world_corner Ki Rt depth 0 0; world_corner Ki Rt depth width 0];
            [world_corner Ki Rt depth 0 height;
             world_corner Ki Rt depth width height]]).
  { clear. intros K Ki Rt width height depth HK HKi HRt Hinv.
    unfold unproject_corners_impl.
    rewrite (np_linalg_inv_unique K Ki HK HKi Hinv). simpl.
    destruct (shaped2_3_3 Ki HKi)
      as (a & b & c & d & e & f & g & h & i & ->).
    destruct (shaped2_3_4 Rt HRt)
      as (r00 & r01 & r02 & t0 & r10 & r11 & r12 & t1
          & r20 & r21 & r22 & t2 & ->).
    unfold np_tensordot3, np_vecmat, np_matvec, np_transpose, np_dot, np_sum,
      world_corner, ray_coord, entry.
    simpl.
    do 2 f_equal; [|f_equal]; (f_equal; [|f_equal]);
      (f_equal; [|f_equal; [|f_equal]]); ring. }
  intros HK HKi HRt Hinv. split; [by apply Hgen|].
  rewrite (Hgen identity3 identity3).
  - unfold world_corner, ray_coord, entry, identity3. simpl.
    do 2 f_equal; [|f_equal]; (f_equal; [|f_equal]);
      (f_equal; [|f_equal; [|f_equal]]); ring.
  - split; [reflexivity|]. repeat constructor.
  - split; [reflexivity|]. repeat constructor.
  - split; [reflexivity|]. repeat constructor.
  - unfold np_matmul, np_vecmat, np_transpose, np_dot, np_sum, identity3.
    simpl. do 2 f_equal; [|f_equal; [|f_equal]];
      (f_equal; [|f_equal; [|f_equal]]); ring.
Qed.

Lemma unproject_corners_impl_spec_witness :
  let K := [[2; 0; 1]; [0; 2; 1]; [0; 0; 1]] in
  let Ki := [[1 / 2; 0; - 1 / 2]; [0; 1 / 2; - 1 / 2]; [0; 0; 1]] in
  let Rt := [[0; 1; 0; 5]; [- 1; 0; 0; 6]; [0; 0; 1; 7]] in
  unproject_corners_impl K 2 2 3 Rt
  = Some [[world_corner Ki Rt 3 0 0; world_corner Ki Rt 3 2 0];
          [world_corner Ki Rt 3 0 2; world_corner Ki Rt 3 2 2]]
  ∧ unproject_corners_impl identity3 2 2 1
      [[1; 0; 0; 0]; [0; 1; 0; 0]; [0; 0; 1; 0]]
    = Some [[[0; 0; 1]; [2; 0; 1]]; [[0; 2; 1]; [2; 2; 1]]].
Proof.
  apply unproject_corners_impl_spec.
  - split; [reflexivity|]. repeat constructor.
  - split; [reflexivity|]. repeat constructor.
  - split; [reflexivity|]. repeat constructor.
  - unfold np_matmul, np_vecmat, np_transpose, np_dot, np_sum, identity3.
    simpl. do 2 f_equal; [|f_equal; [|f_equal]];
      (f_equal; [|f_equal; [|f_equal]]); field.
Defined.
End CameraTheorems.

(** ** Theorems on [preprocess_ncc_impl] *)

Section NCCTheorems.
Local Open Scope R_scope.

(** What the kernel returns at one pixel, for an odd positive patch
    size: the normalised, centred patch vector inside the image, the
    normalised, centred zero vector elsewhere. *)
Lemma preprocess_ncc_at (image : list (list (list R))) (h w c : nat)
    (ncc_size : Z) (y x : nat) :
  shaped3 h w c image → (0 < ncc_size)%Z → Z.odd ncc_size = true →
  (y < h)%nat → (x < w)%nat →
  let r := Z.to_nat (ncc_size `div` 2) in
  ∃ out, preprocess_ncc_impl image ncc_size = Some out ∧
    at2 out y x
    = Some (ncc_unit (ncc_center
        (if decide (window_inside h w r y x)
         then patch_vector image c r y x
         else np_zeros1 (c * ((2 * r + 1) * (2 * r + 1)))))).
Proof.
  intros Himg Hpos Hodd Hy Hx r.
  rewrite (odd_size ncc_size Hpos Hodd). fold r.
  rewrite (preprocess_ncc_odd image h w c r Himg).
  eexists. split; [done|].
  by rewrite at2_map2d, (ncc_filled_at image h w c r y x Himg Hy Hx).
Qed.

(** C6: at a pixel whose window of half-width [ncc_size // 2] leaves the
    image, the feature vector is the zero vector, for every rectangular
    image and every odd patch size. *)
Theorem preprocess_ncc_border_zero (image : list (list (list R)))
    (h w c : nat) (ncc_size : Z) (y x : nat) :
  shaped3 h w c image → (0 < ncc_size)%Z → Z.odd ncc_size = true →
  (y < h)%nat → (x < w)%nat →
  ¬ window_inside h w (Z.to_nat (ncc_size `div` 2)) y x →
  ∃ out, preprocess_ncc_impl image ncc_size = Some out ∧
    at2 out y x
    = Some (replicate (c * Z.to_nat ncc_size * Z.to_nat ncc_size) 0).
Proof.
  intros Himg Hpos Hodd Hy Hx Hout.
  destruct (preprocess_ncc_at image h w c ncc_size y x) as (out & Hrun & Hat);
    try done.
  exists out. split; [done|]. rewrite Hat, decide_False by done.
  unfold np_zeros1. simpl. rewrite ncc_center_zeros, ncc_unit_zeros.
  do 2 f_equal. pose proof (odd_size ncc_size Hpos Hodd). lia.
Qed.

Lemma preprocess_ncc_border_zero_witness :
  ∃ out, preprocess_ncc_impl [[[5]]] 3 = Some out ∧
    at2 out 0 0 = Some (replicate (1 * Z.to_nat 3 * Z.to_nat 3) 0).
Proof.
  apply (preprocess_ncc_border_zero [[[5]]] 1 1 1 3 0 0).
  - split; [reflexivity|]. repeat constructor.
  - lia.
  - reflexivity.
  - lia.
  - lia.
  - unfold window_inside. change (Z.to_nat (3 `div` 2)) with 1%nat. lia.
Defined.

(** C10: the components of every feature vector sum to zero, in exact
    arithmetic, for every rectangular image and odd patch size. *)
Theorem preprocess_ncc_sum_zero (image : list (list (list R)))
    (h w c : nat) (ncc_size : Z) :
  shaped3 h w c image → (0 < ncc_size)%Z → Z.odd ncc_size = true →
  ∃ out, preprocess_ncc_impl image ncc_size = Some out ∧
    ∀ y x v, at2 out y x = Some v → np_sum v = 0.
Proof.
  intros Himg Hpos Hodd.
  rewrite (odd_size ncc_size Hpos Hodd).
  rewrite (preprocess_ncc_odd image h w c _ Himg).
  eexists. split; [done|]. intros y x v. rewrite at2_map2d.
  destruct (at2 _ y x) as [cell|]; simpl; [|done].
  intros [= <-]. apply ncc_unit_sum, ncc_center_sum.
Qed.

Lemma preprocess_ncc_sum_zero_witness :
  ∃ out, preprocess_ncc_impl [[[5; 7]]] 1 = Some out ∧
    ∀ y x v, at2 out y x = Some v → np_sum v = 0.
Proof.
  apply (preprocess_ncc_sum_zero [[[5; 7]]] 1 1 2 1).
  - split; [reflexivity|]. repeat constructor.
  - lia.
  - reflexivity.
Defined.

(** C2: at a pixel whose window lies inside the image the result is the
    flattened patch (all channels, [c * ncc_size^2] samples), minus the
    mean of that whole vector, divided by the L2 norm of the whole
    centred vector.  Where that norm is zero the centred vector is the
    zero vector and so is the result. *)
Theorem preprocess_ncc_whole_vector_mean (image : list (list (list R)))
    (h w c : nat) (ncc_size : Z) (y x : nat) :
  shaped3 h w c image → (0 < ncc_size)%Z → Z.odd ncc_size = true →
  window_inside h w (Z.to_nat (ncc_size `div` 2)) y x →
  let flat := patch_vector image c (Z.to_nat (ncc_size `div` 2)) y x in
  let mean := np_sum flat / IZR (Z.of_nat (length flat)) in
  let centred := (λ a, a - mean) <$> flat in
  let norm := sqrt (np_sum ((λ a, a * a) <$> centred)) in
  length flat = (c * Z.to_nat ncc_size * Z.to_nat ncc_size)%nat ∧
  ∃ out, preprocess_ncc_impl image ncc_size = Some out ∧
    at2 out y x = Some ((λ a, a / norm) <$> centred) ∧
    (norm = 0 → at2 out y x = Some (replicate (length flat) 0)).
Proof.
  intros Himg Hpos Hodd Hin flat mean centred norm.
  assert (Hyx : (y < h)%nat ∧ (x < w)%nat) by (unfold window_inside in Hin; lia).
  destruct Hyx as [Hy Hx].
  split.
  { unfold flat. rewrite length_patch_vector.
    pose proof (odd_size ncc_size Hpos Hodd). lia. }
  destruct (preprocess_ncc_at image h w c ncc_size y x) as (out & Hrun & Hat);
    try done.
  exists out. split; [done|].
  rewrite decide_True in Hat by done. fold flat in Hat.
  change (ncc_center flat) with centred in Hat.
  change (np_norm centred) with norm in (value of norm).
  assert (Hunit : ncc_unit centred = (λ a, a / norm) <$> centred).
  { unfold ncc_unit. change (np_norm centred) with norm.
    rewrite seqb_R. case_bool_decide as Hz; [|done].
    apply np_norm_zero in Hz. fold norm.
    apply list_fmap_ext. intros i a Ha.
    rewrite (Forall_lookup_1 _ _ _ _ Hz Ha). simpl. unfold Rdiv. lra. }
  split; [by rewrite Hat, Hunit|].
  intros Hz. rewrite Hat, Hunit. f_equal.
  apply np_norm_zero in Hz.
  rewrite (Forall_zero_replicate _ Hz) at 1.
  rewrite fmap_replicate. unfold centred. rewrite length_fmap.
  f_equal. unfold Rdiv. lra.
Qed.

Lemma preprocess_ncc_whole_vector_mean_witness :
  let flat := patch_vector [[[1; 3]]] 2 (Z.to_nat (1 `div` 2)) 0 0 in
  let mean := np_sum flat / IZR (Z.of_nat (length flat)) in
  let centred := (λ a, a - mean) <$> flat in
  let norm := sqrt (np_sum ((λ a, a * a) <$> centred)) in
  length flat = (2 * Z.to_nat 1 * Z.to_nat 1)%nat ∧
  ∃ out, preprocess_ncc_impl [[[1; 3]]] 1 = Some out ∧
    at2 out 0 0 = Some ((λ a, a / norm) <$> centred) ∧
    (norm = 0 → at2 out 0 0 = Some (replicate (length flat) 0)).
Proof.
  apply (preprocess_ncc_whole_vector_mean [[[1; 3]]] 1 1 2 1 0 0).
  - split; [reflexivity|]. repeat constructor.
  - lia.
  - reflexivity.
  - unfold window_inside. change (Z.to_nat (1 `div` 2)) with 0%nat. lia.
Defined.

(** The mean is not taken per channel: on a single pixel with patch size
    one a per-channel mean would cancel every sample, whereas the kernel
    returns a unit vector. *)
Lemma preprocess_ncc_not_per_channel :
  ∃ out, preprocess_ncc_impl [[[1; 3]]] 1 = Some out ∧
    at2 out 0 0 = Some [-1 / sqrt 2; 1 / sqrt 2].
Proof.
  destruct (preprocess_ncc_at [[[1; 3]]] 1 1 2 1 0 0) as (out & Hrun & Hat).
  { split; [reflexivity|]. repeat constructor. }
  { lia. } { reflexivity. } { lia. } { lia. }
  exists out. split; [done|]. rewrite Hat.
  change (Z.to_nat (1 `div` 2)) with 0%nat.
  rewrite decide_True by (unfold window_inside; lia).
  unfold patch_vector. simpl.
  unfold ncc_center, np_mean, np_sum. simpl.
  change (Z.of_nat 2) with 2%Z.
  replace (1 - (0 + 1 + 3) / 2) with (-1) by lra.
  replace (3 - (0 + 1 + 3) / 2) with 1 by lra.
  unfold ncc_unit, np_norm, np_sum. simpl.
  replace (0 + -1 * -1 + 1 * 1) with 2 by lra.
  assert (0 < sqrt 2) by (apply sqrt_lt_R0; lra).
  rewrite bool_decide_false by lra. done.
Qed.

(** C1, on the code: a patch whose centred vector has norm
    [sqrt 2e-14 < 1e-6] is not zeroed; the kernel only guards an exactly
    zero norm and returns the unit vector. *)
Lemma preprocess_ncc_small_norm_kept :
  let image := [[[0; 2e-7]]] in
  let n := sqrt 2e-14 in
  ∃ centred out,
    ncc_centered image 1 = Some centred ∧
    at2 centred 0 0 = Some [-1e-7; 1e-7] ∧
    np_norm [-1e-7; 1e-7] = n ∧ 0 < n < 1e-6 ∧
    preprocess_ncc_impl image 1 = Some out ∧
    at2 out 0 0 = Some [-1e-7 / n; 1e-7 / n] ∧
    at2 out 0 0 ≠ Some [0; 0].
Proof.
  intros image n.
  assert (Himg : shaped3 1 1 2 image).
  { split; [reflexivity|]. repeat constructor. }
  assert (Hn : np_norm [-1e-7; 1e-7] = n).
  { unfold np_norm, np_sum. simpl. unfold n. f_equal. lra. }
  assert (Hn0 : 0 < n) by (apply sqrt_lt_R0; lra).
  assert (Hn1 : n < 1e-6).
  { replace 1e-6 with (sqrt (1e-6 * 1e-6)) by (apply sqrt_square; lra).
    apply sqrt_lt_1_alt. lra. }
  assert (Hpatch : at2 (ncc_filled image 0) 0%nat 0%nat = Some [0; 2e-7]).
  { rewrite (ncc_filled_at image 1 1 2 0 0 0 Himg) by lia.
    by rewrite decide_True by (unfold window_inside; lia). }
  assert (Hcen : ncc_center [0; 2e-7] = [-1e-7; 1e-7]).
  { unfold ncc_center, np_mean, np_sum. simpl.
    change (Z.of_nat 2) with 2%Z. f_equal; [lra|]. f_equal. lra. }
  eexists _, _. split.
  { apply (ncc_centered_odd image 1 1 2 0 Himg). }
  split. { by rewrite at2_map2d, Hpatch; simpl; rewrite Hcen. }
  split; [done|]. split; [done|]. split.
  { apply (preprocess_ncc_odd image 1 1 2 0 Himg). }
  assert (Hout : at2 (map2d (λ v, ncc_unit (ncc_center v)) (ncc_filled image 0))
                   0%nat 0%nat = Some [-1e-7 / n; 1e-7 / n]).
  { rewrite at2_map2d, Hpatch. simpl. rewrite Hcen.
    unfold ncc_unit. rewrite Hn. simpl. by rewrite bool_decide_false by lra. }
  split; [done|]. rewrite Hout. intros [= H1 H2].
  assert (1e-7 / n ≠ 0); [|done].
  apply Rgt_not_eq. apply Rdiv_lt_0_compat; lra.
Qed.
End NCCTheorems.

(** ** Reading pixels of mapped and zipped arrays *)

Lemma at2_Some {A : Type} (a : list (list A)) (y x : nat) (v : A) :
  at2 a y x = Some v ↔ ∃ row, a !! y = Some row ∧ row !! x = Some v.
Proof.
  unfold at2. destruct (a !! y) as [row|]; simpl.
  - split; [eauto|]. by intros (? & [= <-] & ?).
  - split; [done|]. by intros (? & ? & _).
Qed.

Lemma at2_zip2d {A B C : Type} (f : A → B → C) (a : list (list A))
    (b : list (list B)) (y x : nat) (c : C) :
  at2 (zip2d f a b) y x = Some c ↔
  ∃ u v, at2 a y x = Some u ∧ at2 b y x = Some v ∧ c = f u v.
Proof.
  rewrite at2_Some. unfold zip2d. split.
  - intros (row & Hrow & Hc).
    apply lookup_zip_with_Some in Hrow as (ra & rb & -> & Ha & Hb).
    apply lookup_zip_with_Some in Hc as (u & v & -> & Hu & Hv).
    exists u, v. rewrite !at2_Some. eauto 10.
  - intros (u & v & Hu & Hv & ->).
    apply at2_Some in Hu as (ra & Ha & Hu).
    apply at2_Some in Hv as (rb & Hb & Hv).
    exists (zip_with f ra rb). split; apply lookup_zip_with_Some; eauto 10.
Qed.

Lemma at2_mapM2 {A B : Type} (f : A → option B) (a : list (list A))
    (b : list (list B)) (y x : nat) (c : B) :
  mapM (mapM f) a = Some b → at2 b y x = Some c →
  ∃ u, at2 a y x = Some u ∧ f u = Some c.
Proof.
  intros Hm Hc. apply mapM_Some_1 in Hm.
  apply at2_Some in Hc as (rb & Hrb & Hc).
  destruct (Forall2_lookup_r _ _ _ _ _ Hm Hrb) as (ra & Hra & Hrow).
  apply mapM_Some_1 in Hrow.
  destruct (Forall2_lookup_r _ _ _ _ _ Hrow Hc) as (u & Hu & Hf).
  exists u. split; [|done]. apply at2_Some. eauto.
Qed.

Lemma zip2d_map2d_diag {A B C D : Type} (f : B → C → D) (g : A → B) (h : A → C)
    (a : list (list A)) :
  zip2d f (map2d g a) (map2d h a) = map2d (λ v, f (g v) (h v)) a.
Proof.
  unfold zip2d, map2d.
  rewrite zip_with_fmap_l, zip_with_fmap_r, zip_with_diag.
  apply list_fmap_ext. intros _ row _.
  by rewrite zip_with_fmap_l, zip_with_fmap_r, zip_with_diag.
Qed.

Lemma map2d_map2d {A B C : Type} (f : A → B) (g : B → C) (a : list (list A)) :
  map2d g (map2d f a) = map2d (g ∘ f) a.
Proof.
  unfold map2d. rewrite <- list_fmap_compose.
  apply list_fmap_ext. intros _ row _. simpl.
  by rewrite <- list_fmap_compose.
Qed.

Lemma map2d_id_eq {A : Type} (a : list (list A)) : map2d Datatypes.id a = a.
Proof.
  unfold map2d. rewrite <- (list_fmap_id a) at 2.
  apply list_fmap_ext. intros _ row _. apply list_fmap_id.
Qed.

(** A loop keeps what every iteration keeps. *)
Lemma for_in_invariant {S : Type} (P : S → Prop) (l : list nat)
    (body : nat → S → option S) (s s' : S) :
  P s → (∀ i s s', P s → body i s = Some s' → P s') →
  for_in l body s = Some s' → P s'.
Proof.
  intros Hs Hbody. revert s Hs.
  induction l as [|i l IH]; intros s Hs; simpl.
  - by intros [= <-].
  - destruct (body i s) as [s1|] eqn:Hb; simpl; [|done].
    apply IH. by eapply Hbody.
Qed.


(** ** Shapes of mapped and zipped arrays *)

Lemma shaped2_pixels {A : Type} (h w : nat) (a : list (list A)) :
  shaped2 h w a ↔ pixels h w (λ _, True) a.
Proof.
  unfold shaped2, pixels. split; intros [Hh Ha]; (split; [done|]);
    revert Ha; apply Forall_impl.
  - intros row ?. split; [done|]. by apply Forall_true.
  - by intros row [? _].
Qed.

Lemma pixels_map2d {A B : Type} (h w : nat) (P : A → Prop) (Q : B → Prop)
    (f : A → B) (a : list (list A)) :
  pixels h w P a → (∀ v, P v → Q (f v)) → pixels h w Q (map2d f a).
Proof.
  intros [Hh Ha] Hf. unfold map2d. split; [by rewrite length_fmap|].
  apply Forall_fmap. revert Ha. apply Forall_impl.
  intros row [Hw Hrow]. simpl. split; [by rewrite length_fmap|].
  apply Forall_fmap. revert Hrow. apply Forall_impl. intros v. apply Hf.
Qed.

Lemma Forall_zip_with_2 {A B C : Type} (P : A → Prop) (Q : B → Prop)
    (R : C → Prop) (f : A → B → C) (l : list A) (k : list B) :
  Forall P l → Forall Q k → (∀ u v, P u → Q v → R (f u v)) →
  Forall R (zip_with f l k).
Proof.
  intros Hl Hk Hf. apply Forall_lookup_2. intros i c Hc.
  apply lookup_zip_with_Some in Hc as (u & v & -> & Hu & Hv).
  apply Hf; eapply Forall_lookup_1; eauto.
Qed.

Lemma pixels_zip2d {A B C : Type} (h w : nat) (P : A → Prop) (Q : B → Prop)
    (R : C → Prop) (f : A → B → C) (a : list (list A)) (b : list (list B)) :
  pixels h w P a → pixels h w Q b → (∀ u v, P u → Q v → R (f u v)) →
  pixels h w R (zip2d f a b).
Proof.
  intros [Hha Ha] [Hhb Hb] Hf. unfold zip2d.
  split; [rewrite length_zip_with; lia|].
  eapply Forall_zip_with_2; [exact Ha|exact Hb|].
  intros ra rb [Hwa Hra] [Hwb Hrb]. simpl.
  split; [rewrite length_zip_with; lia|].
  by eapply Forall_zip_with_2.
Qed.

Lemma Forall_imap_2 {A B : Type} (P : A → Prop) (Q : B → Prop)
    (f : nat → A → B) (l : list A) :
  Forall P l → (∀ i v, P v → Q (f i v)) → Forall Q (imap f l).
Proof.
  intros Hl Hf. apply Forall_lookup_2. intros i c.
  rewrite list_lookup_imap.
  destruct (l !! i) as [v|] eqn:Hv; simpl; [|done].
  intros [= <-]. apply Hf. eapply Forall_lookup_1; eauto.
Qed.

Lemma pixels_imap2 {A B : Type} (h w : nat) (P : A → Prop) (Q : B → Prop)
    (f : nat → nat → A → B) (a : list (list A)) :
  pixels h w P a → (∀ y x v, P v → Q (f y x v)) →
  pixels h w Q (imap (λ y, imap (f y)) a).
Proof.
  intros [Hh Ha] Hf. split; [by rewrite length_imap|].
  eapply Forall_imap_2; [exact Ha|]. intros y row [Hw Hrow]. simpl.
  split; [by rewrite length_imap|].
  eapply Forall_imap_2; [exact Hrow|]. intros x v. apply Hf.
Qed.

Lemma mapM_total {A B : Type} (P : A → Prop) (f : A → option B) (g : A → B)
    (l : list A) :
  Forall P l → (∀ v, P v → f v = Some (g v)) → mapM f l = Some (g <$> l).
Proof.
  intros Hl Hf. apply mapM_Some_2. apply Forall2_fmap_r.
  apply Forall_Forall2_diag. revert Hl. apply Forall_impl. intros v. apply Hf.
Qed.

Lemma pixels_mapM2 {A B : Type} (h w : nat) (P : A → Prop)
    (f : A → option B) (g : A → B) (a : list (list A)) :
  pixels h w P a → (∀ v, P v → f v = Some (g v)) →
  mapM (mapM f) a = Some (map2d g a).
Proof.
  intros [_ Ha] Hf. unfold map2d.
  apply (mapM_total (λ row, length row = w ∧ Forall P row)); [done|].
  intros row [_ Hrow]. by apply (mapM_total P).
Qed.

Lemma pixels_dim1 {A : Type} (h w : nat) (P : A → Prop) (a : list (list A)) :
  pixels h w P a → dim1 a = (if decide (h = 0)%nat then 0 else w)%nat.
Proof.
  intros [Hh Ha]. destruct a as [|row a]; simpl in *.
  - by rewrite decide_True.
  - rewrite decide_False by lia. by destruct (Forall_inv Ha).
Qed.

(** A loop whose every iteration succeeds on states satisfying an
    invariant succeeds. *)
Lemma for_in_total {S : Type} (P : S → Prop) (l : list nat)
    (body : nat → S → option S) (s : S) :
  P s → (∀ i s, i ∈ l → P s → ∃ s', body i s = Some s' ∧ P s') →
  ∃ s', for_in l body s = Some s' ∧ P s'.
Proof.
  revert s. induction l as [|i l IH]; intros s Hs Hbody; simpl; [eauto|].
  destruct (Hbody i s) as (s1 & -> & Hs1); [left|done|]. simpl.
  apply IH; [done|]. intros j s2 Hj. apply Hbody. by right.
Qed.

(** ** [compute_photometric_stereo_impl]: pixel by pixel *)

Section StereoCells.
Context {F : Type} `{Scalar F}.

Lemma stereo_kd_cells (G : list (list (list F))) :
  stereo_kd G = map2d stereo_divisor G.
Proof. unfold stereo_kd. by rewrite map2d_map2d. Qed.

Lemma stereo_normals_cells (G : list (list (list F))) :
  stereo_normals G = map2d stereo_normal_cell G.
Proof.
  unfold stereo_normals, mask_zero, bcast_last.
  rewrite stereo_kd_cells, map2d_map2d.
  rewrite <- (map2d_id_eq G) at 2.
  rewrite (zip2d_map2d_diag _ Datatypes.id stereo_divisor).
  rewrite zip2d_map2d_diag. done.
Qed.

Lemma length_stereo_normal_cell (g : list F) :
  length (stereo_normal_cell g) = length g.
Proof.
  unfold stereo_normal_cell. destruct (seqb _ _); by rewrite !length_fmap.
Qed.

Lemma np_linalg_inv_shape (m mi : list (list F)) :
  np_linalg_inv m = Some mi → shaped2 3 3 mi.
Proof.
  unfold np_linalg_inv.
  destruct m as [|[|a [|b [|c [|]]]] [|[|d [|e [|f [|]]]] [|[|g [|h [|i [|]]]] [|]]]];
    try done.
  case_match; [done|]. intros [= <-]. split; [done|]. repeat constructor.
Qed.

(** *** The kernel returns on well-shaped input *)

Lemma np_transpose_length (m : list (list F)) :
  length (np_transpose m) = dim1 m.
Proof. unfold np_transpose. by rewrite length_fmap, length_range. Qed.

Lemma np_transpose_shape (m : list (list F)) (r c : nat) :
  shaped2 r c m → (0 < r)%nat → shaped2 c r (np_transpose m).
Proof.
  intros Hm Hr. pose proof Hm as [Hl _].
  apply shaped2_pixels in Hm. apply pixels_dim1 in Hm as Hd.
  rewrite decide_False in Hd by lia.
  split; [by rewrite np_transpose_length|].
  unfold np_transpose. apply Forall_fmap, Forall_true. intros j. simpl.
  by rewrite length_fmap.
Qed.

Lemma np_vecmat_total (v : list F) (m : list (list F)) :
  length v = length m → np_vecmat v m = Some (np_dot v <$> np_transpose m).
Proof. intros Hv. unfold np_vecmat. by rewrite bool_decide_true. Qed.

Lemma np_matmul3_total (a : list (list (list F))) (m : list (list F))
    (h w r c : nat) :
  shaped3 h w r a → shaped2 r c m → (0 < r)%nat →
  np_matmul3 a m = Some (map2d (λ v, np_dot v <$> np_transpose m) a) ∧
  shaped3 h w c (map2d (λ v, np_dot v <$> np_transpose m) a).
Proof.
  intros Ha Hm Hr. pose proof Hm as [Hl _]. split.
  - unfold np_matmul3, np_matmul.
    apply (pixels_mapM2 h w (λ px, length px = r)); [done|].
    intros v Hv. apply np_vecmat_total. lia.
  - apply (pixels_map2d h w (λ px, length px = r)); [done|].
    intros v _. rewrite length_fmap, np_transpose_length.
    apply shaped2_pixels, pixels_dim1 in Hm. rewrite Hm.
    by rewrite decide_False by lia.
Qed.

Lemma np_dstack_total (planes : list (list (list F))) (h w n : nat) :
  length planes = n → (0 < n)%nat → Forall (shaped2 h w) planes →
  ∃ I, np_dstack planes = Some I ∧ shaped3 h w n I.
Proof.
  intros Hn Hpos Hp. unfold np_dstack.
  destruct planes as [|p0 planes']; [simpl in Hn; lia|].
  set (planes := p0 :: planes') in *.
  pose proof (Forall_inv Hp) as Hp0.
  rewrite bool_decide_true.
  2:{ revert Hp. apply Forall_impl. intros p Hpl.
      destruct Hpl as [Hl Hr], Hp0 as [Hl0 Hr0]. split; [lia|].
      rewrite (pixels_dim1 h w (λ _, True) p)
        by (by apply shaped2_pixels).
      by rewrite (pixels_dim1 h w (λ _, True) p0)
        by (by apply shaped2_pixels). }
  eexists. split; [done|].
  apply (pixels_imap2 h w (λ _, True)); [by apply shaped2_pixels|].
  intros y x v _. by rewrite length_fmap.
Qed.

Lemma same_shape3_shaped (a b : list (list (list F))) (h w c : nat) :
  shaped3 h w c a → shaped3 h w c b → same_shape3 a b.
Proof.
  intros [Hha Ha] [Hhb Hb]. unfold same_shape3.
  apply Forall2_same_length_lookup_2; [lia|].
  intros y ra rb Hra Hrb.
  destruct (Forall_lookup_1 _ _ _ _ Ha Hra) as [Hwa Hpa].
  destruct (Forall_lookup_1 _ _ _ _ Hb Hrb) as [Hwb Hpb].
  apply Forall2_same_length_lookup_2; [lia|].
  intros x u v Hu Hv.
  rewrite (Forall_lookup_1 _ _ _ _ Hpa Hu).
  by rewrite (Forall_lookup_1 _ _ _ _ Hpb Hv).
Qed.

Lemma shaped3_zeros_of (image : list (list (list F))) (h w c : nat) :
  shaped3 h w c image →
  shaped3 h w c (np_zeros3 (length image) (dim1 image) (dim2 image)).
Proof.
  intros Himg.
  destruct (decide (h = 0)%nat) as [->|Hh].
  { destruct Himg as [Hl _]. destruct image; [|done]. split; [done|constructor]. }
  destruct (decide (w = 0)%nat) as [->|Hw].
  { pose proof Himg as [Hl _].
    rewrite (pixels_dim1 h 0 _ image Himg), decide_False, Hl by done.
    split; [apply length_replicate|]. by apply Forall_replicate. }
  destruct (shaped3_dims h w c image Himg) as (-> & -> & ->); [lia..|].
  apply shaped3_zeros.
Qed.

Lemma stereo_G_total (lights : list (list F))
    (images : list (list (list (list F)))) (h w c n : nat) :
  length images = n → (0 < n)%nat → (0 < c)%nat →
  Forall (shaped3 h w c) images → shaped2 3 n lights →
  is_Some (np_matmul lights (np_transpose lights) ≫= np_linalg_inv) →
  ∃ G, stereo_G lights images = Some G ∧ shaped3 h w 3 G.
Proof.
  intros Hn Hpos Hc Himgs Hl [LLt_inv Hinv]. unfold stereo_G.
  rewrite (mapM_total (shaped3 h w c) _ (map2d (λ px : list F, px !!! 0%nat))).
  2:{ done. }
  2:{ intros image Himg.
      apply (pixels_mapM2 h w (λ px, length px = c)); [done|].
      intros px Hpx. apply list_lookup_lookup_total_lt. lia. }
  cbn [mbind option_bind].
  destruct (np_dstack_total (map2d (λ px : list F, px !!! 0%nat) <$> images) h w n)
    as (I & -> & HI).
  { by rewrite length_fmap. }
  { done. }
  { apply Forall_fmap. revert Himgs. apply Forall_impl. intros image Himg.
    simpl. apply shaped2_pixels.
    by apply (pixels_map2d h w (λ px, length px = c)). }
  cbn [mbind option_bind].
  pose proof (np_transpose_shape lights 3 n Hl) as HT.
  destruct (np_matmul3_total I (np_transpose lights) h w n 3 HI) as [-> HILt];
    [apply HT; lia|done|].
  cbn [mbind option_bind].
  apply bind_Some in Hinv as (LLt & -> & Hinv).
  cbn [mbind option_bind]. rewrite Hinv. cbn [mbind option_bind].
  apply np_linalg_inv_shape in Hinv.
  destruct (np_matmul3_total _ LLt_inv h w 3 3 HILt Hinv) as [-> HG]; [lia|].
  eauto.
Qed.

Lemma stereo_normals_shape (G : list (list (list F))) (h w : nat) :
  shaped3 h w 3 G → shaped3 h w 3 (stereo_normals G).
Proof.
  intros HG. rewrite stereo_normals_cells.
  apply (pixels_map2d h w (λ px, length px = 3%nat)); [done|].
  intros g Hg. by rewrite length_stereo_normal_cell.
Qed.

Lemma stereo_num_den_total (lights : list (list F))
    (images : list (list (list (list F)))) (normals : list (list (list F)))
    (h w c n : nat) :
  length images = n → (0 < n)%nat →
  Forall (shaped3 h w c) images → shaped2 3 n lights →
  shaped3 h w 3 normals →
  ∃ num den, stereo_num_den lights images normals = Some (num, den) ∧
    shaped3 h w c num ∧ shaped3 h w c den.
Proof.
  intros Hn Hpos Himgs Hl Hnorm. unfold stereo_num_den.
  destruct (lookup_lt_is_Some_2 images 0) as [image0 Himg0]; [lia|].
  rewrite Himg0. cbn [mbind option_bind].
  pose proof (Forall_lookup_1 _ _ _ _ Himgs Himg0) as Hshape0.
  pose proof (shaped3_zeros_of image0 h w c Hshape0) as Hz.
  destruct (for_in_total
    (λ s : list (list (list F)) * list (list (list F)),
       shaped3 h w c s.1 ∧ shaped3 h w c s.2) (range (length images))
    (λ j '(num, den),
       currChannel ← images !! j;
       light ← mapM (λ row : list F, row !! j) lights;
       d ← mapM (λ row, np_matvec row light) normals;
       num ← np_iadd3 num (zip2d (λ s v, (λ a, smul s a) <$> v) d currChannel);
       let den := bcast_last sadd den (map2d (λ s, smul s s) d) in
       Some (num, den))
    (np_zeros3 (length image0) (dim1 image0) (dim2 image0),
     np_zeros3 (length image0) (dim1 image0) (dim2 image0)))
    as ([num den] & Hrun & Hnum & Hden); [done| |by eauto].
  intros j [num den] Hj [Hnum Hden]. simpl in Hnum, Hden.
  apply elem_of_range in Hj.
  destruct (lookup_lt_is_Some_2 images j) as [curr Hcurr]; [lia|].
  rewrite Hcurr. cbn [mbind option_bind].
  pose proof (Forall_lookup_1 _ _ _ _ Himgs Hcurr) as Hcs.
  destruct Hl as [Hl3 Hlrows].
  rewrite (mapM_total (λ row, length row = n) _ (λ row : list F, row !!! j));
    [|done|].
  2:{ intros row Hrow. apply list_lookup_lookup_total_lt. lia. }
  cbn [mbind option_bind].
  set (light := (λ row : list F, row !!! j) <$> lights).
  assert (Hlight : length light = 3%nat) by (unfold light; by rewrite length_fmap).
  rewrite (mapM_total (λ row, length row = w ∧ Forall (λ px : list F, length px = 3%nat) row)
             _ (fmap (λ nv, np_dot nv light))).
  2:{ by destruct Hnorm. }
  2:{ intros row [_ Hrow]. unfold np_matvec. rewrite bool_decide_true; [done|].
      revert Hrow. apply Forall_impl. intros px ->. done. }
  cbn [mbind option_bind].
  change (fmap (λ nv, np_dot nv light) <$> normals)
    with (map2d (λ nv, np_dot nv light) normals).
  set (d := map2d (λ nv, np_dot nv light) normals).
  assert (Hd : pixels h w (λ _ : F, True) d).
  { by apply (pixels_map2d h w (λ px, length px = 3%nat)). }
  assert (Hprod : shaped3 h w c
            (zip2d (λ s v, (λ a, smul s a) <$> v) d curr)).
  { apply (pixels_zip2d h w (λ _, True) (λ px, length px = c)); [done..|].
    intros s v _ Hv. by rewrite length_fmap. }
  unfold np_iadd3.
  rewrite bool_decide_true by (by eapply same_shape3_shaped).
  cbn [mbind option_bind]. eexists. split; [done|]. simpl. split.
  - apply (pixels_zip2d h w (λ px, length px = c) (λ px, length px = c));
      [done..|].
    intros u v Hu Hv. rewrite length_zip_with. lia.
  - unfold bcast_last.
    apply (pixels_zip2d h w (λ px, length px = c) (λ _, True)); [done| |].
    + by apply (pixels_map2d h w (λ _, True)).
    + intros v s Hv _. by rewrite length_fmap.
Qed.

(** On images of one shape, with at least one channel, and lights whose
    Gram matrix [np.linalg.inv] accepts, the kernel returns an albedo of
    the shape of the images and a normal per pixel. *)
Lemma compute_photometric_stereo_impl_total (junk : nat → nat → nat → F)
    (lights : list (list F)) (images : list (list (list (list F))))
    (h w c n : nat) :
  length images = n → (0 < n)%nat → (0 < c)%nat →
  Forall (shaped3 h w c) images → shaped2 3 n lights →
  is_Some (np_matmul lights (np_transpose lights) ≫= np_linalg_inv) →
  ∃ albedo normals,
    compute_photometric_stereo_impl junk lights images = Some (albedo, normals) ∧
    shaped3 h w c albedo ∧ shaped3 h w 3 normals.
Proof.
  intros Hn Hpos Hc Himgs Hl Hinv. unfold compute_photometric_stereo_impl.
  destruct (stereo_G_total lights images h w c n) as (G & -> & HG); try done.
  cbn [mbind option_bind].
  pose proof (stereo_normals_shape G h w HG) as Hnorm.
  destruct (stereo_num_den_total lights images (stereo_normals G) h w c n)
    as (num & den & -> & Hnum & Hden); try done.
  cbn [mbind option_bind]. eexists _, _. split; [done|].
  assert (Halb : shaped3 h w c (stereo_albedo junk num den)).
  { unfold stereo_albedo.
    apply (pixels_imap2 h w (λ px : list (F * F), length px = c)).
    - apply (pixels_zip2d h w (λ px, length px = c) (λ px, length px = c));
        [done| |].
      + unfold map3d. apply (pixels_map2d h w (λ px, length px = c)); [done|].
        intros v Hv. by rewrite length_fmap.
      + intros u v Hu Hv. rewrite length_zip_with. lia.
    - intros y x v Hv. by rewrite length_imap. }
  assert (Hmask : pixels h w (λ _ : bool, True)
            (map2d (λ a, sltb (np_norm a) lit_1e_7) (stereo_albedo junk num den))).
  { by apply (pixels_map2d h w (λ px, length px = c)). }
  split; unfold map3d, mask_zero.
  - apply (pixels_map2d h w (λ px, length px = c)).
    + apply (pixels_zip2d h w (λ _, True) (λ px, length px = c)); [done..|].
      intros b v _ Hv. destruct b; by rewrite ?length_fmap.
    + intros v Hv. by rewrite length_fmap.
  - apply (pixels_map2d h w (λ px, length px = 3%nat)).
    + apply (pixels_zip2d h w (λ _, True) (λ px, length px = 3%nat)); [done..|].
      intros b v _ Hv. destruct b; by rewrite ?length_fmap.
    + intros v Hv. by rewrite length_fmap.
Qed.
End StereoCells.

Section StereoTheorems.
Local Open Scope R_scope.

Lemma np_dot_zero_l (u v : list R) : Forall (λ a, a = 0) u → np_dot u v = 0.
Proof.
  intros Hu. revert v. induction Hu as [|a u -> _ IH]; intros v; [done|].
  destruct v as [|b v]; [done|]. unfold np_dot in *. simpl.
  rewrite np_sum_cons, IH. simpl. lra.
Qed.

Lemma Forall_zero_fmap_const {A : Type} (v : list A) :
  Forall (λ a : R, a = 0) ((λ _, 0) <$> v).
Proof. apply Forall_fmap, Forall_true. done. Qed.

(** A vector divided by its non-zero norm is a unit vector. *)
Lemma np_norm_unit (g : list R) :
  np_norm g ≠ 0 → np_norm ((λ a, a / np_norm g) <$> g) = 1.
Proof.
  intros Hk.
  set (S := np_sum ((λ a, a * a) <$> g)).
  assert (HS : 0 <= S) by apply np_sum_squares_nonneg.
  assert (Hk2 : np_norm g * np_norm g = S) by (apply sqrt_sqrt; done).
  set (k := np_norm g) in *.
  unfold np_norm. simpl. rewrite <- list_fmap_compose.
  assert (Hsum : np_sum (((λ x, x * x) ∘ (λ a, a / k)) <$> g) = S / (k * k)).
  { unfold S. clearbody k. clear -Hk.
    induction g as [|a g IH].
    - unfold np_sum. simpl. unfold Rdiv. lra.
    - rewrite !fmap_cons, !np_sum_cons, IH. simpl. field. done. }
  rewrite Hsum, Hk2. unfold Rdiv. rewrite Rinv_r; [apply sqrt_1|].
  intros HS0. rewrite HS0 in Hk2. apply Hk. nra.
Qed.

Lemma stereo_divisor_nonzero (g : list R) : stereo_divisor g ≠ 0.
Proof.
  unfold stereo_divisor. simpl. case_bool_decide; [|done].
  pose proof lit_1e_7_bounds. lra.
Qed.

Lemma stereo_divisor_zero_norm (g : list R) :
  np_norm g = 0 → stereo_divisor g = lit_1e_7.
Proof.
  intros Hg. unfold stereo_divisor. simpl. by rewrite bool_decide_true.
Qed.

Lemma stereo_normal_cell_zero_norm (g : list R) :
  np_norm g = 0 → Forall (λ a, a = 0) (stereo_normal_cell g).
Proof.
  intros Hg. unfold stereo_normal_cell.
  rewrite seqb_R, bool_decide_false by apply stereo_divisor_nonzero.
  apply np_norm_zero in Hg. apply Forall_fmap. revert Hg.
  apply Forall_impl. intros a ->. simpl. unfold Rdiv. lra.
Qed.

Lemma stereo_normal_cell_unit (g : list R) :
  np_norm g ≠ 0 → np_norm (stereo_normal_cell g) = 1.
Proof.
  intros Hg. unfold stereo_normal_cell.
  rewrite seqb_R, bool_decide_false by apply stereo_divisor_nonzero.
  unfold stereo_divisor. simpl. rewrite bool_decide_false by done.
  by apply np_norm_unit.
Qed.


Lemma at2_matvec_rows (normals : list (list (list R))) (light : list R)
    (d : list (list R)) (y x : nat) (s : R) :
  mapM (λ row, np_matvec row light) normals = Some d →
  at2 d y x = Some s →
  ∃ nv, at2 normals y x = Some nv ∧ s = np_dot nv light.
Proof.
  intros Hm Hs. apply mapM_Some_1 in Hm.
  apply at2_Some in Hs as (drow & Hdrow & Hs).
  destruct (Forall2_lookup_r _ _ _ _ _ Hm Hdrow) as (row & Hrow & Hmv).
  unfold np_matvec in Hmv. case_bool_decide; [|done].
  injection Hmv as <-.
  apply list_lookup_fmap_Some in Hs as (nv & -> & Hnv).
  exists nv. split; [|done]. apply at2_Some. eauto.
Qed.

Lemma at2_zeros_inv (h w c y x : nat) (v : list R) :
  at2 (np_zeros3 h w c) y x = Some v → v = replicate c 0.
Proof.
  intros Hv. apply at2_Some in Hv as (row & Hrow & Hv).
  apply lookup_replicate_1 in Hrow as [-> _].
  by apply lookup_replicate_1 in Hv as [-> _].
Qed.

(** Where the normal is the zero vector the accumulated numerator and
    denominator stay zero. *)
Lemma stereo_num_den_zero_normal (lights : list (list R))
    (images : list (list (list (list R)))) (normals num den : list (list (list R)))
    (y x : nat) (nv : list R) :
  stereo_num_den lights images normals = Some (num, den) →
  at2 normals y x = Some nv → Forall (λ a, a = 0) nv →
  (∀ v, at2 num y x = Some v → Forall (λ a, a = 0) v) ∧
  (∀ v, at2 den y x = Some v → Forall (λ a, a = 0) v).
Proof.
  intros Hrun Hnv Hzero. unfold stereo_num_den in Hrun.
  destruct (images !! 0%nat) as [image0|]; simpl in Hrun; [|done].
  revert Hrun.
  apply (for_in_invariant (λ s : list (list (list R)) * list (list (list R)),
    (∀ v, at2 s.1 y x = Some v → Forall (λ a, a = 0) v) ∧
    (∀ v, at2 s.2 y x = Some v → Forall (λ a, a = 0) v))).
  - simpl. split; intros v Hv; apply at2_zeros_inv in Hv as ->;
      by apply Forall_replicate.
  - intros j [num0 den0] [num1 den1] [Hnum Hden] Hbody. simpl in *.
    destruct (images !! j) as [curr|]; simpl in Hbody; [|done].
    destruct (mapM _ lights) as [light|]; simpl in Hbody; [|done].
    destruct (mapM _ normals) as [d|] eqn:Hd; simpl in Hbody; [|done].
    unfold np_iadd3 in Hbody. case_bool_decide; simpl in Hbody; [|done].
    injection Hbody as <- <-.
    assert (Hs : ∀ s, at2 d y x = Some s → s = 0).
    { intros s Hs.
      destruct (at2_matvec_rows _ _ _ _ _ _ Hd Hs) as (nv' & Hnv' & ->).
      rewrite Hnv in Hnv'. injection Hnv' as <-. by apply np_dot_zero_l. }
    split; intros v Hv.
    + apply at2_zip2d in Hv as (v0 & p & Hv0 & Hp & ->).
      apply at2_zip2d in Hp as (s & pv & Hsd & _ & ->).
      rewrite (Hs s Hsd). specialize (Hnum v0 Hv0).
      apply Forall_lookup_2. intros k e He.
      apply lookup_zip_with_Some in He as (n & q & -> & Hn & Hq).
      apply list_lookup_fmap_Some in Hq as (q0 & -> & _).
      rewrite (Forall_lookup_1 _ _ _ _ Hnum Hn). simpl. lra.
    + apply at2_zip2d in Hv as (v0 & s2 & Hv0 & Hs2 & ->).
      rewrite at2_map2d in Hs2.
      destruct (at2 d y x) as [s|] eqn:Hsd; simpl in Hs2; [|done].
      injection Hs2 as <-. rewrite (Hs s eq_refl).
      specialize (Hden v0 Hv0). apply Forall_fmap. revert Hden.
      apply Forall_impl. intros a ->. simpl. lra.
Qed.

(** The albedo of a pixel before the final mask, from its numerator and
    denominator. *)
Lemma stereo_albedo_at (junk : nat → nat → nat → R)
    (num den : list (list (list R))) (y x : nat) (a0 : list R) :
  at2 (stereo_albedo junk num den) y x = Some a0 →
  ∃ nvec dvec, at2 num y x = Some nvec ∧ at2 den y x = Some dvec ∧
    a0 = imap (λ k '(n, d), if sltb 0 d then n / d else junk y x k)
           (zip nvec ((λ d, if seqb d 0 then 1 else d) <$> dvec)).
Proof.
  unfold stereo_albedo. rewrite at2_imap2. intros Ha.
  destruct (at2 (zip2d zip _ _) y x) as [zs|] eqn:Hz; simpl in Ha; [|done].
  injection Ha as <-.
  apply at2_zip2d in Hz as (nvec & dvec' & Hn & Hd & ->).
  unfold map3d in Hd. rewrite at2_map2d in Hd.
  destruct (at2 den y x) as [dvec|]; simpl in Hd; [|done].
  injection Hd as <-. by exists nvec, dvec.
Qed.

Lemma stereo_albedo_zero (junk : nat → nat → nat → R)
    (num den : list (list (list R))) (y x : nat) (a0 : list R) :
  (∀ v, at2 num y x = Some v → Forall (λ a, a = 0) v) →
  (∀ v, at2 den y x = Some v → Forall (λ a, a = 0) v) →
  at2 (stereo_albedo junk num den) y x = Some a0 →
  Forall (λ a, a = 0) a0.
Proof.
  intros Hnum Hden Ha.
  apply stereo_albedo_at in Ha as (nvec & dvec & Hn & Hd & ->).
  specialize (Hnum _ Hn). specialize (Hden _ Hd).
  apply Forall_lookup_2. intros k e. rewrite list_lookup_imap.
  destruct (zip _ _ !! k) as [[n d]|] eqn:Hz; simpl; [|done].
  intros [= <-].
  apply lookup_zip_Some in Hz as [Hnk Hdk].
  apply list_lookup_fmap_Some in Hdk as (d0 & -> & Hd0).
  rewrite (Forall_lookup_1 _ _ _ _ Hnum Hnk), (Forall_lookup_1 _ _ _ _ Hden Hd0).
  simpl. rewrite (bool_decide_true (0 = 0)) by done.
  rewrite bool_decide_true by lra. lra.
Qed.

(** Every vector of [G] has three components. *)
Lemma stereo_G_pixel (lights : list (list R))
    (images : list (list (list (list R)))) (G : list (list (list R)))
    (y x : nat) (g : list R) :
  stereo_G lights images = Some G → at2 G y x = Some g → length g = 3%nat.
Proof.
  unfold stereo_G. intros HG Hg.
  destruct (mapM _ images) as [planes|]; simpl in HG; [|done].
  destruct (np_dstack planes) as [I|]; simpl in HG; [|done].
  destruct (np_matmul3 I _) as [ILt|]; simpl in HG; [|done].
  destruct (np_matmul lights _) as [LLt|]; simpl in HG; [|done].
  destruct (np_linalg_inv LLt) as [LLt_inv|] eqn:Hinv; simpl in HG; [|done].
  apply np_linalg_inv_shape in Hinv.
  destruct (shaped2_3_3 _ Hinv) as (a & b & c & d & e & f & g' & h & i & ->).
  unfold np_matmul3, np_matmul in HG.
  destruct (at2_mapM2 _ _ _ _ _ _ HG Hg) as (v & _ & Hv).
  unfold np_vecmat in Hv. case_bool_decide; [|done]. by injection Hv as <-.
Qed.

Lemma Forall_zero_3 (v : list R) :
  length v = 3%nat → Forall (λ a, a = 0) v → v = [0; 0; 0].
Proof. intros Hl Hv. by rewrite (Forall_zero_replicate v Hv), Hl. Qed.

Lemma stereo_run_inv (junk : nat → nat → nat → R) (lights : list (list R))
    (images : list (list (list (list R))))
    (albedo normals : list (list (list R))) :
  compute_photometric_stereo_impl junk lights images = Some (albedo, normals) →
  ∃ G num den,
    stereo_G lights images = Some G ∧
    stereo_num_den lights images (stereo_normals G) = Some (num, den) ∧
    stereo_albedo_unmasked junk lights images
    = Some (stereo_albedo junk num den) ∧
    let mask := map2d (λ a, sltb (np_norm a) lit_1e_7)
                  (stereo_albedo junk num den) in
    albedo = map3d cast32 (mask_zero mask (stereo_albedo junk num den)) ∧
    normals = map3d cast32 (mask_zero mask (stereo_normals G)).
Proof.
  unfold compute_photometric_stereo_impl, stereo_albedo_unmasked. intros Hrun.
  apply bind_Some in Hrun as (G & HG & Hrun).
  apply bind_Some in Hrun as ([num den] & Hnd & Hrun).
  injection Hrun as <- <-.
  exists G, num, den. rewrite HG. cbn [mbind option_bind]. rewrite Hnd.
  done.
Qed.

Lemma cast32_R_id (a : list (list (list R))) : map3d cast32 a = a.
Proof.
  unfold map3d. rewrite <- (map2d_id_eq a) at 2. unfold map2d.
  apply list_fmap_ext. intros _ row _.
  apply list_fmap_ext. intros _ v _. apply list_fmap_id.
Qed.

(** The pixels of the two results, from the arrays before the final
    mask. *)
Lemma stereo_results_at (junk : nat → nat → nat → R) (lights : list (list R))
    (images : list (list (list (list R))))
    (albedo normals : list (list (list R))) (y x : nat) (a nv : list R) :
  compute_photometric_stereo_impl junk lights images = Some (albedo, normals) →
  at2 albedo y x = Some a → at2 normals y x = Some nv →
  ∃ G alb0 g a0,
    stereo_G lights images = Some G ∧
    stereo_albedo_unmasked junk lights images = Some alb0 ∧
    at2 G y x = Some g ∧ at2 alb0 y x = Some a0 ∧ length g = 3%nat ∧
    (np_norm g = 0 → Forall (λ e, e = 0) a0) ∧
    a = (if bool_decide (np_norm a0 < lit_1e_7) then (λ _, 0) <$> a0 else a0) ∧
    nv = (if bool_decide (np_norm a0 < lit_1e_7)
          then (λ _, 0) <$> stereo_normal_cell g else stereo_normal_cell g).
Proof.
  intros Hrun Ha Hnv.
  destruct (stereo_run_inv _ _ _ _ _ Hrun)
    as (G & num & den & HG & Hnd & Halb & Hal & Hno).
  rewrite cast32_R_id in Hal, Hno. subst albedo normals.
  apply at2_zip2d in Ha as (b & a0 & Hb & Ha0 & ->).
  apply at2_zip2d in Hnv as (b' & n0 & Hb' & Hn0 & ->).
  rewrite Hb in Hb'. injection Hb' as <-.
  rewrite at2_map2d, Ha0 in Hb. injection Hb as <-.
  rewrite stereo_normals_cells in Hn0. rewrite at2_map2d in Hn0.
  destruct (at2 G y x) as [g|] eqn:Hg; [|done].
  injection Hn0 as <-.
  exists G, (stereo_albedo junk num den), g, a0.
  repeat split; try done.
  - by eapply stereo_G_pixel.
  - intros Hz.
    destruct (stereo_num_den_zero_normal lights images (stereo_normals G)
                num den y x (stereo_normal_cell g) Hnd) as [Hnum Hden].
    { by rewrite stereo_normals_cells, at2_map2d, Hg. }
    { by apply stereo_normal_cell_zero_norm. }
    exact (stereo_albedo_zero junk num den y x a0 Hnum Hden Ha0).
Qed.

(** In exact arithmetic: where the returned albedo is not zero the
    returned normal has unit length, and where the norm of the albedo
    across its channels is below the constant [1e-7] of line 59, both
    the returned albedo and the returned normal are exactly zero. *)
Lemma photometric_stereo_unit_or_zero_exact (junk : nat → nat → nat → R)
    (lights : list (list R)) (images : list (list (list (list R))))
    (albedo normals : list (list (list R))) :
  compute_photometric_stereo_impl junk lights images = Some (albedo, normals) →
  ∃ alb0, stereo_albedo_unmasked junk lights images = Some alb0 ∧
  ∀ y x a nv, at2 albedo y x = Some a → at2 normals y x = Some nv →
    (a ≠ replicate (length a) 0 → np_norm nv = 1) ∧
    (∀ a0, at2 alb0 y x = Some a0 → np_norm a0 < lit_1e_7 →
       a = replicate (length a) 0 ∧ nv = [0; 0; 0]) ∧
    (np_norm a < lit_1e_7 → a = replicate (length a) 0 ∧ nv = [0; 0; 0]).
Proof.
  intros Hrun.
  destruct (stereo_run_inv _ _ _ _ _ Hrun)
    as (_ & num & den & _ & _ & Halb & _).
  eexists. split; [exact Halb|].
  intros y x a nv Ha Hnv.
  destruct (stereo_results_at junk lights images albedo normals y x a nv)
    as (G & alb0' & g & a0 & HG & Halb' & Hg & Ha0 & Hlen & Hzero & -> & ->);
    try done.
  rewrite Halb in Halb'. injection Halb' as <-.
  assert (Hmasked : np_norm a0 < lit_1e_7 →
    (λ _ : R, 0) <$> a0 = replicate (length ((λ _ : R, 0) <$> a0)) 0 ∧
    (λ _ : R, 0) <$> stereo_normal_cell g = [0; 0; 0]).
  { intros _. split.
    - apply Forall_zero_replicate, Forall_zero_fmap_const.
    - apply Forall_zero_3; [|apply Forall_zero_fmap_const].
      by rewrite length_fmap, length_stereo_normal_cell. }
  split; [|split].
  - case_bool_decide as Hmask.
    { intros Hne. destruct Hne. by apply Hmasked. }
    intros Hne.
    destruct (decide (np_norm g = 0)) as [Hz|Hnz].
    { destruct Hne. by apply Forall_zero_replicate, Hzero. }
    apply (stereo_normal_cell_unit g Hnz).
  - intros a0' Ha0' Hsmall. rewrite Ha0 in Ha0'. injection Ha0' as <-.
    rewrite bool_decide_true by done. by apply Hmasked.
  - case_bool_decide as Hmask; [intros _; by apply Hmasked|].
    intros Hsmall. lra.
Qed.

(** Three images of one pixel under the three axis-aligned lights. *)
Lemma stereo_example_accepted :
  ∃ albedo normals,
    compute_photometric_stereo_impl (λ _ _ _, 0) identity3
      [[[[1]]]; [[[2]]]; [[[2]]]] = Some (albedo, normals) ∧
    shaped3 1 1 1 albedo ∧ shaped3 1 1 3 normals.
Proof.
  apply (compute_photometric_stereo_impl_total _ _ _ 1 1 1 3).
  - reflexivity.
  - lia.
  - lia.
  - repeat constructor.
  - split; [reflexivity|]. repeat constructor.
  - unfold identity3, np_matmul, np_vecmat, np_transpose. simpl.
    unfold np_linalg_inv.
    rewrite bool_decide_false by (unfold np_dot, np_sum; simpl; lra).
    by eexists.
Qed.

(** C9: the divisor of line 44 is never zero; where [kd = ||G||] is
    zero it is the constant [1e-7] of line 43, and the returned normal
    there is the zero vector. *)
Theorem photometric_stereo_zero_kd (junk : nat → nat → nat → R)
    (lights : list (list R)) (images : list (list (list (list R))))
    (albedo normals : list (list (list R))) :
  compute_photometric_stereo_impl junk lights images = Some (albedo, normals) →
  ∃ G, stereo_G lights images = Some G ∧
  ∀ y x g nv, at2 G y x = Some g → at2 normals y x = Some nv →
    ∃ k, at2 (stereo_kd G) y x = Some k ∧ k ≠ 0 ∧
      (np_norm g = 0 → k = lit_1e_7 ∧ nv = [0; 0; 0]).
Proof.
  intros Hrun.
  destruct (stereo_run_inv _ _ _ _ _ Hrun)
    as (G & num & den & HG & Hnd & _ & Hal & Hno).
  exists G. split; [done|].
  intros y x g nv Hg Hnv.
  exists (stereo_divisor g). split; [|split].
  - by rewrite stereo_kd_cells, at2_map2d, Hg.
  - apply stereo_divisor_nonzero.
  - intros Hz. split; [by apply stereo_divisor_zero_norm|].
    assert (Hal' : ∃ a, at2 albedo y x = Some a).
    { rewrite cast32_R_id in Hal, Hno. rewrite Hno in Hnv. rewrite Hal.
      apply at2_zip2d in Hnv as (b & n0 & Hb & _ & _).
      rewrite at2_map2d in Hb.
      destruct (at2 (stereo_albedo junk num den) y x) as [a0|] eqn:Ha0;
        [|done].
      eexists. apply at2_zip2d. eexists _, _.
      split; [|split; [exact Ha0|done]]. by rewrite at2_map2d, Ha0. }
    clear Hal Hno. destruct Hal' as [a Ha].
    destruct (stereo_results_at junk lights images albedo normals y x a nv)
      as (G' & alb0 & g' & a0 & HG' & _ & Hg' & _ & Hlen & _ & _ & ->);
      try done.
    rewrite HG in HG'. injection HG' as <-.
    rewrite Hg in Hg'. injection Hg' as <-.
    pose proof (stereo_normal_cell_zero_norm g Hz) as Hcell.
    case_bool_decide.
    + apply Forall_zero_3; [|apply Forall_zero_fmap_const].
      by rewrite length_fmap, length_stereo_normal_cell.
    + apply Forall_zero_3; [|done]. by rewrite length_stereo_normal_cell.
Qed.

Lemma photometric_stereo_zero_kd_witness :
  ∃ albedo normals,
    compute_photometric_stereo_impl (λ _ _ _, 0) identity3
      [[[[0]]]; [[[0]]]; [[[0]]]] = Some (albedo, normals) ∧
    ∃ G, stereo_G identity3 [[[[0]]]; [[[0]]]; [[[0]]]] = Some G ∧
    ∀ y x g nv, at2 G y x = Some g → at2 normals y x = Some nv →
      ∃ k, at2 (stereo_kd G) y x = Some k ∧ k ≠ 0 ∧
        (np_norm g = 0 → k = lit_1e_7 ∧ nv = [0; 0; 0]).
Proof.
  destruct (compute_photometric_stereo_impl_total (λ _ _ _, 0) identity3
              [[[[0]]]; [[[0]]]; [[[0]]]] 1 1 1 3)
    as (albedo & normals & Hrun & _).
  - reflexivity.
  - lia.
  - lia.
  - repeat constructor.
  - split; [reflexivity|]. repeat constructor.
  - unfold identity3, np_matmul, np_vecmat, np_transpose. simpl.
    unfold np_linalg_inv.
    rewrite bool_decide_false by (unfold np_dot, np_sum; simpl; lra).
    by eexists.
  - exists albedo, normals. split; [exact Hrun|].
    exact (photometric_stereo_zero_kd _ _ _ _ _ Hrun).
Defined.
End StereoTheorems.

(** ** An underflow of [kd] in binary64 *)

Section StereoUnderflow.
Local Open Scope float_scope.

(** C3: in binary64 the returned albedo can be nonzero where the
    returned normal is the zero vector.  The lights are the three axes
    and the images hold one pixel of two channels, [(1e-170, 1e163)] in
    the first image and black in the other two.  Then
    [G = (1e-170, 0, 0)]; its squares underflow, so [kd] is 0 and line 43
    replaces it by [1e-7]; line 45 tests the replaced [kd] and zeroes
    nothing, so the normal stays [G / 1e-7 = (1e-163, 0, 0)]; the
    denominator of the albedo underflows to 0 and line 56 replaces it by
    1; the albedo is [(0, 1)], of norm 1, which the mask of line 59
    keeps; and the cast to float32 takes the normal to [(0, 0, 0)]. *)
Theorem photometric_stereo_underflow :
  let lights := [[1; 0; 0]; [0; 1; 0]; [0; 0; 1]] in
  let images := [[[[0x1.3529ba7d19eafp-565; 0x1.63a432c8f5cd6p+541]]];
                 [[[0; 0]]]; [[[0; 0]]]] in
  let G := [[[0x1.3529ba7d19eafp-565; 0; 0]]] in
  stereo_G lights images = Some G ∧
  map2d np_norm G = [[0]] ∧
  stereo_kd G = [[lit_1e_7]] ∧
  stereo_normals G = [[[0x1.708d0f84d3de8p-542; 0; 0]]] ∧
  ∀ junk,
    stereo_albedo_unmasked junk lights images = Some [[[0; 1]]] ∧
    compute_photometric_stereo_impl junk lights images
    = Some ([[[0; 1]]], [[[0; 0; 0]]]).
Proof.
  repeat split; try (vm_compute; reflexivity).
  all: intros junk; vm_compute; reflexivity.
Qed.
End StereoUnderflow.

(** ** Mirror boundary handling *)

Lemma mirror_unique (p len k q : Z) :
  (2 ≤ len)%Z → (p = 2 * (len - 1) * k + q)%Z → (0 ≤ q < 2 * (len - 1))%Z →
  mirror p len = if (q <? len)%Z then q else (2 * (len - 1) - q)%Z.
Proof.
  intros Hlen Hp Hq. unfold mirror.
  destruct (Z.eqb_spec len 1); [lia|]. simpl.
  replace (p `mod` (2 * (len - 1)))%Z with q; [done|].
  apply (Z.mod_unique_pos _ _ k); lia.
Qed.

Lemma mirror_decompose (p len : Z) :
  (2 ≤ len)%Z →
  ∃ k q, (p = 2 * (len - 1) * k + q)%Z ∧ (0 ≤ q < 2 * (len - 1))%Z.
Proof.
  intros Hlen. exists (p `div` (2 * (len - 1)))%Z, (p `mod` (2 * (len - 1)))%Z.
  split; [apply Z.div_mod; lia|]. apply Z.mod_pos_bound. lia.
Qed.

Lemma mirror_inside (p len : Z) : (0 ≤ p < len)%Z → mirror p len = p.
Proof.
  intros Hp. destruct (decide (len = 1%Z)) as [->|Hne].
  - unfold mirror. simpl. lia.
  - rewrite (mirror_unique p len 0 p) by lia.
    destruct (Z.ltb_spec p len); lia.
Qed.

Lemma mirror_range (p len : Z) : (0 < len)%Z → (0 ≤ mirror p len < len)%Z.
Proof.
  intros Hlen. destruct (decide (len = 1%Z)) as [->|Hne].
  - unfold mirror. simpl. lia.
  - destruct (mirror_decompose p len) as (k & q & Hp & Hq); [lia|].
    rewrite (mirror_unique p len k q) by lia.
    destruct (Z.ltb_spec q len); lia.
Qed.

Lemma mirror_opp (p len : Z) : (2 ≤ len)%Z → mirror (- p) len = mirror p len.
Proof.
  intros Hlen.
  destruct (mirror_decompose p len) as (k & q & Hp & Hq); [lia|].
  rewrite (mirror_unique p len k q) by lia.
  destruct (decide (q = 0%Z)) as [->|Hq0].
  - rewrite (mirror_unique (- p) len (- k) 0) by lia. done.
  - rewrite (mirror_unique (- p) len (- k - 1) (2 * (len - 1) - q)) by lia.
    destruct (Z.ltb_spec q len), (Z.ltb_spec (2 * (len - 1) - q) len); lia.
Qed.

Lemma mirror_reflect (p len : Z) :
  (2 ≤ len)%Z → mirror (2 * len - 2 - p) len = mirror p len.
Proof.
  intros Hlen.
  destruct (mirror_decompose p len) as (k & q & Hp & Hq); [lia|].
  rewrite (mirror_unique p len k q) by lia.
  destruct (decide (q = 0%Z)) as [->|Hq0].
  - rewrite (mirror_unique (2 * len - 2 - p) len (1 - k) 0) by lia. done.
  - rewrite (mirror_unique (2 * len - 2 - p) len (- k) (2 * (len - 1) - q))
      by lia.
    destruct (Z.ltb_spec q len), (Z.ltb_spec (2 * (len - 1) - q) len); lia.
Qed.

(** The reflection loop of the library terminates within its fuel and
    computes the mirrored index. *)
Lemma reflect101_loop_mirror (fuel : nat) (p len : Z) :
  (2 ≤ len)%Z → ¬ (0 ≤ p < len)%Z →
  ((if (p <? 0)%Z then 2 * (- p) + 1 else 2 * (p - len + 1)) ≤ Z.of_nat fuel)%Z →
  reflect101_loop fuel p len = mirror p len.
Proof.
  intros Hlen. revert p. induction fuel as [|fuel IH]; intros p Hout Hfuel.
  - destruct (Z.ltb_spec p 0); lia.
  - simpl. destruct (Z.ltb_spec p 0) as [Hneg|Hpos].
    + rewrite <- (mirror_opp p len) by lia.
      destruct (Z.leb_spec 0 (- p)), (Z.ltb_spec (- p) len); simpl;
        try lia.
      * apply symmetry, mirror_inside. lia.
      * apply IH; [lia|]. destruct (Z.ltb_spec (- p) 0); lia.
    + rewrite <- (mirror_reflect p len) by lia.
      destruct (Z.leb_spec 0 (2 * len - 2 - p)),
        (Z.ltb_spec (2 * len - 2 - p) len); simpl; try lia.
      * apply symmetry, mirror_inside. lia.
      * apply IH; [lia|]. destruct (Z.ltb_spec (2 * len - 2 - p) 0); lia.
Qed.

(** [BORDER_REFLECT_101] is mirror boundary handling. *)
Lemma borderInterpolate_mirror (p len : Z) :
  (0 < len)%Z → borderInterpolate p len = mirror p len.
Proof.
  intros Hlen. unfold borderInterpolate.
  destruct (Z.leb_spec 0 p), (Z.ltb_spec p len); simpl;
    try (symmetry; apply mirror_inside; lia).
  - destruct (Z.eqb_spec len 1) as [->|Hne]; [done|].
    apply reflect101_loop_mirror; [lia..|].
    destruct (Z.ltb_spec p 0); lia.
  - destruct (Z.eqb_spec len 1) as [->|Hne]; [done|].
    apply reflect101_loop_mirror; [lia..|].
    destruct (Z.ltb_spec p 0); lia.
  - lia.
Qed.

(** ** [cv2.filter2D] sample by sample *)

Section FilterCells.
Context {F : Type} `{Scalar F}.

Lemma lookup_total_imap {A B : Type} `{Inhabited B} (f : nat → A → B)
    (l : list A) (i : nat) (a : A) :
  l !! i = Some a → imap f l !!! i = f i a.
Proof.
  intros Ha. apply list_lookup_total_correct.
  by rewrite list_lookup_imap, Ha.
Qed.

(** One sample of the filtered image. *)
Lemma filter2D_pixels_at (src : list (list (list F))) (kernel : list (list F))
    (h w c y x k : nat) :
  shaped3 h w c src → (y < h)%nat → (x < w)%nat → (k < c)%nat →
  ((filter2D_pixels src kernel !!! y) !!! x) !!! k
  = np_sum (concat (imap (λ i, imap (λ j kv,
      smul kv
        (((src !!! Z.to_nat (borderInterpolate
              (Z.of_nat y + Z.of_nat i - Z.of_nat (length kernel) `div` 2)
              (Z.of_nat h)))
          !!! Z.to_nat (borderInterpolate
              (Z.of_nat x + Z.of_nat j - Z.of_nat (dim1 kernel) `div` 2)
              (Z.of_nat w)))
         !!! k))) kernel)).
Proof.
  intros Hsrc Hy Hx Hk.
  destruct (shaped3_dims h w c src Hsrc) as (Hh & Hw & _); [lia..|].
  destruct (shaped3_lookup h w c src y x Hsrc Hy Hx)
    as (row & px & Hrow & Hpx & _ & Hc).
  destruct (lookup_lt_is_Some_2 px k) as [v Hv]; [lia|].
  unfold filter2D_pixels. rewrite Hh, Hw.
  rewrite (lookup_total_imap _ _ _ _ Hrow).
  rewrite (lookup_total_imap _ _ _ _ Hpx).
  by rewrite (lookup_total_imap _ _ _ _ Hv).
Qed.

Lemma filter2D_pixels_shape (src : list (list (list F))) (kernel : list (list F))
    (h w c : nat) :
  shaped3 h w c src → shaped3 h w c (filter2D_pixels src kernel).
Proof.
  intros Hsrc. unfold filter2D_pixels.
  apply (pixels_imap2 h w (λ px, length px = c)); [done|].
  intros y x v Hv. by rewrite length_imap.
Qed.

(** *** Strides *)

Lemma stride2_lookup {A : Type} (l : list A) (i : nat) :
  stride2 l !! i = l !! (2 * i)%nat.
Proof.
  revert l. induction i as [|i IH]; intros l.
  - by destruct l.
  - destruct l as [|a [|b l]]; [done..|]. simpl.
    replace (i + S (i + 0))%nat with (S (2 * i)) by lia. apply IH.
Qed.

Lemma length_stride2 {A : Type} (l : list A) :
  length (stride2 l) = ((length l + 1) `div` 2)%nat.
Proof.
  assert (Hgen : ∀ n (l : list A), (length l ≤ n)%nat →
            length (stride2 l) = ((length l + 1) `div` 2)%nat).
  { induction n as [|n IH]; intros k Hk.
    - destruct k; [reflexivity|simpl in Hk; lia].
    - destruct k as [|a [|b k]]; [reflexivity..|]. cbn [stride2 length].
      rewrite IH by (simpl in Hk; lia).
      replace (S (S (length k)) + 1)%nat with (length k + 1 + 1 * 2)%nat by lia.
      rewrite Nat.div_add by lia. lia. }
  by apply (Hgen (length l)).
Qed.

Lemma stride2_fmap {A B : Type} (f : A → B) (l : list A) :
  stride2 (f <$> l) = f <$> stride2 l.
Proof.
  apply list_eq. intros i.
  by rewrite stride2_lookup, !list_lookup_fmap, stride2_lookup.
Qed.

Lemma stride2_2d_map2d {A B : Type} (f : A → B) (a : list (list A)) :
  stride2_2d (map2d f a) = map2d f (stride2_2d a).
Proof.
  unfold stride2_2d, map2d. rewrite <- !stride2_fmap. f_equal.
  rewrite <- !list_fmap_compose. apply list_fmap_ext. intros _ row _.
  simpl. apply stride2_fmap.
Qed.

Lemma stride2_2d_shape {A : Type} (h w : nat) (P : A → Prop)
    (a : list (list A)) :
  pixels h w P a →
  pixels ((h + 1) `div` 2) ((w + 1) `div` 2) P (stride2_2d a).
Proof.
  intros [Hh Ha]. unfold stride2_2d. split.
  - by rewrite length_stride2, length_fmap, Hh.
  - apply Forall_lookup_2. intros i row. rewrite stride2_lookup.
    rewrite list_lookup_fmap.
    destruct (a !! (2 * i)%nat) as [r|] eqn:Hr; simpl; [|done].
    intros [= <-]. destruct (Forall_lookup_1 _ _ _ _ Ha Hr) as [Hw HP].
    split; [by rewrite length_stride2, Hw|].
    apply Forall_lookup_2. intros j v. rewrite stride2_lookup.
    apply (Forall_lookup_1 _ _ _ _ HP).
Qed.

Lemma stride2_2d_at {A : Type} `{Inhabited A} (a : list (list A)) (i j : nat) :
  (stride2_2d a !!! i) !!! j = (a !!! (2 * i)%nat) !!! (2 * j)%nat.
Proof.
  unfold stride2_2d.
  rewrite !list_lookup_total_alt, stride2_lookup, list_lookup_fmap.
  destruct (a !! (2 * i)%nat) as [r|]; simpl.
  - by rewrite stride2_lookup.
  - done.
Qed.

(** *** The channel axis *)

Lemma restore_single_channel (a : list (list (list F))) (h w : nat) :
  shaped3 h w 1 a →
  map2d (λ v, [v]) (map2d (λ px : list F, px !!! 0%nat) a) = a.
Proof.
  intros [_ Ha]. rewrite map2d_map2d. rewrite <- (map2d_id_eq a) at 2.
  unfold map2d. apply Forall_fmap_ext_1. revert Ha. apply Forall_impl.
  intros row [_ Hrow]. apply Forall_fmap_ext_1. revert Hrow.
  apply Forall_impl. intros px Hpx. simpl.
  by destruct px as [|v [|]].
Qed.

Lemma cv2_filter2D_Nd3 (src : list (list (list F))) (kernel : list (list F))
    (h w c : nat) :
  shaped3 h w c src → (0 < h)%nat → (0 < w)%nat → (0 < c)%nat →
  ∃ dst, cv2_filter2D (Nd3 src) kernel = Some dst ∧
    restore_channel_axis dst = Nd3 (filter2D_pixels src kernel) ∧
    (∀ kernel', cv2_filter2D dst kernel'
       = cv2_filter2D (Nd3 (filter2D_pixels src kernel)) kernel').
Proof.
  intros Hsrc Hh Hw Hc.
  destruct (shaped3_dims h w c src Hsrc) as (Hl & Hd1 & Hd2); [lia..|].
  unfold cv2_filter2D at 1. rewrite Hl, Hd1, Hd2.
  rewrite bool_decide_false by lia.
  pose proof (filter2D_pixels_shape src kernel h w c Hsrc) as Hdst.
  eexists. split; [done|].
  case_bool_decide as Hc1; [|done]. rewrite Hc1 in Hdst. simpl.
  rewrite (restore_single_channel _ h w Hdst). split; [done|].
  intros kernel'. unfold cv2_filter2D.
  by rewrite (restore_single_channel _ h w Hdst).
Qed.

(** *** The two kernels without the Python binding *)

Lemma pyrdown_impl_pixels (image : list (list (list F))) (h w c : nat) :
  shaped3 h w c image → (0 < h)%nat → (0 < w)%nat → (0 < c)%nat →
  let K_col := (λ k, [sdiv (sofZ k) (sofZ 16)]) <$> [1; 4; 6; 4; 1]%Z in
  pyrdown_impl (Nd3 image)
  = Some (Nd3 (stride2_2d
        (filter2D_pixels (filter2D_pixels image K_col) (np_transpose K_col)))).
Proof.
  intros Himg Hh Hw Hc K_col. unfold pyrdown_impl.
  rewrite <- list_fmap_compose. change (_ <$> [1; 4; 6; 4; 1]%Z) with K_col.
  destruct (cv2_filter2D_Nd3 image K_col h w c) as (dst1 & -> & _ & Hnext);
    try done.
  cbn [mbind option_bind]. rewrite Hnext.
  destruct (cv2_filter2D_Nd3 (filter2D_pixels image K_col) (np_transpose K_col)
              h w c) as (dst2 & -> & Hr & _); try done.
  { by apply filter2D_pixels_shape. }
  cbn [mbind option_bind]. f_equal.
  destruct dst2 as [a|a]; simpl in *.
  - injection Hr as <-. by rewrite stride2_2d_map2d.
  - by injection Hr as <-.
Qed.

Lemma zero_stuffed_shape (image : list (list (list F))) (h w c : nat) :
  shaped3 h w c image → (0 < h)%nat → (0 < w)%nat →
  shaped3 (2 * h) (2 * w) c (zero_stuffed image h w).
Proof.
  intros Himg Hh Hw.
  destruct (shaped3_dims h w c image Himg) as (_ & _ & Hc); [lia..|].
  unfold zero_stuffed. split; [by rewrite length_fmap, length_range|].
  apply Forall_fmap, Forall_lookup_2. intros i y Hy. simpl.
  split; [by rewrite length_fmap, length_range|].
  apply Forall_fmap, Forall_lookup_2. intros j x Hx. simpl.
  apply lookup_seq in Hy as [-> Hy]. apply lookup_seq in Hx as [-> Hx].
  destruct (Nat.even _ && Nat.even _).
  - destruct (shaped3_lookup h w c image (i `div` 2) (j `div` 2) Himg)
      as (row & px & Hrow & Hpx & _ & Hlen).
    { apply Nat.Div0.div_lt_upper_bound. lia. }
    { apply Nat.Div0.div_lt_upper_bound. lia. }
    by rewrite (list_lookup_total_correct _ _ _ Hrow),
      (list_lookup_total_correct _ _ _ Hpx).
  - rewrite Hc. apply length_replicate.
Qed.

Lemma set_stride2_2d_zeros (image : list (list (list F))) (h w c : nat) :
  shaped3 h w c image → (0 < h)%nat → (0 < w)%nat →
  set_stride2_2d (np_zeros3 (2 * length image) (2 * dim1 image) (dim2 image))
    image
  = zero_stuffed image h w.
Proof.
  intros Himg Hh Hw.
  destruct (shaped3_dims h w c image Himg) as (-> & -> & Hc); [lia..|].
  unfold set_stride2_2d, zero_stuffed, np_zeros3, range.
  apply list_eq. intros y. rewrite list_lookup_imap, list_lookup_fmap.
  destruct (decide (y < 2 * h)%nat) as [Hy|Hy].
  2:{ rewrite (proj1 (lookup_replicate_None _ _ _)), lookup_seq_ge by lia. done. }
  rewrite lookup_replicate_2, lookup_seq_lt by lia. simpl. f_equal.
  apply list_eq. intros x. rewrite list_lookup_imap, list_lookup_fmap.
  destruct (decide (x < 2 * w)%nat) as [Hx|Hx].
  2:{ rewrite (proj1 (lookup_replicate_None _ _ _)), lookup_seq_ge by lia. done. }
  rewrite lookup_replicate_2, lookup_seq_lt by lia. done.
Qed.

Lemma pyrup_impl_pixels (image : list (list (list F))) (h w c : nat) :
  shaped3 h w c image → (0 < h)%nat → (0 < w)%nat → (0 < c)%nat →
  let K_col := (λ k, [sdiv (sofZ k) (sofZ 8)]) <$> [1; 4; 6; 4; 1]%Z in
  pyrup_impl (Nd3 image)
  = Some (Nd3 (filter2D_pixels (filter2D_pixels (zero_stuffed image h w) K_col)
                 (np_transpose K_col))).
Proof.
  intros Himg Hh Hw Hc K_col. unfold pyrup_impl.
  rewrite <- list_fmap_compose. change (_ <$> [1; 4; 6; 4; 1]%Z) with K_col.
  cbn [mbind option_bind].
  rewrite (set_stride2_2d_zeros image h w c) by done.
  pose proof (zero_stuffed_shape image h w c Himg Hh Hw) as Hz.
  assert (H2h : (0 < 2 * h)%nat) by lia.
  assert (H2w : (0 < 2 * w)%nat) by lia.
  destruct (cv2_filter2D_Nd3 (zero_stuffed image h w) K_col (2 * h) (2 * w) c
              Hz H2h H2w Hc) as (dst1 & -> & _ & Hnext).
  cbn [mbind option_bind]. rewrite Hnext.
  pose proof (filter2D_pixels_shape _ K_col _ _ _ Hz) as Hf.
  destruct (cv2_filter2D_Nd3 (filter2D_pixels (zero_stuffed image h w) K_col)
              (np_transpose K_col) (2 * h) (2 * w) c Hf H2h H2w Hc)
    as (dst2 & -> & Hr & _).
  cbn [mbind option_bind]. by rewrite Hr.
Qed.
End FilterCells.

(** ** The two passes in exact arithmetic *)

Section PyramidTheorems.
Local Open Scope R_scope.

Lemma mirror_own_index (x w : nat) :
  (x < w)%nat → Z.to_nat (mirror (Z.of_nat x + 0 - 0) (Z.of_nat w)) = x.
Proof. intros Hx. rewrite mirror_inside by lia. lia. Qed.

Lemma mirror_index_lt (p : Z) (len : nat) :
  (0 < len)%nat → (Z.to_nat (mirror p (Z.of_nat len)) < len)%nat.
Proof. intros Hlen. pose proof (mirror_range p (Z.of_nat len)). lia. Qed.

(** The pass with the 5 x 1 kernel filters along the rows axis. *)
Lemma filter_col_at (src : list (list (list R))) (k0 k1 k2 k3 k4 : R)
    (h w c y x k : nat) :
  shaped3 h w c src → (y < h)%nat → (x < w)%nat → (k < c)%nat →
  let s := λ a : Z,
    ((src !!! Z.to_nat (mirror (Z.of_nat y + a - 2) (Z.of_nat h))) !!! x) !!! k in
  ((filter2D_pixels src [[k0]; [k1]; [k2]; [k3]; [k4]] !!! y) !!! x) !!! k
  = 0 + k0 * s 0%Z + k1 * s 1%Z + k2 * s 2%Z + k3 * s 3%Z + k4 * s 4%Z.
Proof.
  intros Hsrc Hy Hx Hk s.
  rewrite (filter2D_pixels_at src _ h w c) by done.
  unfold np_sum. simpl.
  rewrite !borderInterpolate_mirror by lia.
  change (Z.of_nat (dim1 [[k0]; [k1]; [k2]; [k3]; [k4]]) `div` 2)%Z with 0%Z.
  change (Z.of_nat 5 `div` 2)%Z with 2%Z.
  change (Z.of_nat 0) with 0%Z. change (Z.of_nat 1) with 1%Z.
  change (Z.of_nat 2) with 2%Z. change (Z.of_nat 3) with 3%Z.
  change (Z.of_nat 4) with 4%Z.
  by rewrite !mirror_own_index by done.
Qed.

(** The pass with the 1 x 5 kernel filters along the columns axis. *)
Lemma filter_row_at (src : list (list (list R))) (k0 k1 k2 k3 k4 : R)
    (h w c y x k : nat) :
  shaped3 h w c src → (y < h)%nat → (x < w)%nat → (k < c)%nat →
  let s := λ b : Z,
    ((src !!! y) !!! Z.to_nat (mirror (Z.of_nat x + b - 2) (Z.of_nat w))) !!! k in
  ((filter2D_pixels src [[k0; k1; k2; k3; k4]] !!! y) !!! x) !!! k
  = 0 + k0 * s 0%Z + k1 * s 1%Z + k2 * s 2%Z + k3 * s 3%Z + k4 * s 4%Z.
Proof.
  intros Hsrc Hy Hx Hk s.
  rewrite (filter2D_pixels_at src _ h w c) by done.
  unfold np_sum. simpl.
  rewrite !borderInterpolate_mirror by lia.
  change (Z.of_nat (dim1 [[k0; k1; k2; k3; k4]]) `div` 2)%Z with 2%Z.
  change (Z.of_nat 1 `div` 2)%Z with 0%Z.
  change (Z.of_nat 0) with 0%Z. change (Z.of_nat 1) with 1%Z.
  change (Z.of_nat 2) with 2%Z. change (Z.of_nat 3) with 3%Z.
  change (Z.of_nat 4) with 4%Z.
  by rewrite !mirror_own_index by done.
Qed.

(** The two passes together are the separable 5 x 5 convolution of the
    mirrored image; the library correlates, which is the same for this
    symmetric kernel. *)
Lemma separable_blur_at (src : list (list (list R))) (s : Z)
    (h w c y x k : nat) :
  shaped3 h w c src → (y < h)%nat → (x < w)%nat → (k < c)%nat →
  let K_col := (λ t, [sdiv (sofZ t) (sofZ s)]) <$> [1; 4; 6; 4; 1]%Z in
  ((filter2D_pixels (filter2D_pixels src K_col) (np_transpose K_col) !!! y)
     !!! x) !!! k
  = blur5 (IZR s) (mirrored src h w k) (Z.of_nat y) (Z.of_nat x).
Proof.
  intros Hsrc Hy Hx Hk K_col.
  pose proof (filter2D_pixels_shape src K_col h w c Hsrc) as Hf.
  change (np_transpose K_col)
    with [[IZR 1 / IZR s; IZR 4 / IZR s; IZR 6 / IZR s; IZR 4 / IZR s;
           IZR 1 / IZR s]].
  rewrite (filter_row_at _ _ _ _ _ _ h w c) by done.
  change K_col
    with [[IZR 1 / IZR s]; [IZR 4 / IZR s]; [IZR 6 / IZR s]; [IZR 4 / IZR s];
          [IZR 1 / IZR s]].
  rewrite !(filter_col_at _ _ _ _ _ _ h w c)
    by (done || apply mirror_index_lt; lia).
  unfold blur5, mirrored, binomial5, np_sum. simpl.
  repeat match goal with
  | |- context [(?p - (?a - 2))%Z] =>
      let v := eval cbv in (4 - a)%Z in
      replace (p - (a - 2))%Z with (p + v - 2)%Z by lia
  end.
  lra.
Qed.

(** C7: [pyrdown_impl] is the convolution with the kernel
    [1 4 6 4 1] / 16 along both axes under mirror boundary handling,
    sampled at the even rows and columns, of shape
    [ceil(h / 2)] x [ceil(w / 2)] x [c]. *)
Theorem pyrdown_impl_spec (image : list (list (list R))) (h w c : nat) :
  shaped3 h w c image → (0 < h)%nat → (0 < w)%nat → (0 < c)%nat →
  let h' := ((h + 1) `div` 2)%nat in
  let w' := ((w + 1) `div` 2)%nat in
  (h ≤ 2 * h' < h + 2)%nat ∧ (w ≤ 2 * w' < w + 2)%nat ∧
  ∃ down, pyrdown_impl (Nd3 image) = Some (Nd3 down) ∧
    shaped3 h' w' c down ∧
    ∀ i j k, (i < h')%nat → (j < w')%nat → (k < c)%nat →
      ((down !!! i) !!! j) !!! k
      = blur5 16 (mirrored image h w k) (Z.of_nat (2 * i)) (Z.of_nat (2 * j)).
Proof.
  intros Himg Hh Hw Hc h' w'.
  assert (Hh' : (h ≤ 2 * h' < h + 2)%nat).
  { unfold h'. pose proof (Nat.div_mod_eq (h + 1) 2).
    pose proof (Nat.mod_upper_bound (h + 1) 2). lia. }
  assert (Hw' : (w ≤ 2 * w' < w + 2)%nat).
  { unfold w'. pose proof (Nat.div_mod_eq (w + 1) 2).
    pose proof (Nat.mod_upper_bound (w + 1) 2). lia. }
  split; [done|]. split; [done|].
  rewrite (pyrdown_impl_pixels image h w c) by done.
  eexists. split; [done|]. split.
  - apply stride2_2d_shape. by do 2 apply filter2D_pixels_shape.
  - intros i j k Hi Hj Hk. rewrite stride2_2d_at.
    assert (H2i : (2 * i < h)%nat).
    { unfold h' in Hi. pose proof (Nat.div_mod_eq (h + 1) 2).
      pose proof (Nat.mod_upper_bound (h + 1) 2). lia. }
    assert (H2j : (2 * j < w)%nat).
    { unfold w' in Hj. pose proof (Nat.div_mod_eq (w + 1) 2).
      pose proof (Nat.mod_upper_bound (w + 1) 2). lia. }
    exact (separable_blur_at image 16 h w c (2 * i) (2 * j) k
             Himg H2i H2j Hk).
Qed.

Lemma pyrdown_impl_spec_witness :
  let image := [[[1]; [2]; [3]]; [[4]; [5]; [6]]] in
  let h' := ((2 + 1) `div` 2)%nat in
  let w' := ((3 + 1) `div` 2)%nat in
  (2 ≤ 2 * h' < 2 + 2)%nat ∧ (3 ≤ 2 * w' < 3 + 2)%nat ∧
  ∃ down, pyrdown_impl (Nd3 image) = Some (Nd3 down) ∧
    shaped3 h' w' 1 down ∧
    ∀ i j k, (i < h')%nat → (j < w')%nat → (k < 1)%nat →
      ((down !!! i) !!! j) !!! k
      = blur5 16 (mirrored image 2 3 k) (Z.of_nat (2 * i)) (Z.of_nat (2 * j)).
Proof.
  apply (pyrdown_impl_spec [[[1]; [2]; [3]]; [[4]; [5]; [6]]] 2 3 1).
  - split; [reflexivity|]. repeat constructor.
  - lia.
  - lia.
  - lia.
Defined.

(** C8: [pyrup_impl] returns a [2h] x [2w] x [c] array, channel axis
    included also for one channel: the convolution with the kernel
    [1 4 6 4 1] / 8 along both axes under mirror boundary handling of
    the zero array of that shape holding the input at its even
    coordinates. *)
Theorem pyrup_impl_spec (image : list (list (list R))) (h w c : nat) :
  shaped3 h w c image → (0 < h)%nat → (0 < w)%nat → (0 < c)%nat →
  ∃ up, pyrup_impl (Nd3 image) = Some (Nd3 up) ∧
    shaped3 (2 * h) (2 * w) c up ∧
    ∀ i j k, (i < 2 * h)%nat → (j < 2 * w)%nat → (k < c)%nat →
      ((up !!! i) !!! j) !!! k
      = blur5 8 (mirrored (zero_stuffed image h w) (2 * h) (2 * w) k)
          (Z.of_nat i) (Z.of_nat j).
Proof.
  intros Himg Hh Hw Hc.
  rewrite (pyrup_impl_pixels image h w c) by done.
  pose proof (zero_stuffed_shape image h w c Himg Hh Hw) as Hz.
  eexists. split; [done|]. split.
  - by do 2 apply filter2D_pixels_shape.
  - intros i j k Hi Hj Hk.
    exact (separable_blur_at (zero_stuffed image h w) 8 (2 * h) (2 * w) c
             i j k Hz Hi Hj Hk).
Qed.

Lemma pyrup_impl_spec_witness :
  let image := [[[1]; [2]; [3]]; [[4]; [5]; [6]]] in
  ∃ up, pyrup_impl (Nd3 image) = Some (Nd3 up) ∧
    shaped3 (2 * 2) (2 * 3) 1 up ∧
    ∀ i j k, (i < 2 * 2)%nat → (j < 2 * 3)%nat → (k < 1)%nat →
      ((up !!! i) !!! j) !!! k
      = blur5 8 (mirrored (zero_stuffed image 2 3) (2 * 2) (2 * 3) k)
          (Z.of_nat i) (Z.of_nat j).
Proof.
  apply (pyrup_impl_spec [[[1]; [2]; [3]]; [[4]; [5]; [6]]] 2 3 1).
  - split; [reflexivity|]. repeat constructor.
  - lia.
  - lia.
  - lia.
Defined.
End PyramidTheorems.

(** ** Further properties of [preprocess_ncc_impl] and [compute_ncc_impl] *)

Section NCCVectors.
Local Open Scope R_scope.

Lemma length_ncc_center (v : list R) : length (ncc_center v) = length v.
Proof. unfold ncc_center. apply length_fmap. Qed.

Lemma length_ncc_unit (v : list R) : length (ncc_unit v) = length v.
Proof. unfold ncc_unit. apply length_fmap. Qed.

(** A vector of zero norm is left as it is, the zero vector. *)
Lemma ncc_unit_zero_norm (v : list R) :
  np_norm v = 0 → ncc_unit v = replicate (length v) 0.
Proof.
  intros Hz. apply np_norm_zero, Forall_zero_replicate in Hz.
  rewrite Hz at 1. rewrite ncc_unit_zeros. done.
Qed.

Lemma ncc_unit_norm (v : list R) :
  np_norm v ≠ 0 → np_norm (ncc_unit v) = 1.
Proof.
  intros Hn. unfold ncc_unit. rewrite seqb_R, bool_decide_false by done.
  by apply np_norm_unit.
Qed.

(** Centring cancels a constant vector, and only a constant one. *)
Lemma ncc_center_replicate (n : nat) (k : R) :
  ncc_center (replicate n k) = replicate n 0.
Proof.
  assert (Hsum : ∀ m : nat, np_sum (replicate m k) = IZR (Z.of_nat m) * k).
  { induction m as [|m IH]; simpl.
    - rewrite np_sum_nil. change (Z.of_nat 0) with 0%Z. lra.
    - rewrite np_sum_cons, IH, Nat2Z.inj_succ, succ_IZR. lra. }
  destruct n as [|n]; [done|].
  unfold ncc_center, np_mean.
  rewrite length_replicate, Hsum, fmap_replicate. f_equal. simpl.
  field. apply not_0_IZR. lia.
Qed.

Lemma ncc_center_constant (v : list R) (k : R) :
  Forall (λ a, a = k) v → ncc_center v = replicate (length v) 0.
Proof.
  intros Hv.
  assert (Hrep : v = replicate (length v) k).
  { clear -Hv. induction Hv as [|a v -> _ IH]; simpl; [done|]. by f_equal. }
  rewrite Hrep at 1. apply ncc_center_replicate.
Qed.

Lemma ncc_center_varied (v : list R) (i j : nat) (a b : R) :
  v !! i = Some a → v !! j = Some b → a ≠ b → np_norm (ncc_center v) ≠ 0.
Proof.
  intros Ha Hb Hab Hz. apply np_norm_zero in Hz.
  unfold ncc_center in Hz. rewrite Forall_fmap in Hz.
  pose proof (Forall_lookup_1 _ _ _ _ Hz Ha) as Ha0.
  pose proof (Forall_lookup_1 _ _ _ _ Hz Hb) as Hb0.
  simpl in Ha0, Hb0. lra.
Qed.
End NCCVectors.

Section NCCShapes.
Local Open Scope R_scope.

Lemma shaped3_degenerate {A : Type} (h w c c' : nat)
    (a : list (list (list A))) :
  shaped3 h w c a → (h = 0 ∨ w = 0)%nat → shaped3 h w c' a.
Proof.
  intros [Hh Ha] Hz. split; [done|].
  destruct Hz as [->| ->].
  - destruct a; [constructor | done].
  - revert Ha. apply Forall_impl. intros row [Hw _].
    destruct row; [|done]. split; [done|constructor].
Qed.

Lemma ncc_filled_shape (image : list (list (list R))) (h w c r : nat) :
  shaped3 h w c image →
  shaped3 h w (c * ((2 * r + 1) * (2 * r + 1))) (ncc_filled image r).
Proof.
  intros Himg.
  set (m := ((2 * r + 1) * (2 * r + 1))%nat).
  assert (Hgen : shaped3 (length image) (dim1 image) (dim2 image * m)
                   (ncc_filled image r)).
  { apply (pixels_imap2 _ _ (λ v : list R, length v = (dim2 image * m)%nat));
      [apply shaped3_zeros|].
    intros y x v Hv. case_decide; [apply length_patch_vector | done]. }
  pose proof Himg as [Hh _].
  pose proof (pixels_dim1 h w _ image Himg) as Hw.
  destruct (decide (h = 0)%nat) as [Hh0|Hh0].
  { rewrite Hw, Hh, Hh0 in Hgen. destruct Hgen as [Hl _].
    rewrite Hh0. split; [done|].
    destruct (ncc_filled image r); [constructor | done]. }
  rewrite Hw, Hh in Hgen.
  destruct (decide (w = 0)%nat) as [Hw0|Hw0].
  { apply (shaped3_degenerate _ _ (dim2 image * m)); [done | by right]. }
  destruct (shaped3_dims h w c image Himg) as (_ & _ & Ec); [lia..|].
  by rewrite Ec in Hgen.
Qed.

(** The array after normalisation has the shape the patches were copied
    into. *)
Lemma preprocess_ncc_cells_shape (image : list (list (list R)))
    (h w c r : nat) :
  shaped3 h w c image →
  shaped3 h w (c * ((2 * r + 1) * (2 * r + 1)))
    (map2d (λ v, ncc_unit (ncc_center v)) (ncc_filled image r)).
Proof.
  intros Himg.
  apply (pixels_map2d h w
           (λ v : list R, length v = (c * ((2 * r + 1) * (2 * r + 1)))%nat));
    [by apply ncc_filled_shape|].
  intros v Hv. by rewrite length_ncc_unit, length_ncc_center.
Qed.
End NCCShapes.

Section NCCProducts.
Local Open Scope R_scope.

Lemma np_dot_cons (a b : R) (u v : list R) :
  np_dot (a :: u) (b :: v) = a * b + np_dot u v.
Proof. unfold np_dot. simpl. apply np_sum_cons. Qed.

Lemma np_dot_comm (u v : list R) : np_dot u v = np_dot v u.
Proof.
  revert v. induction u as [|a u IH]; intros [|b v]; try done.
  rewrite !np_dot_cons, IH. lra.
Qed.

Lemma np_dot_self (v : list R) : np_dot v v = np_sum ((λ a, a * a) <$> v).
Proof.
  induction v as [|a v IH]; [done|].
  by rewrite np_dot_cons, fmap_cons, np_sum_cons, IH.
Qed.

(** The polynomial [sum (t u_i - v_i)^2] in [t] is never negative. *)
Lemma np_dot_quadratic (u v : list R) (t : R) :
  0 <= t * t * np_sum ((λ a, a * a) <$> u) - 2 * t * np_dot u v
       + np_sum ((λ a, a * a) <$> v).
Proof.
  revert v. induction u as [|a u IH]; intros v.
  - pose proof (np_sum_squares_nonneg v).
    replace (np_dot [] v) with 0 by done. rewrite fmap_nil, np_sum_nil. lra.
  - destruct v as [|b v].
    + pose proof (np_sum_squares_nonneg (a :: u)).
      replace (np_dot (a :: u) []) with 0 by done.
      rewrite fmap_nil, np_sum_nil. nra.
    + rewrite np_dot_cons, !fmap_cons, !np_sum_cons.
      specialize (IH v).
      pose proof (Rle_0_sqr (t * a - b)) as Hsq. unfold Rsqr in Hsq. lra.
Qed.

(** Cauchy-Schwarz. *)
Lemma np_dot_cauchy (u v : list R) :
  np_dot u v * np_dot u v
  <= np_sum ((λ a, a * a) <$> u) * np_sum ((λ a, a * a) <$> v).
Proof.
  pose proof (np_sum_squares_nonneg u) as HA.
  pose proof (np_sum_squares_nonneg v) as HB.
  destruct (Req_dec (np_sum ((λ a, a * a) <$> u)) 0) as [Hz|Hnz].
  - rewrite (np_dot_zero_l u v) by (by apply np_sum_squares_zero). nra.
  - set (A := np_sum ((λ a, a * a) <$> u)) in *.
    set (B := np_sum ((λ a, a * a) <$> v)) in *.
    set (D := np_dot u v).
    pose proof (np_dot_quadratic u v (D / A)) as Hq. fold A B D in Hq.
    assert (Hs : D / A * (D / A) * A - 2 * (D / A) * D + B = B - D * D / A)
      by (field; done).
    rewrite Hs in Hq.
    assert (HA' : 0 < A) by lra.
    assert (Hd : D * D / A * A = D * D) by (field; done).
    nra.
Qed.

(** The squared length of a normalised vector is at most one. *)
Lemma ncc_unit_squares (v : list R) :
  0 <= np_sum ((λ a, a * a) <$> ncc_unit v) <= 1.
Proof.
  split; [apply np_sum_squares_nonneg|].
  destruct (Req_dec (np_norm v) 0) as [Hz|Hnz].
  - rewrite (ncc_unit_zero_norm v Hz), fmap_replicate.
    replace (0 * 0) with 0 by lra. rewrite np_sum_zeros. lra.
  - pose proof (ncc_unit_norm v Hnz) as H1. unfold np_norm in H1. simpl in H1.
    rewrite <- (sqrt_sqrt (np_sum _)) by apply np_sum_squares_nonneg.
    rewrite H1. lra.
Qed.

(** *** Broadcasting between arrays of one shape is the plain zip *)

Lemma np_broadcast_same {A B C : Type} (f : A → B → option C) (g : A → B → C)
    (P : A → B → Prop) (a : list A) (b : list B) :
  Forall2 P a b → (∀ x y, P x y → f x y = Some (g x y)) →
  np_broadcast f a b = Some (zip_with g a b).
Proof.
  intros Hab Hf. unfold np_broadcast.
  rewrite decide_True by (by eapply Forall2_length).
  apply mapM_Some_2.
  induction Hab as [|x y a b Hxy Hab IH]; simpl; constructor; [|done].
  simpl. by apply Hf.
Qed.

Lemma compute_ncc_same_shape (a b : list (list (list R))) :
  same_shape3 a b → compute_ncc_impl a b = Some (zip2d np_dot a b).
Proof.
  intros Hab. unfold compute_ncc_impl.
  rewrite (np_broadcast_same _ (zip_with (zip_with Rmult))
             (Forall2 (λ u v : list R, length u = length v))); [|done|].
  - simpl. f_equal. unfold map2d, zip2d.
    clear Hab. revert b. induction a as [|ra a IH]; intros [|rb b]; try done.
    simpl. f_equal; [|apply IH].
    clear. revert rb. induction ra as [|u ra IH]; intros [|v rb]; try done.
    simpl. f_equal. apply IH.
  - intros ra rb Hr.
    apply (np_broadcast_same _ (zip_with Rmult)
             (λ u v : list R, length u = length v)); [done|].
    intros u v Huv.
    apply (np_broadcast_same _ Rmult (λ _ _, True)); [|done].
    clear -Huv. revert v Huv.
    induction u as [|x u IH]; intros [|y v] Huv; try done; constructor;
      [done|]. apply IH. simpl in Huv. lia.
Qed.
End NCCProducts.

Section NCCFurther.
Local Open Scope R_scope.

(** X1: for a rectangular [h] x [w] x [c] image and an odd patch size
    the result holds one vector of [c * ncc_size^2] components for every
    pixel of the image. *)
Theorem preprocess_ncc_shape (image : list (list (list R))) (h w c : nat)
    (ncc_size : Z) :
  shaped3 h w c image → (0 < ncc_size)%Z → Z.odd ncc_size = true →
  ∃ out, preprocess_ncc_impl image ncc_size = Some out ∧
    shaped3 h w (c * Z.to_nat ncc_size * Z.to_nat ncc_size) out.
Proof.
  intros Himg Hpos Hodd.
  pose proof (odd_size ncc_size Hpos Hodd) as Hn.
  set (r := Z.to_nat (ncc_size `div` 2)) in *. clearbody r. subst ncc_size.
  rewrite (preprocess_ncc_odd image h w c r Himg).
  eexists. split; [done|].
  replace (c * Z.to_nat (2 * Z.of_nat r + 1) * Z.to_nat (2 * Z.of_nat r + 1))%nat
    with (c * ((2 * r + 1) * (2 * r + 1)))%nat by lia.
  by apply preprocess_ncc_cells_shape.
Qed.

Lemma preprocess_ncc_shape_witness :
  ∃ out, preprocess_ncc_impl [[[1; 2]; [3; 4]]] 3 = Some out ∧
    shaped3 1 2 (2 * Z.to_nat 3 * Z.to_nat 3) out.
Proof.
  apply (preprocess_ncc_shape [[[1; 2]; [3; 4]]] 1 2 2 3).
  - split; [reflexivity|]. repeat constructor.
  - lia.
  - reflexivity.
Defined.

(** X2: at a pixel whose window lies inside the image the feature vector
    has length exactly one when the patch holds two different samples,
    and is the zero vector when all samples of the patch are equal. *)
Theorem preprocess_ncc_unit_or_zero (image : list (list (list R)))
    (h w c : nat) (ncc_size : Z) (y x : nat) :
  shaped3 h w c image → (0 < ncc_size)%Z → Z.odd ncc_size = true →
  window_inside h w (Z.to_nat (ncc_size `div` 2)) y x →
  let flat := patch_vector image c (Z.to_nat (ncc_size `div` 2)) y x in
  ∃ out v, preprocess_ncc_impl image ncc_size = Some out ∧
    at2 out y x = Some v ∧
    ((∃ i j a b, flat !! i = Some a ∧ flat !! j = Some b ∧ a ≠ b) →
       np_norm v = 1) ∧
    ((∃ k, Forall (λ a, a = k) flat) → v = replicate (length flat) 0).
Proof.
  intros Himg Hpos Hodd Hin flat.
  assert (Hyx : (y < h)%nat ∧ (x < w)%nat) by (unfold window_inside in Hin; lia).
  destruct Hyx as [Hy Hx].
  destruct (preprocess_ncc_at image h w c ncc_size y x) as (out & Hrun & Hat);
    try done.
  rewrite decide_True in Hat by done. fold flat in Hat.
  exists out, (ncc_unit (ncc_center flat)). split; [done|]. split; [done|].
  split.
  - intros (i & j & a & b & Ha & Hb & Hab).
    apply ncc_unit_norm. by apply (ncc_center_varied flat i j a b).
  - intros (k & Hk). rewrite (ncc_center_constant flat k Hk).
    apply ncc_unit_zeros.
Qed.

Lemma preprocess_ncc_unit_or_zero_witness :
  let flat := patch_vector [[[1; 3]]] 2 (Z.to_nat (1 `div` 2)) 0 0 in
  ∃ out v, preprocess_ncc_impl [[[1; 3]]] 1 = Some out ∧
    at2 out 0 0 = Some v ∧
    ((∃ i j a b, flat !! i = Some a ∧ flat !! j = Some b ∧ a ≠ b) →
       np_norm v = 1) ∧
    ((∃ k, Forall (λ a, a = k) flat) → v = replicate (length flat) 0).
Proof.
  apply (preprocess_ncc_unit_or_zero [[[1; 3]]] 1 1 2 1 0 0).
  - split; [reflexivity|]. repeat constructor.
  - lia.
  - reflexivity.
  - unfold window_inside. change (Z.to_nat (1 `div` 2)) with 0%nat. lia.
Defined.

(** The two preprocessed arrays of images of one shape, ready for
    [compute_ncc_impl]. *)
Lemma preprocess_ncc_pair (image1 image2 : list (list (list R)))
    (h w c : nat) (ncc_size : Z) :
  shaped3 h w c image1 → shaped3 h w c image2 →
  (0 < ncc_size)%Z → Z.odd ncc_size = true →
  let r := Z.to_nat (ncc_size `div` 2) in
  let n1 := map2d (λ v, ncc_unit (ncc_center v)) (ncc_filled image1 r) in
  let n2 := map2d (λ v, ncc_unit (ncc_center v)) (ncc_filled image2 r) in
  preprocess_ncc_impl image1 ncc_size = Some n1 ∧
  preprocess_ncc_impl image2 ncc_size = Some n2 ∧
  compute_ncc_impl n1 n2 = Some (zip2d np_dot n1 n2).
Proof.
  intros H1 H2 Hpos Hodd r n1 n2.
  pose proof (odd_size ncc_size Hpos Hodd) as Hn. fold r in Hn.
  clearbody r. subst ncc_size.
  split; [|split].
  - apply (preprocess_ncc_odd image1 h w c r H1).
  - apply (preprocess_ncc_odd image2 h w c r H2).
  - apply compute_ncc_same_shape.
    apply (same_shape3_shaped _ _ h w (c * ((2 * r + 1) * (2 * r + 1))));
      by apply preprocess_ncc_cells_shape.
Qed.

(** X5: the correlation of two preprocessed images of one shape is
    defined at every pixel and lies between -1 and 1. *)
Theorem compute_ncc_bounded (image1 image2 : list (list (list R)))
    (h w c : nat) (ncc_size : Z) :
  shaped3 h w c image1 → shaped3 h w c image2 →
  (0 < ncc_size)%Z → Z.odd ncc_size = true →
  ∃ n1 n2 ncc,
    preprocess_ncc_impl image1 ncc_size = Some n1 ∧
    preprocess_ncc_impl image2 ncc_size = Some n2 ∧
    compute_ncc_impl n1 n2 = Some ncc ∧
    shaped2 h w ncc ∧
    ∀ y x s, at2 ncc y x = Some s → -1 <= s <= 1.
Proof.
  intros H1 H2 Hpos Hodd.
  destruct (preprocess_ncc_pair image1 image2 h w c ncc_size H1 H2 Hpos Hodd)
    as (Hn1 & Hn2 & Hncc).
  set (r := Z.to_nat (ncc_size `div` 2)) in *.
  eexists _, _, _. split; [exact Hn1|]. split; [exact Hn2|].
  split; [exact Hncc|].
  pose proof (preprocess_ncc_cells_shape image1 h w c r H1) as S1.
  pose proof (preprocess_ncc_cells_shape image2 h w c r H2) as S2.
  split.
  - apply shaped2_pixels.
    apply (pixels_zip2d h w _ _ (λ _, True) _ _ _ S1 S2). done.
  - intros y x s Hs.
    apply at2_zip2d in Hs as (u & v & Hu & Hv & ->).
    rewrite at2_map2d in Hu, Hv.
    destruct (at2 (ncc_filled image1 r) y x) as [p|]; [|done].
    destruct (at2 (ncc_filled image2 r) y x) as [q|]; [|done].
    simpl in Hu, Hv. injection Hu as <-. injection Hv as <-.
    pose proof (np_dot_cauchy (ncc_unit (ncc_center p))
                  (ncc_unit (ncc_center q))) as Hcs.
    pose proof (ncc_unit_squares (ncc_center p)).
    pose proof (ncc_unit_squares (ncc_center q)).
    nra.
Qed.

Lemma compute_ncc_bounded_witness :
  ∃ n1 n2 ncc,
    preprocess_ncc_impl [[[1; 3]]] 1 = Some n1 ∧
    preprocess_ncc_impl [[[4; 2]]] 1 = Some n2 ∧
    compute_ncc_impl n1 n2 = Some ncc ∧
    shaped2 1 1 ncc ∧
    ∀ y x s, at2 ncc y x = Some s → -1 <= s <= 1.
Proof.
  apply (compute_ncc_bounded [[[1; 3]]] [[[4; 2]]] 1 1 2 1).
  - split; [reflexivity|]. repeat constructor.
  - split; [reflexivity|]. repeat constructor.
  - lia.
  - reflexivity.
Defined.

Lemma np_norm_one_squares (v : list R) :
  np_norm v = 1 → np_sum ((λ a, a * a) <$> v) = 1.
Proof.
  unfold np_norm. simpl. intros H1.
  rewrite <- (sqrt_sqrt (np_sum _)) by apply np_sum_squares_nonneg.
  rewrite H1. lra.
Qed.

(** X6: in exact arithmetic, the correlation of a preprocessed image
    with itself is one at every pixel whose window lies inside the image
    and whose patch holds two different samples, and zero at the pixels
    whose window leaves the image or whose patch is constant.  (In
    binary64 the first value is one up to rounding only.) *)
Theorem compute_ncc_self (image : list (list (list R))) (h w c : nat)
    (ncc_size : Z) (y x : nat) :
  shaped3 h w c image → (0 < ncc_size)%Z → Z.odd ncc_size = true →
  (y < h)%nat → (x < w)%nat →
  let r := Z.to_nat (ncc_size `div` 2) in
  let flat := patch_vector image c r y x in
  ∃ n1 ncc,
    preprocess_ncc_impl image ncc_size = Some n1 ∧
    compute_ncc_impl n1 n1 = Some ncc ∧
    (window_inside h w r y x →
     (∃ i j a b, flat !! i = Some a ∧ flat !! j = Some b ∧ a ≠ b) →
     at2 ncc y x = Some 1) ∧
    (¬ window_inside h w r y x ∨ (∃ k, Forall (λ a, a = k) flat) →
     at2 ncc y x = Some 0).
Proof.
  intros Himg Hpos Hodd Hy Hx r flat.
  destruct (preprocess_ncc_pair image image h w c ncc_size
              Himg Himg Hpos Hodd) as (Hn1 & _ & Hncc).
  fold r in Hn1, Hncc.
  set (n1 := map2d (λ v, ncc_unit (ncc_center v)) (ncc_filled image r)) in *.
  exists n1, (zip2d np_dot n1 n1). split; [done|]. split; [done|].
  set (cell := if decide (window_inside h w r y x) then flat
               else np_zeros1 (c * ((2 * r + 1) * (2 * r + 1)))).
  assert (Hat : at2 n1 y x = Some (ncc_unit (ncc_center cell))).
  { unfold n1. by rewrite at2_map2d, (ncc_filled_at image h w c r y x). }
  assert (Hdot : at2 (zip2d np_dot n1 n1) y x
                 = Some (np_sum ((λ a, a * a) <$> ncc_unit (ncc_center cell)))).
  { apply at2_zip2d. eexists _, _. split; [exact Hat|]. split; [exact Hat|].
    by rewrite np_dot_self. }
  rewrite Hdot. split.
  - intros Hin (i & j & a & b & Ha & Hb & Hab). f_equal.
    apply np_norm_one_squares, ncc_unit_norm.
    unfold cell. rewrite decide_True by done.
    by apply (ncc_center_varied flat i j a b).
  - intros Hcase. f_equal.
    assert (Hz : ncc_center cell = replicate (length cell) 0).
    { unfold cell. destruct Hcase as [Hout|[k Hk]].
      - rewrite decide_False by done. unfold np_zeros1. simpl.
        by rewrite ncc_center_zeros, length_replicate.
      - case_decide; [by apply (ncc_center_constant flat k)|].
        unfold np_zeros1. simpl.
        by rewrite ncc_center_zeros, length_replicate. }
    rewrite Hz, ncc_unit_zeros, fmap_replicate.
    replace (0 * 0) with 0 by lra. apply np_sum_zeros.
Qed.

Lemma compute_ncc_self_witness :
  let r := Z.to_nat (1 `div` 2) in
  let flat := patch_vector [[[1; 3]]] 2 r 0 0 in
  ∃ n1 ncc,
    preprocess_ncc_impl [[[1; 3]]] 1 = Some n1 ∧
    compute_ncc_impl n1 n1 = Some ncc ∧
    (window_inside 1 1 r 0 0 →
     (∃ i j a b, flat !! i = Some a ∧ flat !! j = Some b ∧ a ≠ b) →
     at2 ncc 0 0 = Some 1) ∧
    (¬ window_inside 1 1 r 0 0 ∨ (∃ k, Forall (λ a, a = k) flat) →
     at2 ncc 0 0 = Some 0).
Proof.
  apply (compute_ncc_self [[[1; 3]]] 1 1 2 1 0 0).
  - split; [reflexivity|]. repeat constructor.
  - lia.
  - reflexivity.
  - lia.
  - lia.
Defined.

Lemma mapM_zip_flip {A B C : Type} (f : A → B → option C)
    (a : list A) (b : list B) :
  mapM (λ p, f p.1 p.2) (zip a b) = mapM (λ p, f p.2 p.1) (zip b a).
Proof.
  revert b. induction a as [|x a IH]; intros [|y b]; try done.
  cbn. rewrite IH. done.
Qed.

Lemma np_broadcast_flip {A B C : Type} (f : A → B → option C)
    (a : list A) (b : list B) :
  np_broadcast f a b = np_broadcast (λ y x, f x y) b a.
Proof.
  unfold np_broadcast.
  destruct (decide (length a = length b)) as [Hl|Hl].
  - rewrite decide_True by done. apply mapM_zip_flip.
  - rewrite decide_False by done.
    destruct a as [|x [|x' a]], b as [|y [|y' b]]; done.
Qed.

Lemma np_broadcast_ext {A B C : Type} (f g : A → B → option C)
    (a : list A) (b : list B) :
  (∀ x y, f x y = g x y) → np_broadcast f a b = np_broadcast g a b.
Proof.
  intros Hfg. unfold np_broadcast.
  case_decide.
  - apply mapM_ext. intros p. apply Hfg.
  - destruct a as [|x [|x' a]], b as [|y [|y' b]]; try done;
      apply mapM_ext; intros ?; apply Hfg.
Qed.

(** X7: the correlation does not depend on the order of its two
    arguments, whatever their shapes. *)
Theorem compute_ncc_symmetric (image1 image2 : list (list (list R))) :
  compute_ncc_impl image1 image2 = compute_ncc_impl image2 image1.
Proof.
  unfold compute_ncc_impl. rewrite np_broadcast_flip.
  f_equal. apply np_broadcast_ext. intros ra rb.
  rewrite np_broadcast_flip. apply np_broadcast_ext. intros u v.
  rewrite np_broadcast_flip. apply np_broadcast_ext. intros p q.
  simpl. f_equal. lra.
Qed.
(** *** Gain and offset of the image intensities *)

Lemma dim1_map2d {A B : Type} (f : A → B) (a : list (list A)) :
  dim1 (map2d f a) = dim1 a.
Proof. destruct a as [|row a]; [done|]. unfold dim1. simpl. apply length_fmap. Qed.

Lemma dim2_map3d {A B : Type} (f : A → B) (a : list (list (list A))) :
  dim2 (map3d f a) = dim2 a.
Proof.
  destruct a as [|row a]; [done|]. unfold dim2. simpl.
  destruct row as [|px row]; [done|]. unfold dim1. simpl. apply length_fmap.
Qed.

Lemma map3d_lookup_total (f : R → R) (image : list (list (list R)))
    (h w c i j k : nat) :
  shaped3 h w c image → (i < h)%nat → (j < w)%nat → (k < c)%nat →
  ((map3d f image !!! i) !!! j) !!! k = f (((image !!! i) !!! j) !!! k).
Proof.
  intros Himg Hi Hj Hk.
  destruct (shaped3_lookup h w c image i j Himg Hi Hj)
    as (row & px & Hrow & Hpx & Hw & Hc).
  unfold map3d, map2d.
  rewrite (list_lookup_total_correct _ _ _ Hrow).
  erewrite (list_lookup_total_correct (_ <$> image) i);
    [|by rewrite list_lookup_fmap, Hrow].
  rewrite (list_lookup_total_correct _ _ _ Hpx).
  erewrite (list_lookup_total_correct (_ <$> row) j);
    [|by rewrite list_lookup_fmap, Hpx].
  apply list_lookup_total_fmap. lia.
Qed.

Lemma fmap_of_bind {A B C : Type} (f : B → C) (g : A → list B) (l : list A) :
  f <$> (l ≫= g) = l ≫= (λ a, f <$> g a).
Proof.
  induction l as [|a l IH]; [done|].
  by rewrite !bind_cons, fmap_app, IH.
Qed.

Lemma patch_vector_map3d (f : R → R) (image : list (list (list R)))
    (h w c r y x : nat) :
  shaped3 h w c image → window_inside h w r y x →
  patch_vector (map3d f image) c r y x = f <$> patch_vector image c r y x.
Proof.
  intros Himg (Hy1 & Hx1 & Hy2 & Hx2). unfold patch_vector.
  rewrite fmap_of_bind.
  apply Forall_bind_ext, Forall_forall. intros k Hk.
  apply list_elem_of_In, elem_of_range in Hk.
  rewrite fmap_of_bind.
  apply Forall_bind_ext, Forall_forall. intros dy Hdy.
  apply list_elem_of_In, elem_of_range in Hdy.
  rewrite fmap_of_bind.
  apply Forall_bind_ext, Forall_forall. intros dx Hdx.
  apply list_elem_of_In, elem_of_range in Hdx.
  simpl. f_equal.
  apply (map3d_lookup_total f image h w c); (done || lia).
Qed.

Lemma np_sum_affine (s b : R) (v : list R) :
  np_sum ((λ a, s * a + b) <$> v)
  = s * np_sum v + IZR (Z.of_nat (length v)) * b.
Proof.
  induction v as [|a v IH].
  - rewrite fmap_nil, np_sum_nil. simpl. change (Z.of_nat 0) with 0%Z. lra.
  - rewrite fmap_cons, !np_sum_cons, IH.
    cbn [length]. rewrite Nat2Z.inj_succ, succ_IZR. lra.
Qed.

Lemma ncc_center_affine (s b : R) (v : list R) :
  ncc_center ((λ a, s * a + b) <$> v) = (λ a, s * a) <$> ncc_center v.
Proof.
  destruct v as [|a0 v0]; [done|].
  set (v := a0 :: v0).
  assert (Hn : IZR (Z.of_nat (length v)) ≠ 0)
    by (apply not_0_IZR; unfold v; simpl; lia).
  unfold ncc_center, np_mean.
  rewrite length_fmap, np_sum_affine, <- !list_fmap_compose.
  apply list_fmap_ext. intros _ a _. simpl. field. done.
Qed.

Lemma np_norm_scale (s : R) (u : list R) :
  0 <= s → np_norm ((λ a, s * a) <$> u) = s * np_norm u.
Proof.
  intros Hs. unfold np_norm. simpl. rewrite <- list_fmap_compose.
  assert (Hsum : np_sum (((λ x, x * x) ∘ (λ a, s * a)) <$> u)
                 = s * s * np_sum ((λ a, a * a) <$> u)).
  { induction u as [|a u IH].
    - rewrite !fmap_nil, np_sum_nil. lra.
    - rewrite !fmap_cons, !np_sum_cons, IH. simpl. lra. }
  rewrite Hsum, sqrt_mult_alt by nra.
  by rewrite sqrt_square.
Qed.

Lemma ncc_unit_scale (s : R) (u : list R) :
  0 < s → ncc_unit ((λ a, s * a) <$> u) = ncc_unit u.
Proof.
  intros Hs. unfold ncc_unit.
  rewrite np_norm_scale, !seqb_R by lra.
  destruct (Req_dec (np_norm u) 0) as [Hz|Hnz].
  - rewrite Hz, Rmult_0_r, bool_decide_true by done.
    apply np_norm_zero in Hz.
    rewrite <- list_fmap_compose. apply list_fmap_ext. intros i a Ha.
    rewrite (Forall_lookup_1 _ _ _ _ Hz Ha). simpl. lra.
  - assert (Hsn : s * np_norm u ≠ 0)
      by (apply Rmult_integral_contrapositive_currified; lra).
    rewrite !bool_decide_false by done.
    rewrite <- list_fmap_compose. apply list_fmap_ext. intros i a Ha.
    simpl. field. split; [done | lra].
Qed.

(** X4: the feature vectors do not change when every sample of the image
    is multiplied by a positive gain and shifted by an offset. *)
Theorem preprocess_ncc_gain_offset (image : list (list (list R)))
    (h w c : nat) (ncc_size : Z) (s b : R) :
  shaped3 h w c image → (0 < ncc_size)%Z → Z.odd ncc_size = true → 0 < s →
  preprocess_ncc_impl (map3d (λ a, s * a + b) image) ncc_size
  = preprocess_ncc_impl image ncc_size.
Proof.
  intros Himg Hpos Hodd Hs.
  set (f := λ a, s * a + b).
  assert (Himg' : shaped3 h w c (map3d f image)).
  { apply (pixels_map2d h w (λ px : list R, length px = c)); [done|].
    intros px Hpx. by rewrite length_fmap. }
  rewrite (odd_size ncc_size Hpos Hodd).
  set (r := Z.to_nat (ncc_size `div` 2)).
  rewrite (preprocess_ncc_odd _ h w c r Himg').
  rewrite (preprocess_ncc_odd _ h w c r Himg).
  f_equal. unfold ncc_filled.
  assert (Hl : length (map3d f image) = length image)
    by (unfold map3d, map2d; apply length_fmap).
  assert (Hd1 : dim1 (map3d f image) = dim1 image) by apply dim1_map2d.
  rewrite Hl, Hd1, dim2_map3d.
  pose proof (shaped3_own_dims _ _ _ _ Himg) as Hown.
  set (h0 := length image) in *. set (w0 := dim1 image) in *.
  set (c0 := dim2 image) in *.
  unfold map2d. rewrite !fmap_imap.
  apply imap_ext. intros y row _. simpl. rewrite !fmap_imap.
  apply imap_ext. intros x v _. simpl.
  case_decide as Hin; [|done].
  rewrite (patch_vector_map3d f image h0 w0 c0) by done.
  unfold f. by rewrite ncc_center_affine, ncc_unit_scale.
Qed.

Lemma preprocess_ncc_gain_offset_witness :
  preprocess_ncc_impl (map3d (λ a, 2 * a + 5) [[[1; 3]]]) 1
  = preprocess_ncc_impl [[[1; 3]]] 1.
Proof.
  apply (preprocess_ncc_gain_offset [[[1; 3]]] 1 1 2 1 2 5).
  - split; [reflexivity|]. repeat constructor.
  - lia.
  - reflexivity.
  - lra.
Defined.
End NCCFurther.

(** *** Even patch sizes *)

Lemma for_in_skip {St : Type} (l : list nat) (body : nat → St → option St)
    (s : St) :
  (∀ i, i ∈ l → body i s = Some s) → for_in l body s = Some s.
Proof.
  induction l as [|i l IH]; intros Hb; simpl; [done|].
  rewrite Hb by left. simpl. apply IH. intros j Hj. apply Hb. by right.
Qed.

(** A loop raises when one of its iterations does, the earlier ones
    having left the state alone. *)
Lemma for_in_raises {St : Type} (n i : nat) (body : nat → St → option St)
    (s : St) :
  (i < n)%nat → (∀ j, (j < i)%nat → body j s = Some s) → body i s = None →
  for_in (range n) body s = None.
Proof.
  intros Hi Hskip Hfail. unfold range.
  replace n with (i + S (n - i - 1))%nat by lia.
  rewrite seq_app, for_in_app.
  rewrite for_in_skip.
  - simpl. by rewrite Hfail.
  - intros j Hj. apply Hskip. apply elem_of_seq in Hj. lia.
Qed.

Section NCCEven.
Context {F : Type} `{Scalar F}.

(** X3: an even patch size makes the call raise as soon as the image
    has room for one whole window: the window read has
    [ncc_size + 1] rows and columns and does not fit the [ncc_size^2]
    places of its channel block. *)
Theorem preprocess_ncc_even_size_raises (image : list (list (list F)))
    (h w c : nat) (ncc_size : Z) :
  shaped3 h w c image → (0 < ncc_size)%Z → Z.even ncc_size = true →
  (ncc_size < Z.of_nat h)%Z → (ncc_size < Z.of_nat w)%Z → (0 < c)%nat →
  preprocess_ncc_impl image ncc_size = None.
Proof.
  intros Himg Hpos Heven Hh Hw Hc.
  set (r := Z.to_nat (ncc_size `div` 2)).
  assert (Hn : ncc_size = (2 * Z.of_nat r)%Z).
  { unfold r. rewrite (Z.div_mod ncc_size 2) at 1 by lia.
    rewrite Zmod_even, Heven.
    assert (0 ≤ ncc_size `div` 2)%Z by (apply Z.div_pos; lia). lia. }
  assert (Hr : (0 < r)%nat) by lia.
  assert (Hhalf : (ncc_size `div` 2 = Z.of_nat r)%Z).
  { rewrite Hn. rewrite Z.mul_comm. apply Z.div_mul. lia. }
  destruct (shaped3_dims h w c image Himg) as (Eh & Ew & Ec); [lia..|].
  unfold preprocess_ncc_impl.
  enough (Hp : ncc_patches image ncc_size = None) by (by rewrite Hp).
  unfold ncc_patches. rewrite Eh, Ew, Ec, Hhalf.
  set (m := Z.to_nat (Z.of_nat c * ncc_size * ncc_size)).
  assert (Hcond : ∀ y x : nat, (y < r ∨ x < r)%nat →
    bool_decide (Z.of_nat y + - Z.of_nat r >= 0)%Z &&
    bool_decide (Z.of_nat x + - Z.of_nat r >= 0)%Z &&
    bool_decide (Z.of_nat y + Z.of_nat r < Z.of_nat h)%Z &&
    bool_decide (Z.of_nat x + Z.of_nat r < Z.of_nat w)%Z = false).
  { intros y x Hyx. rewrite ncc_condition.
    apply bool_decide_eq_false. unfold window_inside. lia. }
  apply (for_in_raises h r); [lia| |].
  { intros y Hy. apply for_in_skip. intros x _.
    by rewrite Hcond by (left; done). }
  apply (for_in_raises w r); [lia| |].
  { intros x Hx. by rewrite Hcond by (right; done). }
  rewrite ncc_condition, bool_decide_true by (unfold window_inside; lia).
  destruct c as [|c']; [lia|]. unfold range. simpl.
  enough (Hset : set_slice_at r r (Z.of_nat 0 * ncc_size * ncc_size)
                   ((Z.of_nat 0 + 1) * ncc_size * ncc_size)
                   (concat (ncc_patch image r r (- Z.of_nat r) (Z.of_nat r) 0))
                   (np_zeros3 h w m) = None) by (by rewrite Hset).
  rewrite (ncc_patch_flat image h w (S c') r r r 0 Himg)
    by (unfold window_inside; lia).
  unfold set_slice_at, at_index.
  pose proof (at2_zeros (F := F) h w m r r ltac:(lia) ltac:(lia)) as Hz.
  apply at2_Some in Hz as (row & Hrow & Hcell).
  rewrite Hrow. simpl. rewrite Hcell. simpl.
  enough (Hs : ∀ src : list F,
            length src = ((2 * r + 1) * (2 * r + 1))%nat →
            py_set_slice (Z.of_nat 0 * ncc_size * ncc_size)
              ((Z.of_nat 0 + 1) * ncc_size * ncc_size) src (np_zeros1 m)
            = None).
  { rewrite Hs; [done|].
    rewrite (length_bind_const _ _ (2 * r + 1)), length_range; [done|].
    intros dy _.
    rewrite (length_bind_const _ _ 1), length_range; [lia|done]. }
  intros src Hsrc. unfold py_set_slice, np_zeros1.
  rewrite length_replicate.
  change (Z.of_nat 0) with 0%Z.
  assert (Hm : Z.of_nat m = (Z.of_nat (S c') * ncc_size * ncc_size)%Z)
    by (unfold m; nia).
  assert (Ha : slice_bound (Z.of_nat m) (0 * ncc_size * ncc_size) = 0%nat).
  { unfold slice_bound. rewrite Hm. simpl. lia. }
  assert (Hb : slice_bound (Z.of_nat m) ((0 + 1) * ncc_size * ncc_size)
               = (2 * r * (2 * r))%nat).
  { unfold slice_bound. rewrite Hm.
    destruct ((0 + 1) * ncc_size * ncc_size <? 0)%Z eqn:Hneg; [nia|].
    rewrite Z.min_r by nia. nia. }
  rewrite Ha, Hb. simpl "-".
  rewrite decide_False by (rewrite Hsrc; nia).
  destruct src as [|v0 [|v1 src]]; [done| |done].
  simpl in Hsrc. nia.
Qed.

End NCCEven.

Lemma preprocess_ncc_even_size_raises_witness :
  preprocess_ncc_impl (F := R)
    [[[1]; [2]; [3]]; [[4]; [5]; [6]]; [[7]; [8]; [9]]]%R 2 = None.
Proof.
  apply (preprocess_ncc_even_size_raises _ 3 3 1 2).
  - split; [reflexivity|]. repeat constructor.
  - lia.
  - reflexivity.
  - lia.
  - lia.
  - lia.
Defined.

Section NCCEdges.
Local Open Scope R_scope.

(** X18: when no window fits into the image, the result is the zero
    array, for every positive patch size, even or odd. *)
Theorem preprocess_ncc_no_window (image : list (list (list R)))
    (h w c : nat) (ncc_size : Z) :
  shaped3 h w c image → (0 < h)%nat → (0 < w)%nat → (0 < ncc_size)%Z →
  (Z.of_nat h ≤ 2 * (ncc_size `div` 2) ∨ Z.of_nat w ≤ 2 * (ncc_size `div` 2))%Z →
  preprocess_ncc_impl image ncc_size
  = Some (np_zeros3 h w (Z.to_nat (Z.of_nat c * ncc_size * ncc_size))).
Proof.
  intros Himg Hh Hw Hpos Hsmall.
  destruct (shaped3_dims h w c image Himg) as (Eh & Ew & Ec); [lia..|].
  assert (Hr : (0 ≤ ncc_size `div` 2)%Z) by (apply Z.div_pos; lia).
  unfold preprocess_ncc_impl.
  assert (Hp : ncc_patches image ncc_size
               = Some (np_zeros3 h w
                         (Z.to_nat (Z.of_nat c * ncc_size * ncc_size)))).
  { unfold ncc_patches. rewrite Eh, Ew, Ec.
    apply for_in_skip. intros y Hy. apply elem_of_range in Hy.
    apply for_in_skip. intros x Hx. apply elem_of_range in Hx.
    repeat case_bool_decide; simpl; try done. lia. }
  rewrite Hp. cbn [mbind option_bind]. f_equal.
  rewrite ncc_divide_cells, ncc_subtract_mean_cells.
  unfold np_zeros3, np_zeros1, map2d. simpl.
  rewrite !fmap_replicate.
  by rewrite ncc_center_zeros, ncc_unit_zeros.
Qed.

Lemma preprocess_ncc_no_window_witness :
  preprocess_ncc_impl [[[1]; [2]]; [[3]; [4]]] 2
  = Some (np_zeros3 2 2 (Z.to_nat (Z.of_nat 1 * 2 * 2))).
Proof.
  apply (preprocess_ncc_no_window [[[1]; [2]]; [[3]; [4]]] 2 2 1 2).
  - split; [reflexivity|]. repeat constructor.
  - lia.
  - lia.
  - lia.
  - left. reflexivity.
Defined.

(** X19: two arrays of one height and width whose channel counts differ,
    neither being one, cannot be multiplied: the call raises. *)
Theorem compute_ncc_channels_raise (image1 image2 : list (list (list R)))
    (h w c1 c2 : nat) :
  shaped3 h w c1 image1 → shaped3 h w c2 image2 →
  (0 < h)%nat → (0 < w)%nat → c1 ≠ c2 → c1 ≠ 1%nat → c2 ≠ 1%nat →
  compute_ncc_impl image1 image2 = None.
Proof.
  intros H1 H2 Hh Hw Hc Hc1 Hc2.
  destruct (shaped3_lookup h w c1 image1 0 0 H1 Hh Hw)
    as (ra & u & Hra & Hu & Hwa & Hlu).
  destruct (shaped3_lookup h w c2 image2 0 0 H2 Hh Hw)
    as (rb & v & Hrb & Hv & Hwb & Hlv).
  destruct H1 as [Hl1 _], H2 as [Hl2 _].
  unfold compute_ncc_impl.
  match goal with
  | |- ?m ≫= _ = None => enough (Hb : m = None) by (by rewrite Hb)
  end.
  unfold np_broadcast at 1. rewrite decide_True by lia.
  apply mapM_None_2.
  destruct image1 as [|ra' image1], image2 as [|rb' image2]; try done.
  injection Hra as ->. injection Hrb as ->.
  apply Exists_cons_hd. simpl.
  unfold np_broadcast at 1. rewrite decide_True by lia.
  apply mapM_None_2.
  destruct ra as [|u' ra], rb as [|v' rb]; try done.
  injection Hu as ->. injection Hv as ->.
  apply Exists_cons_hd. simpl.
  unfold np_broadcast. rewrite decide_False by lia.
  destruct u as [|? [|? ?]], v as [|? [|? ?]]; simpl in *; done.
Qed.

Lemma compute_ncc_channels_raise_witness :
  compute_ncc_impl [[[1; 2; 3]]] [[[3; 4]]] = None.
Proof.
  apply (compute_ncc_channels_raise [[[1; 2; 3]]] [[[3; 4]]] 1 1 3 2).
  - split; [reflexivity|]. repeat constructor.
  - split; [reflexivity|]. repeat constructor.
  - lia.
  - lia.
  - lia.
  - lia.
  - lia.
Defined.
End NCCEdges.

(** ** Further properties of [pyrdown_impl] and [pyrup_impl] *)

Section PyramidRange.
Local Open Scope R_scope.

(** The weights of the kernel over 16 are positive and sum to one: the
    filtered value is a mean of the samples it reads. *)
Lemma blur5_16_range (f : Z → Z → R) (lo hi : R) (y x : Z) :
  (∀ y' x', lo <= f y' x' <= hi) → lo <= blur5 16 f y x <= hi.
Proof.
  intros Hf. unfold blur5, binomial5, np_sum. simpl.
  repeat match goal with
  | |- context [f ?a ?b] =>
      let H := fresh in
      pose proof (Hf a b) as H; revert H; generalize (f a b); intros ? ?
  end.
  lra.
Qed.

Lemma mirrored_range (image : list (list (list R))) (h w c k : nat)
    (lo hi : R) (y x : Z) :
  (0 < h)%nat → (0 < w)%nat → (k < c)%nat →
  (∀ i j k, (i < h)%nat → (j < w)%nat → (k < c)%nat →
     lo <= ((image !!! i) !!! j) !!! k <= hi) →
  lo <= mirrored image h w k y x <= hi.
Proof.
  intros Hh Hw Hk Hb. unfold mirrored.
  apply Hb; [apply mirror_index_lt | apply mirror_index_lt | ]; done.
Qed.

(** X8: in exact arithmetic [pyrdown_impl] keeps the range of the
    samples: when every sample of a non-empty image lies between [lo]
    and [hi], so does every sample of the result, and a constant image
    stays constant.  (In binary64 the rounded sums can leave the range
    by a few units in the last place.) *)
Theorem pyrdown_impl_range (image : list (list (list R))) (h w c : nat)
    (lo hi : R) :
  shaped3 h w c image → (0 < h)%nat → (0 < w)%nat → (0 < c)%nat →
  (∀ i j k, (i < h)%nat → (j < w)%nat → (k < c)%nat →
     lo <= ((image !!! i) !!! j) !!! k <= hi) →
  ∃ down, pyrdown_impl (Nd3 image) = Some (Nd3 down) ∧
    ∀ i j k, (i < (h + 1) `div` 2)%nat → (j < (w + 1) `div` 2)%nat →
      (k < c)%nat →
      lo <= ((down !!! i) !!! j) !!! k <= hi.
Proof.
  intros Himg Hh Hw Hc Hb.
  rewrite (pyrdown_impl_pixels image h w c) by done.
  eexists. split; [done|].
  intros i j k Hi Hj Hk. rewrite stride2_2d_at.
  assert (H2i : (2 * i < h)%nat).
  { pose proof (Nat.div_mod_eq (h + 1) 2).
    pose proof (Nat.mod_upper_bound (h + 1) 2). lia. }
  assert (H2j : (2 * j < w)%nat).
  { pose proof (Nat.div_mod_eq (w + 1) 2).
    pose proof (Nat.mod_upper_bound (w + 1) 2). lia. }
  rewrite (separable_blur_at image 16 h w c (2 * i) (2 * j) k Himg H2i H2j Hk).
  apply blur5_16_range. intros y' x'.
  by apply (mirrored_range image h w c).
Qed.

Lemma pyrdown_impl_range_witness :
  let image := [[[1]; [2]; [3]]; [[4]; [5]; [6]]] in
  ∃ down, pyrdown_impl (Nd3 image) = Some (Nd3 down) ∧
    ∀ i j k, (i < (2 + 1) `div` 2)%nat → (j < (3 + 1) `div` 2)%nat →
      (k < 1)%nat →
      1 <= ((down !!! i) !!! j) !!! k <= 6.
Proof.
  apply (pyrdown_impl_range [[[1]; [2]; [3]]; [[4]; [5]; [6]]] 2 3 1 1 6).
  - split; [reflexivity|]. repeat constructor.
  - lia.
  - lia.
  - lia.
  - intros i j k Hi Hj Hk.
    destruct i as [|[|i]]; [| |lia];
      (destruct j as [|[|[|j]]]; [| | |lia]);
      (destruct k as [|k]; [|lia]); simpl; lra.
Defined.
End PyramidRange.

(** *** Zero stuffing *)

Lemma even_of_nat (n : nat) : Z.even (Z.of_nat n) = Nat.even n.
Proof.
  enough (Hn : Z.even (Z.of_nat n) = Nat.even n
               ∧ Z.even (Z.of_nat (S n)) = Nat.even (S n)) by apply Hn.
  induction n as [|n [IH1 IH2]]; [done|]. split; [done|].
  replace (Z.of_nat (S (S n))) with (Z.of_nat n + 2 * 1)%Z by lia.
  by rewrite Z.even_add_mul_2.
Qed.

(** Reflection at the borders keeps the parity of an index. *)
Lemma mirror_parity (p len : Z) :
  (2 ≤ len)%Z → Z.even (mirror p len) = Z.even p.
Proof.
  intros Hlen.
  destruct (mirror_decompose p len) as (k & q & Hp & Hq); [lia|].
  rewrite (mirror_unique p len k q) by lia.
  assert (Hpq : Z.even p = Z.even q).
  { replace p with (q + 2 * ((len - 1) * k))%Z by lia.
    apply Z.even_add_mul_2. }
  rewrite Hpq. destruct (q <? len)%Z; [done|].
  replace (2 * (len - 1) - q)%Z with (- q + 2 * (len - 1))%Z by lia.
  by rewrite Z.even_add_mul_2, Z.even_opp.
Qed.

Lemma fmap_range_lookup_total {A : Type} `{Inhabited A} (f : nat → A)
    (n i : nat) :
  (i < n)%nat → (f <$> range n) !!! i = f i.
Proof.
  intros Hi. unfold range.
  by rewrite list_lookup_total_alt, list_lookup_fmap, lookup_seq_lt by lia.
Qed.

Section ZeroStuffed.
Context {F : Type} `{Scalar F}.

Lemma zero_stuffed_at (image : list (list (list F))) (h w y x : nat) :
  (y < 2 * h)%nat → (x < 2 * w)%nat →
  (zero_stuffed image h w !!! y) !!! x
  = if Nat.even y && Nat.even x
    then (image !!! (y `div` 2)%nat) !!! (x `div` 2)%nat
    else np_zeros1 (dim2 image).
Proof.
  intros Hy Hx. unfold zero_stuffed.
  rewrite (fmap_range_lookup_total _ (2 * h) y Hy).
  by rewrite (fmap_range_lookup_total _ (2 * w) x Hx).
Qed.
End ZeroStuffed.

Section PyramidUp.
Local Open Scope R_scope.

(** The zero-stuffed image, mirrored: a sample of the input at the even
    coordinates, zero elsewhere. *)
Lemma mirrored_zero_stuffed (image : list (list (list R))) (h w c k : nat)
    (lo hi : R) (y x : Z) :
  shaped3 h w c image → (0 < h)%nat → (0 < w)%nat → (k < c)%nat →
  (∀ i j k, (i < h)%nat → (j < w)%nat → (k < c)%nat →
     lo <= ((image !!! i) !!! j) !!! k <= hi) →
  let v := mirrored (zero_stuffed image h w) (2 * h) (2 * w) k y x in
  (Z.even y && Z.even x = true → lo <= v <= hi) ∧
  (Z.even y && Z.even x = false → v = 0).
Proof.
  intros Himg Hh Hw Hk Hb v. unfold v, mirrored.
  pose proof (mirror_range y (Z.of_nat (2 * h)) ltac:(lia)) as Hy.
  pose proof (mirror_range x (Z.of_nat (2 * w)) ltac:(lia)) as Hx.
  rewrite zero_stuffed_at by lia.
  rewrite <- !even_of_nat, !Z2Nat.id by lia.
  rewrite !mirror_parity by lia.
  destruct (shaped3_dims h w c image Himg) as (_ & _ & Ec); [lia..|].
  split; intros ->.
  - apply Hb; [| |done]; apply Nat.Div0.div_lt_upper_bound; lia.
  - rewrite Ec. unfold np_zeros1. by rewrite lookup_total_replicate_2.
Qed.

(** On a zero-stuffed signal the weights of the kernel over 8 that meet
    a sample sum to one along each axis, [1 + 6 + 1] at an even
    coordinate and [4 + 4] at an odd one. *)
Lemma blur5_8_range (f : Z → Z → R) (lo hi : R) (y x : Z) :
  (∀ y' x', (Z.even y' && Z.even x' = true → lo <= f y' x' <= hi) ∧
            (Z.even y' && Z.even x' = false → f y' x' = 0)) →
  lo <= blur5 8 f y x <= hi.
Proof.
  intros Hf.
  assert (Ev : ∀ p a, Z.even (p - (a - 2)) = Bool.eqb (Z.even p) (Z.even a)).
  { intros p a. rewrite !Z.even_sub. by destruct (Z.even p), (Z.even a). }
  unfold blur5, binomial5, np_sum. simpl.
  destruct (Z.even y) eqn:Hy, (Z.even x) eqn:Hx;
    repeat match goal with
    | |- context [f ?a ?b] =>
        let H := fresh "H" in
        let Hin := fresh "Hin" in
        let Hout := fresh "Hout" in
        pose proof (Hf a b) as H;
        rewrite !Ev, Hy, Hx in H; simpl in H;
        destruct H as [Hin Hout];
        first [ specialize (Hin eq_refl); clear Hout; revert Hin
              | specialize (Hout eq_refl); clear Hin; revert Hout ];
        generalize (f a b); intros ? ?
    end;
    lra.
Qed.

(** X9: in exact arithmetic [pyrup_impl] keeps the range of the samples
    as well, the inserted zeros notwithstanding: when every sample of a
    non-empty image lies between [lo] and [hi], so does every sample of
    the result.  (In binary64, again up to rounding only.) *)
Theorem pyrup_impl_range (image : list (list (list R))) (h w c : nat)
    (lo hi : R) :
  shaped3 h w c image → (0 < h)%nat → (0 < w)%nat → (0 < c)%nat →
  (∀ i j k, (i < h)%nat → (j < w)%nat → (k < c)%nat →
     lo <= ((image !!! i) !!! j) !!! k <= hi) →
  ∃ up, pyrup_impl (Nd3 image) = Some (Nd3 up) ∧
    ∀ i j k, (i < 2 * h)%nat → (j < 2 * w)%nat → (k < c)%nat →
      lo <= ((up !!! i) !!! j) !!! k <= hi.
Proof.
  intros Himg Hh Hw Hc Hb.
  rewrite (pyrup_impl_pixels image h w c) by done.
  pose proof (zero_stuffed_shape image h w c Himg Hh Hw) as Hz.
  eexists. split; [done|].
  intros i j k Hi Hj Hk.
  rewrite (separable_blur_at (zero_stuffed image h w) 8 (2 * h) (2 * w) c
             i j k Hz Hi Hj Hk).
  apply blur5_8_range. intros y' x'.
  by apply (mirrored_zero_stuffed image h w c).
Qed.

Lemma pyrup_impl_range_witness :
  let image := [[[1]; [2]; [3]]; [[4]; [5]; [6]]] in
  ∃ up, pyrup_impl (Nd3 image) = Some (Nd3 up) ∧
    ∀ i j k, (i < 2 * 2)%nat → (j < 2 * 3)%nat → (k < 1)%nat →
      1 <= ((up !!! i) !!! j) !!! k <= 6.
Proof.
  apply (pyrup_impl_range [[[1]; [2]; [3]]; [[4]; [5]; [6]]] 2 3 1 1 6).
  - split; [reflexivity|]. repeat constructor.
  - lia.
  - lia.
  - lia.
  - intros i j k Hi Hj Hk.
    destruct i as [|[|i]]; [| |lia];
      (destruct j as [|[|[|j]]]; [| | |lia]);
      (destruct k as [|k]; [|lia]); simpl; lra.
Defined.

(** X10: going up one level and down again gives back the shape of the
    image; the other way round an odd extent is rounded up to the next
    even one. *)
Theorem pyrdown_pyrup_shape (image : list (list (list R))) (h w c : nat) :
  shaped3 h w c image → (0 < h)%nat → (0 < w)%nat → (0 < c)%nat →
  (∃ up down,
     pyrup_impl (Nd3 image) = Some (Nd3 up) ∧
     pyrdown_impl (Nd3 up) = Some (Nd3 down) ∧
     shaped3 h w c down) ∧
  (∃ down up,
     pyrdown_impl (Nd3 image) = Some (Nd3 down) ∧
     pyrup_impl (Nd3 down) = Some (Nd3 up) ∧
     shaped3 (h + h `mod` 2) (w + w `mod` 2) c up).
Proof.
  intros Himg Hh Hw Hc.
  assert (Hhalf : ∀ n : nat, ((2 * n + 1) `div` 2 = n)%nat).
  { intros n. pose proof (Nat.div_mod_eq (2 * n + 1) 2).
    pose proof (Nat.mod_upper_bound (2 * n + 1) 2). lia. }
  assert (Hceil : ∀ n : nat, (2 * ((n + 1) `div` 2) = n + n `mod` 2)%nat).
  { intros n. pose proof (Nat.div_mod_eq (n + 1) 2).
    pose proof (Nat.mod_upper_bound (n + 1) 2).
    pose proof (Nat.div_mod_eq n 2).
    pose proof (Nat.mod_upper_bound n 2).
    assert (((n + 1) `mod` 2 = 1 - n `mod` 2)%nat); [|lia].
    rewrite <- Nat.Div0.add_mod_idemp_l.
    destruct (n `mod` 2)%nat as [|[|?]]; [done|done|lia]. }
  split.
  - rewrite (pyrup_impl_pixels image h w c) by done.
    pose proof (zero_stuffed_shape image h w c Himg Hh Hw) as Hz.
    set (up := filter2D_pixels _ _).
    assert (Hup : shaped3 (2 * h) (2 * w) c up)
      by (by do 2 apply filter2D_pixels_shape).
    exists up. rewrite (pyrdown_impl_pixels up (2 * h) (2 * w) c) by (done || lia).
    eexists. split; [done|]. split; [done|].
    rewrite <- (Hhalf h) at 1. rewrite <- (Hhalf w) at 1.
    apply stride2_2d_shape. by do 2 apply filter2D_pixels_shape.
  - rewrite (pyrdown_impl_pixels image h w c) by done.
    set (down := stride2_2d _).
    assert (Hdown : shaped3 ((h + 1) `div` 2) ((w + 1) `div` 2) c down).
    { apply stride2_2d_shape. by do 2 apply filter2D_pixels_shape. }
    assert (Hh' : (0 < (h + 1) `div` 2)%nat) by (specialize (Hceil h); lia).
    assert (Hw' : (0 < (w + 1) `div` 2)%nat) by (specialize (Hceil w); lia).
    exists down. rewrite (pyrup_impl_pixels down _ _ c Hdown Hh' Hw' Hc).
    eexists. split; [done|]. split; [done|].
    rewrite <- (Hceil h), <- (Hceil w).
    do 2 apply filter2D_pixels_shape.
    by apply zero_stuffed_shape.
Qed.

Lemma pyrdown_pyrup_shape_witness :
  let image := [[[1]; [2]; [3]]; [[4]; [5]; [6]]] in
  (∃ up down,
     pyrup_impl (Nd3 image) = Some (Nd3 up) ∧
     pyrdown_impl (Nd3 up) = Some (Nd3 down) ∧
     shaped3 2 3 1 down) ∧
  (∃ down up,
     pyrdown_impl (Nd3 image) = Some (Nd3 down) ∧
     pyrup_impl (Nd3 down) = Some (Nd3 up) ∧
     shaped3 (2 + 2 `mod` 2) (3 + 3 `mod` 2) 1 up).
Proof.
  apply (pyrdown_pyrup_shape [[[1]; [2]; [3]]; [[4]; [5]; [6]]] 2 3 1).
  - split; [reflexivity|]. repeat constructor.
  - lia.
  - lia.
  - lia.
Defined.
End PyramidUp.

(** ** Further properties of [project_impl] and [unproject_corners_impl] *)

Section CameraRoundTrip.
Local Open Scope R_scope.

(** The four corners as the kernel computes them. *)
Lemma unproject_corners_cells (K Ki Rt : list (list R))
    (width height depth : R) :
  shaped2 3 3 K → shaped2 3 3 Ki → shaped2 3 4 Rt →
  np_matmul Ki K = Some identity3 →
  unproject_corners_impl K width height depth Rt
  = Some [[world_corner Ki Rt depth 0 0; world_corner Ki Rt depth width 0];
          [world_corner Ki Rt depth 0 height;
           world_corner Ki Rt depth width height]].
Proof.
  intros HK HKi HRt Hinv.
  unfold unproject_corners_impl.
  rewrite (np_linalg_inv_unique K Ki HK HKi Hinv). simpl.
  destruct (shaped2_3_3 Ki HKi) as (a & b & c & d & e & f & g & h & i & ->).
  destruct (shaped2_3_4 Rt HRt)
    as (r00 & r01 & r02 & t0 & r10 & r11 & r12 & t1
        & r20 & r21 & r22 & t2 & ->).
  unfold np_tensordot3, np_vecmat, np_matvec, np_transpose, np_dot, np_sum,
    world_corner, ray_coord, entry.
  simpl.
  do 2 f_equal; [|f_equal]; (f_equal; [|f_equal]);
    (f_equal; [|f_equal; [|f_equal]]); ring.
Qed.

(** A left inverse of a 3 x 3 matrix is a right inverse. *)
Lemma np_matmul_inverse_comm (K Ki : list (list R)) :
  shaped2 3 3 K → shaped2 3 3 Ki →
  np_matmul Ki K = Some identity3 → np_matmul K Ki = Some identity3.
Proof.
  intros HK HKi Hinv.
  pose proof (np_linalg_inv_unique K Ki HK HKi Hinv) as Hcof.
  destruct (shaped2_3_3 K HK) as (a & b & c & d & e & f & g & h & i & ->).
  unfold np_linalg_inv in Hcof. simpl in Hcof.
  case_bool_decide as Hdet; [done|]. injection Hcof as <-.
  unfold np_matmul, np_vecmat, np_transpose, np_dot, np_sum, identity3.
  simpl.
  do 2 f_equal; [|f_equal; [|f_equal]];
    (f_equal; [|f_equal; [|f_equal]]); field; exact Hdet.
Qed.

(** Moving a camera-space point [q] to the world by [Rᵀ q − Rᵀ t] and
    back by [R p + t] returns [q] when the rows of [R] are orthonormal. *)
Lemma rotation_round_trip (r00 r01 r02 r10 r11 r12 r20 r21 r22 : R)
    (t0 t1 t2 q0 q1 q2 : R) :
  r00 * r00 + r01 * r01 + r02 * r02 = 1 →
  r00 * r10 + r01 * r11 + r02 * r12 = 0 →
  r00 * r20 + r01 * r21 + r02 * r22 = 0 →
  r10 * r10 + r11 * r11 + r12 * r12 = 1 →
  r10 * r20 + r11 * r21 + r12 * r22 = 0 →
  r20 * r20 + r21 * r21 + r22 * r22 = 1 →
  let p0 := r00 * q0 + r10 * q1 + r20 * q2 - (r00 * t0 + r10 * t1 + r20 * t2) in
  let p1 := r01 * q0 + r11 * q1 + r21 * q2 - (r01 * t0 + r11 * t1 + r21 * t2) in
  let p2 := r02 * q0 + r12 * q1 + r22 * q2 - (r02 * t0 + r12 * t1 + r22 * t2) in
  r00 * p0 + r01 * p1 + r02 * p2 + t0 = q0 ∧
  r10 * p0 + r11 * p1 + r12 * p2 + t1 = q1 ∧
  r20 * p0 + r21 * p1 + r22 * p2 + t2 = q2.
Proof.
  intros H00 H01 H02 H11 H12 H22 p0 p1 p2. unfold p0, p1, p2.
  repeat split.
  - replace (_ + t0)
      with ((r00 * r00 + r01 * r01 + r02 * r02) * (q0 - t0)
            + (r00 * r10 + r01 * r11 + r02 * r12) * (q1 - t1)
            + (r00 * r20 + r01 * r21 + r02 * r22) * (q2 - t2) + t0) by ring.
    rewrite H00, H01, H02. ring.
  - replace (_ + t1)
      with ((r00 * r10 + r01 * r11 + r02 * r12) * (q0 - t0)
            + (r10 * r10 + r11 * r11 + r12 * r12) * (q1 - t1)
            + (r10 * r20 + r11 * r21 + r12 * r22) * (q2 - t2) + t1) by ring.
    rewrite H01, H11, H12. ring.
  - replace (_ + t2)
      with ((r00 * r20 + r01 * r21 + r02 * r22) * (q0 - t0)
            + (r10 * r20 + r11 * r21 + r12 * r22) * (q1 - t1)
            + (r20 * r20 + r21 * r21 + r22 * r22) * (q2 - t2) + t2) by ring.
    rewrite H02, H12, H22. ring.
Qed.
(** Projecting the world point of an image corner gives the corner
    back. *)
Lemma project_cell_world_corner (K Ki Rt : list (list R))
    (depth x y : R) (v : list R) :
  shaped2 3 3 K → shaped2 3 3 Ki → shaped2 3 4 Rt →
  np_matmul Ki K = Some identity3 →
  np_matmul (take 3 <$> Rt) (np_transpose (take 3 <$> Rt)) = Some identity3 →
  lit_1e_7 <= depth →
  project_cell K Rt (world_corner Ki Rt depth x y) v = [x; y].
Proof.
  intros HK HKi HRt Hinv Horth Hdepth.
  pose proof (np_matmul_inverse_comm K Ki HK HKi Hinv) as Hright.
  destruct (shaped2_3_3 K HK) as (a & b & c & d & e & f & g & h & i & ->).
  destruct (shaped2_3_3 Ki HKi)
    as (a' & b' & c' & d' & e' & f' & g' & h' & i' & ->).
  destruct (shaped2_3_4 Rt HRt)
    as (r00 & r01 & r02 & t0 & r10 & r11 & r12 & t1
        & r20 & r21 & r22 & t2 & ->).
  unfold np_matmul, np_vecmat, np_transpose, np_dot, np_sum, identity3
    in Hright, Horth.
  simpl in Hright, Horth.
  injection Hright as G00 G01 G02 G10 G11 G12 G20 G21 G22.
  injection Horth as H00 H01 H02 _ H11 H12 _ _ H22.
  set (q0 := depth * (a' * x + b' * y + c')).
  set (q1 := depth * (d' * x + e' * y + f')).
  set (q2 := depth * (g' * x + h' * y + i')).
  destruct (rotation_round_trip r00 r01 r02 r10 r11 r12 r20 r21 r22
              t0 t1 t2 q0 q1 q2) as (C0 & C1 & C2); try lra.
  assert (Hcam : (λ row, np_dot row
                    (world_corner [[a'; b'; c']; [d'; e'; f']; [g'; h'; i']]
                       [[r00; r01; r02; t0]; [r10; r11; r12; t1];
                        [r20; r21; r22; t2]] depth x y ++ [1]))
                 <$> [[r00; r01; r02; t0]; [r10; r11; r12; t1];
                      [r20; r21; r22; t2]]
                 = [q0; q1; q2]).
  { unfold world_corner, ray_coord, entry, np_dot, np_sum. simpl.
    fold q0 q1 q2.
    f_equal; [|f_equal; [|f_equal]].
    - etransitivity; [|exact C0]. ring.
    - etransitivity; [|exact C1]. ring.
    - etransitivity; [|exact C2]. ring. }
  unfold project_cell. change (sofZ 1) with 1. rewrite Hcam.
  assert (Hloc : (λ row, np_dot row [q0; q1; q2])
                 <$> [[a; b; c]; [d; e; f]; [g; h; i]]
                 = [depth * x; depth * y; depth]).
  { unfold np_dot, np_sum, q0, q1, q2. simpl.
    f_equal; [|f_equal; [|f_equal]].
    - replace (0 + _ + _ + _)
        with (depth * ((0 + a * a' + b * d' + c * g') * x
                       + (0 + a * b' + b * e' + c * h') * y
                       + (0 + a * c' + b * f' + c * i'))) by ring.
      rewrite G00, G01, G02. ring.
    - replace (0 + _ + _ + _)
        with (depth * ((0 + d * a' + e * d' + f * g') * x
                       + (0 + d * b' + e * e' + f * h') * y
                       + (0 + d * c' + e * f' + f * i'))) by ring.
      rewrite G10, G11, G12. ring.
    - replace (0 + _ + _ + _)
        with (depth * ((0 + g * a' + h * d' + i * g') * x
                       + (0 + g * b' + h * e' + i * h') * y
                       + (0 + g * c' + h * f' + i * i'))) by ring.
      rewrite G20, G21, G22. ring. }
  rewrite Hloc. simpl.
  pose proof lit_1e_7_bounds as Hlit.
  rewrite bool_decide_true by done.
  f_equal; [|f_equal]; field; lra.
Qed.

(** X11: in exact arithmetic, projecting the corners that
    [unproject_corners_impl] returns gives back the image corners
    [(0, 0)], [(width, 0)], [(0, height)] and [(width, height)], for
    invertible intrinsics, a rotation with orthonormal rows and a depth
    of at least the constant [1e-7] of line 175.  (In binary64 the
    corners come back up to rounding only.) *)
Theorem project_unproject_corners (K Ki Rt : list (list R))
    (width height depth : R) :
  shaped2 3 3 K → shaped2 3 3 Ki → shaped2 3 4 Rt →
  np_matmul Ki K = Some identity3 →
  np_matmul (take 3 <$> Rt) (np_transpose (take 3 <$> Rt)) = Some identity3 →
  lit_1e_7 <= depth →
  ∃ corners,
    unproject_corners_impl K width height depth Rt = Some corners ∧
    project_impl K Rt corners
    = Some [[[0; 0]; [width; 0]]; [[0; height]; [width; height]]].
Proof.
  intros HK HKi HRt Hinv Horth Hdepth.
  rewrite (unproject_corners_cells K Ki Rt width height depth) by done.
  eexists. split; [done|].
  rewrite (project_impl_cells K Rt _ 2 2 HK HRt).
  2:{ split; [done|]. repeat constructor. }
  simpl. by rewrite !(project_cell_world_corner K Ki Rt depth).
Qed.

Lemma project_unproject_corners_witness :
  let K := [[2; 0; 1]; [0; 2; 1]; [0; 0; 1]] in
  let Rt := [[0; 1; 0; 5]; [- 1; 0; 0; 6]; [0; 0; 1; 7]] in
  ∃ corners,
    unproject_corners_impl K 4 2 3 Rt = Some corners ∧
    project_impl K Rt corners
    = Some [[[0; 0]; [4; 0]]; [[0; 2]; [4; 2]]].
Proof.
  apply (project_unproject_corners
           [[2; 0; 1]; [0; 2; 1]; [0; 0; 1]]
           [[1 / 2; 0; - 1 / 2]; [0; 1 / 2; - 1 / 2]; [0; 0; 1]]
           [[0; 1; 0; 5]; [- 1; 0; 0; 6]; [0; 0; 1; 7]] 4 2 3).
  - split; [reflexivity|]. repeat constructor.
  - split; [reflexivity|]. repeat constructor.
  - split; [reflexivity|]. repeat constructor.
  - unfold np_matmul, np_vecmat, np_transpose, np_dot, np_sum, identity3.
    simpl. do 2 f_equal; [|f_equal; [|f_equal]];
      (f_equal; [|f_equal; [|f_equal]]); field.
  - unfold np_matmul, np_vecmat, np_transpose, np_dot, np_sum, identity3.
    simpl. do 2 f_equal; [|f_equal; [|f_equal]];
      (f_equal; [|f_equal; [|f_equal]]); ring.
  - pose proof lit_1e_7_bounds. lra.
Defined.

(** The camera-space coordinates of the world point of a corner are
    the scaled ray. *)
Lemma camera_world_corner (Ki Rt : list (list R)) (depth x y : R) :
  shaped2 3 3 Ki → shaped2 3 4 Rt →
  np_matmul (take 3 <$> Rt) (np_transpose (take 3 <$> Rt)) = Some identity3 →
  ∃ p0 p1 p2, world_corner Ki Rt depth x y = [p0; p1; p2] ∧
    ∀ i, (i < 3)%nat →
      camera_coord Rt p0 p1 p2 i = depth * ray_coord Ki x y i.
Proof.
  intros HKi HRt Horth.
  destruct (shaped2_3_3 Ki HKi)
    as (a' & b' & c' & d' & e' & f' & g' & h' & i' & ->).
  destruct (shaped2_3_4 Rt HRt)
    as (r00 & r01 & r02 & t0 & r10 & r11 & r12 & t1
        & r20 & r21 & r22 & t2 & ->).
  unfold np_matmul, np_vecmat, np_transpose, np_dot, np_sum, identity3 in Horth.
  simpl in Horth.
  injection Horth as H00 H01 H02 _ H11 H12 _ _ H22.
  set (q0 := depth * (a' * x + b' * y + c')).
  set (q1 := depth * (d' * x + e' * y + f')).
  set (q2 := depth * (g' * x + h' * y + i')).
  destruct (rotation_round_trip r00 r01 r02 r10 r11 r12 r20 r21 r22
              t0 t1 t2 q0 q1 q2) as (C0 & C1 & C2); try lra.
  eexists _, _, _. split; [reflexivity|].
  intros i Hi. unfold camera_coord, ray_coord, entry. simpl.
  destruct i as [|[|[|i]]]; [| | |lia]; simpl; fold q0 q1 q2.
  - etransitivity; [|exact C0]. ring.
  - etransitivity; [|exact C1]. ring.
  - etransitivity; [|exact C2]. ring.
Qed.

(** X12: in exact arithmetic, with intrinsics whose last row is
    [(0, 0, 1)], the four corners returned lie at depth [depth] in front
    of the camera: the third camera coordinate of each is [depth].  (In
    binary64 it is [depth] up to rounding only.) *)
Theorem unproject_corners_depth (K Ki Rt : list (list R))
    (width height depth : R) :
  shaped2 3 3 K → shaped2 3 3 Ki → shaped2 3 4 Rt →
  np_matmul Ki K = Some identity3 →
  np_matmul (take 3 <$> Rt) (np_transpose (take 3 <$> Rt)) = Some identity3 →
  K !! 2%nat = Some [0; 0; 1] →
  ∃ corners,
    unproject_corners_impl K width height depth Rt = Some corners ∧
    ∀ i j p0 p1 p2, at2 corners i j = Some [p0; p1; p2] →
      camera_coord Rt p0 p1 p2 2 = depth.
Proof.
  intros HK HKi HRt Hinv Horth Hrow.
  rewrite (unproject_corners_cells K Ki Rt width height depth) by done.
  eexists. split; [done|].
  assert (Hlast : ∀ x y, ray_coord Ki x y 2 = 1).
  { pose proof (np_matmul_inverse_comm K Ki HK HKi Hinv) as Hright.
    destruct (shaped2_3_3 K HK) as (a & b & c & d & e & f & g & h & i & ->).
    destruct (shaped2_3_3 Ki HKi)
      as (a' & b' & c' & d' & e' & f' & g' & h' & i' & ->).
    injection Hrow as -> -> ->.
    unfold np_matmul, np_vecmat, np_transpose, np_dot, np_sum, identity3
      in Hright.
    simpl in Hright. injection Hright as _ _ _ _ _ _ G20 G21 G22.
    intros x y. unfold ray_coord, entry. simpl.
    replace g' with 0 by lra. replace h' with 0 by lra.
    replace i' with 1 by lra. ring. }
  assert (Hcorner : ∀ x y p0 p1 p2,
            world_corner Ki Rt depth x y = [p0; p1; p2] →
            camera_coord Rt p0 p1 p2 2 = depth).
  { intros x y p0 p1 p2 Hp.
    destruct (camera_world_corner Ki Rt depth x y HKi HRt Horth)
      as (p0' & p1' & p2' & Hp' & Hcam).
    rewrite Hp in Hp'. injection Hp' as <- <- <-.
    rewrite Hcam, Hlast by lia. ring. }
  intros i j p0 p1 p2 Hat. unfold at2 in Hat.
  destruct i as [|[|i]]; [| |done];
    (destruct j as [|[|j]]; [| |done]); simpl in Hat;
    apply (inj Some) in Hat; by eapply Hcorner.
Qed.

Lemma unproject_corners_depth_witness :
  let K := [[2; 0; 1]; [0; 2; 1]; [0; 0; 1]] in
  let Rt := [[0; 1; 0; 5]; [- 1; 0; 0; 6]; [0; 0; 1; 7]] in
  ∃ corners,
    unproject_corners_impl K 4 2 3 Rt = Some corners ∧
    ∀ i j p0 p1 p2, at2 corners i j = Some [p0; p1; p2] →
      camera_coord Rt p0 p1 p2 2 = 3.
Proof.
  apply (unproject_corners_depth
           [[2; 0; 1]; [0; 2; 1]; [0; 0; 1]]
           [[1 / 2; 0; - 1 / 2]; [0; 1 / 2; - 1 / 2]; [0; 0; 1]]
           [[0; 1; 0; 5]; [- 1; 0; 0; 6]; [0; 0; 1; 7]] 4 2 3).
  - split; [reflexivity|]. repeat constructor.
  - split; [reflexivity|]. repeat constructor.
  - split; [reflexivity|]. repeat constructor.
  - unfold np_matmul, np_vecmat, np_transpose, np_dot, np_sum, identity3.
    simpl. do 2 f_equal; [|f_equal; [|f_equal]];
      (f_equal; [|f_equal; [|f_equal]]); field.
  - unfold np_matmul, np_vecmat, np_transpose, np_dot, np_sum, identity3.
    simpl. do 2 f_equal; [|f_equal; [|f_equal]];
      (f_equal; [|f_equal; [|f_equal]]); ring.
  - reflexivity.
Defined.
End CameraRoundTrip.

Section ProjectEdges.
Context {F : Type} `{Scalar F}.

Lemma np_zeros3_shape_of {A : Type} (image : list (list (list A)))
    (h w c c' : nat) :
  shaped3 h w c image →
  shaped3 h w c' (np_zeros3 (length image) (dim1 image) c').
Proof.
  intros Himg. pose proof Himg as [Hh _].
  rewrite (pixels_dim1 h w _ image Himg), Hh.
  case_decide as Hh0; [|apply shaped3_zeros].
  rewrite Hh0. split; [done|constructor].
Qed.

(** X13: for an [h] x [w] array of 3D points the result is an
    [h] x [w] array of 2D projections. *)
Theorem project_impl_shape (K Rt : list (list F))
    (points : list (list (list F))) (h w : nat) :
  shaped2 3 3 K → shaped2 3 4 Rt → shaped3 h w 3 points →
  ∃ proj, project_impl K Rt points = Some proj ∧ shaped3 h w 2 proj.
Proof.
  intros HK HRt Hpts.
  rewrite (project_impl_cells K Rt points h w HK HRt Hpts).
  eexists. split; [done|].
  apply (pixels_imap2 h w (λ v : list F, length v = 2%nat));
    [by apply (np_zeros3_shape_of points h w 3)|].
  intros i j v Hv. unfold project_cell.
  destruct (sleb _ _); [|done].
  rewrite length_fmap, length_take, length_fmap.
  destruct HK as [-> _]. done.
Qed.

(** X14: points that are not 3-vectors make the call raise: the
    homogeneous point does not meet the four columns of [Rt]. *)
Theorem project_impl_raises (K Rt : list (list F))
    (points : list (list (list F))) (h w c : nat) :
  shaped2 3 4 Rt → shaped3 h w c points →
  (0 < h)%nat → (0 < w)%nat → c ≠ 3%nat →
  project_impl K Rt points = None.
Proof.
  intros HRt Hpts Hh Hw Hc.
  destruct (shaped3_dims h w c points Hpts Hh Hw) as (Eh & Ew & _).
  destruct (shaped3_lookup h w c points 0 0 Hpts Hh Hw)
    as (row & p & Hrow & Hp & _ & Hlen).
  unfold project_impl. rewrite Eh, Ew.
  apply (for_in_raises h 0); [done| lia |].
  apply (for_in_raises w 0); [done| lia |].
  unfold at2. rewrite Hrow. simpl. rewrite Hp. simpl.
  unfold np_matvec. rewrite bool_decide_false; [done|].
  intros Hall. destruct HRt as [Hl HRt].
  destruct Rt as [|r0 Rt]; [done|].
  apply Forall_inv in Hall. apply Forall_inv in HRt.
  rewrite length_app, Hlen in Hall. simpl in Hall. lia.
Qed.
End ProjectEdges.

Lemma project_impl_shape_witness :
  ∃ proj,
    project_impl (F := R) [[1; 0; 0]; [0; 1; 0]; [0; 0; 1]]%R
      [[1; 0; 0; 0]; [0; 1; 0; 0]; [0; 0; 1; 0]]%R
      [[[1; 2; 4]; [1; 2; 0]]]%R = Some proj ∧
    shaped3 1 2 2 proj.
Proof.
  apply (project_impl_shape _ _ _ 1 2).
  - split; [reflexivity|]. repeat constructor.
  - split; [reflexivity|]. repeat constructor.
  - split; [reflexivity|]. repeat constructor.
Defined.

Lemma project_impl_raises_witness :
  project_impl (F := R) [[1; 0; 0]; [0; 1; 0]; [0; 0; 1]]%R
    [[1; 0; 0; 0]; [0; 1; 0; 0]; [0; 0; 1; 0]]%R
    [[[1; 2]; [3; 4]]]%R = None.
Proof.
  apply (project_impl_raises _ _ _ 1 2 2).
  - split; [reflexivity|]. repeat constructor.
  - split; [reflexivity|]. repeat constructor.
  - lia.
  - lia.
  - lia.
Defined.

(** ** Further properties of [compute_photometric_stereo_impl] *)

(** *** Sums over an index range *)

Section IndexSums.
Local Open Scope R_scope.

Lemma np_sum_snoc (l : list R) (a : R) : np_sum (l ++ [a]) = np_sum l + a.
Proof. unfold np_sum. by rewrite foldl_app. Qed.

Lemma np_sum_fmap_plus {A : Type} (f g : A → R) (l : list A) :
  np_sum ((λ j, f j + g j) <$> l) = np_sum (f <$> l) + np_sum (g <$> l).
Proof.
  induction l as [|a l IH]; [rewrite !fmap_nil, np_sum_nil; lra|].
  rewrite !fmap_cons, !np_sum_cons, IH. lra.
Qed.

Lemma np_sum_fmap_scale {A : Type} (c : R) (f : A → R) (l : list A) :
  np_sum ((λ j, c * f j) <$> l) = c * np_sum (f <$> l).
Proof.
  induction l as [|a l IH]; [rewrite !fmap_nil, np_sum_nil; lra|].
  rewrite !fmap_cons, !np_sum_cons, IH. lra.
Qed.

Lemma np_sum_fmap_ext {A : Type} (f g : A → R) (l : list A) :
  (∀ a, a ∈ l → f a = g a) → np_sum (f <$> l) = np_sum (g <$> l).
Proof.
  intros Hfg. f_equal. apply list_fmap_ext. intros i a Ha.
  apply Hfg. by eapply list_elem_of_lookup_2.
Qed.

Lemma fmap_lookup_total_range (l : list R) (n : nat) :
  length l = n → (λ j, l !!! j) <$> range n = l.
Proof.
  intros Hl. apply list_eq. intros j. unfold range.
  rewrite list_lookup_fmap.
  destruct (decide (j < n)%nat) as [Hj|Hj].
  - rewrite lookup_seq_lt by done. simpl.
    destruct (lookup_lt_is_Some_2 l j) as [a Ha]; [lia|].
    by rewrite (list_lookup_total_correct _ _ _ Ha).
  - rewrite lookup_seq_ge by lia. simpl. symmetry.
    apply lookup_ge_None. lia.
Qed.

(** The inner product as a sum over the indices. *)
Lemma np_dot_range (u v : list R) (n : nat) :
  length u = n → length v = n →
  np_dot u v = np_sum ((λ j, u !!! j * v !!! j) <$> range n).
Proof.
  intros Hu Hv. unfold np_dot. f_equal. apply list_eq. intros j.
  unfold range. rewrite lookup_zip_with, list_lookup_fmap.
  destruct (decide (j < n)%nat) as [Hj|Hj].
  - rewrite lookup_seq_lt by done. simpl.
    destruct (lookup_lt_is_Some_2 u j) as [a Ha]; [lia|].
    destruct (lookup_lt_is_Some_2 v j) as [b Hb]; [lia|].
    rewrite Ha, Hb. simpl.
    by rewrite (list_lookup_total_correct _ _ _ Ha),
      (list_lookup_total_correct _ _ _ Hb).
  - rewrite lookup_seq_ge by lia. simpl.
    rewrite (proj2 (lookup_ge_None u j)) by lia. done.
Qed.
End IndexSums.

(** *** The Gram matrix of three rows of lights *)

Section Gram.
Local Open Scope R_scope.

Lemma np_transpose_rows (L0 L1 L2 : list R) (n : nat) :
  length L0 = n →
  np_transpose [L0; L1; L2]
  = (λ j, [L0 !!! j; L1 !!! j; L2 !!! j]) <$> range n.
Proof. intros Hn. unfold np_transpose, dim1. simpl. by rewrite Hn. Qed.

Lemma np_transpose_twice (L0 L1 L2 : list R) (n : nat) :
  length L0 = n → length L1 = n → length L2 = n → (0 < n)%nat →
  np_transpose (np_transpose [L0; L1; L2]) = [L0; L1; L2].
Proof.
  intros H0 H1 H2 Hn. rewrite (np_transpose_rows L0 L1 L2 n H0).
  unfold np_transpose at 1.
  assert (Hd : dim1 ((λ j, [L0 !!! j; L1 !!! j; L2 !!! j]) <$> range n)
               = 3%nat).
  { destruct n as [|n]; [lia|]. done. }
  rewrite Hd. unfold range at 1. simpl.
  rewrite <- !list_fmap_compose.
  f_equal; [|f_equal; [|f_equal]]; by apply fmap_lookup_total_range.
Qed.

Lemma gram_rows (L0 L1 L2 : list R) (n : nat) :
  length L0 = n → length L1 = n → length L2 = n → (0 < n)%nat →
  np_matmul [L0; L1; L2] (np_transpose [L0; L1; L2])
  = Some [[np_dot L0 L0; np_dot L0 L1; np_dot L0 L2];
          [np_dot L1 L0; np_dot L1 L1; np_dot L1 L2];
          [np_dot L2 L0; np_dot L2 L1; np_dot L2 L2]].
Proof.
  intros H0 H1 H2 Hn. unfold np_matmul.
  assert (Hlen : length (np_transpose [L0; L1; L2]) = n).
  { rewrite np_transpose_length. unfold dim1. simpl. done. }
  cbn [mapM].
  rewrite !np_vecmat_total by lia.
  rewrite (np_transpose_twice L0 L1 L2 n) by done.
  done.
Qed.
End Gram.

(** *** The least-squares vector of one pixel *)

Section StereoPixel.
Local Open Scope R_scope.

Lemma at2_lookup_total {A : Type} `{Inhabited A} (a : list (list A))
    (y x : nat) (v : A) :
  at2 a y x = Some v → (a !!! y) !!! x = v.
Proof.
  intros Hv. apply at2_Some in Hv as (row & Hrow & Hv).
  by rewrite (list_lookup_total_correct _ _ _ Hrow),
    (list_lookup_total_correct _ _ _ Hv).
Qed.

Lemma np_dstack_at (planes : list (list (list R))) (h w n y x : nat) :
  length planes = n → (0 < n)%nat → Forall (shaped2 h w) planes →
  (y < h)%nat → (x < w)%nat →
  ∃ I, np_dstack planes = Some I ∧ shaped3 h w n I ∧
    at2 I y x = Some ((λ p : list (list R), (p !!! y) !!! x) <$> planes).
Proof.
  intros Hn Hpos Hp Hy Hx.
  destruct (np_dstack_total planes h w n Hn Hpos Hp) as (I & HI & Hshape).
  exists I. split; [done|]. split; [done|].
  unfold np_dstack in HI.
  destruct planes as [|p0 planes']; [done|].
  case_bool_decide; [|done]. injection HI as <-.
  pose proof (Forall_inv Hp) as [Hl0 Hr0].
  destruct (lookup_lt_is_Some_2 p0 y) as [row Hrow]; [lia|].
  pose proof (Forall_lookup_1 _ _ _ _ Hr0 Hrow) as Hw.
  destruct (lookup_lt_is_Some_2 row x) as [v Hv]; [simpl in Hw; lia|].
  unfold at2. rewrite list_lookup_imap, Hrow. simpl.
  by rewrite list_lookup_imap, Hv.
Qed.

(** The vector [G[y, x]]: the first-channel intensities of the pixel
    over the images, times [lightsᵀ], times the inverse Gram matrix. *)
Lemma stereo_G_at (lights : list (list R))
    (images : list (list (list (list R)))) (Minv : list (list R))
    (h w c n y x : nat) :
  length images = n → (0 < n)%nat → (0 < c)%nat →
  Forall (shaped3 h w c) images → shaped2 3 n lights →
  np_matmul lights (np_transpose lights) ≫= np_linalg_inv = Some Minv →
  (y < h)%nat → (x < w)%nat →
  let Iv := (λ img : list (list (list R)), ((img !!! y) !!! x) !!! 0%nat)
              <$> images in
  let u := np_dot Iv <$> np_transpose (np_transpose lights) in
  ∃ G, stereo_G lights images = Some G ∧ shaped3 h w 3 G ∧
    at2 G y x = Some (np_dot u <$> np_transpose Minv).
Proof.
  intros Hn Hpos Hc Himgs Hl Hinv Hy Hx Iv u. unfold stereo_G.
  rewrite (mapM_total (shaped3 h w c) _ (map2d (λ px : list R, px !!! 0%nat))).
  2:{ done. }
  2:{ intros image Himg.
      apply (pixels_mapM2 h w (λ px, length px = c)); [done|].
      intros px Hpx. apply list_lookup_lookup_total_lt. lia. }
  cbn [mbind option_bind].
  destruct (np_dstack_at (map2d (λ px : list R, px !!! 0%nat) <$> images)
              h w n y x) as (I & -> & HI & HIat); try done.
  { by rewrite length_fmap. }
  { apply Forall_fmap. revert Himgs. apply Forall_impl. intros image Himg.
    simpl. apply shaped2_pixels.
    by apply (pixels_map2d h w (λ px, length px = c)). }
  cbn [mbind option_bind].
  pose proof (np_transpose_shape lights 3 n Hl) as HT.
  destruct (np_matmul3_total I (np_transpose lights) h w n 3 HI) as [-> HILt];
    [apply HT; lia|done|].
  cbn [mbind option_bind].
  apply bind_Some in Hinv as (LLt & -> & Hinv).
  cbn [mbind option_bind]. rewrite Hinv. cbn [mbind option_bind].
  apply np_linalg_inv_shape in Hinv.
  destruct (np_matmul3_total _ Minv h w 3 3 HILt Hinv) as [-> HG]; [lia|].
  eexists. split; [done|]. split; [done|].
  rewrite !at2_map2d, HIat. simpl. do 3 f_equal.
  unfold u. f_equal. f_equal. unfold Iv.
  rewrite <- list_fmap_compose. apply list_fmap_ext. intros j img Himg. simpl.
  pose proof (Forall_lookup_1 _ _ _ _ Himgs Himg) as Hs.
  destruct (shaped3_lookup h w c img y x Hs Hy Hx)
    as (row & px & Hrow & Hpx & _ & _).
  rewrite (at2_lookup_total (map2d _ img) y x (px !!! 0%nat)).
  - by rewrite (list_lookup_total_correct _ _ _ Hrow),
      (list_lookup_total_correct _ _ _ Hpx).
  - rewrite at2_map2d. unfold at2. rewrite Hrow. simpl. by rewrite Hpx.
Qed.

(** The intensities of a Lambertian pixel, multiplied into a row of
    lights. *)
Lemma lambert_dot (L0 L1 L2 L : list R) (n : nat) (rho0 n0 n1 n2 : R) :
  length L0 = n → length L1 = n → length L2 = n → length L = n →
  np_dot ((λ j, rho0 * (n0 * (L0 !!! j) + n1 * (L1 !!! j) + n2 * (L2 !!! j)))
            <$> range n) L
  = rho0 * (n0 * np_dot L0 L + n1 * np_dot L1 L + n2 * np_dot L2 L).
Proof.
  intros H0 H1 H2 HL.
  rewrite (np_dot_range _ L n) by (by rewrite ?length_fmap, ?length_range).
  rewrite (np_dot_range L0 L n), (np_dot_range L1 L n), (np_dot_range L2 L n)
    by done.
  rewrite <- !np_sum_fmap_scale, <- !np_sum_fmap_plus, <- np_sum_fmap_scale.
  apply np_sum_fmap_ext. intros j Hj. apply elem_of_range in Hj.
  rewrite (fmap_range_lookup_total _ n j Hj). ring.
Qed.

(** A vector times a matrix times the inverse of the matrix. *)
Lemma np_linalg_inv_cancel (M Minv : list (list R)) (v0 v1 v2 : R) :
  np_linalg_inv M = Some Minv →
  ∃ m00 m01 m02 m10 m11 m12 m20 m21 m22,
    M = [[m00; m01; m02]; [m10; m11; m12]; [m20; m21; m22]] ∧
    np_dot [v0 * m00 + v1 * m10 + v2 * m20;
            v0 * m01 + v1 * m11 + v2 * m21;
            v0 * m02 + v1 * m12 + v2 * m22] <$> np_transpose Minv
    = [v0; v1; v2].
Proof.
  intros Hinv. unfold np_linalg_inv in Hinv.
  destruct M as [|[|a [|b [|c [|]]]] [|[|d [|e [|f [|]]]]
                 [|[|g [|h [|i [|]]]] [|]]]]; try done.
  case_match eqn:Hdet; [done|]. injection Hinv as <-.
  rewrite seqb_R in Hdet. apply bool_decide_eq_false in Hdet.
  exists a, b, c, d, e, f, g, h, i. split; [done|].
  unfold np_transpose, np_dot, np_sum. simpl.
  f_equal; [|f_equal; [|f_equal]]; field; exact Hdet.
Qed.
End StereoPixel.

(** *** The albedo sums of a Lambertian pixel *)

Lemma for_in_range_ind {St : Type} (P : nat → St → Prop) (n : nat)
    (body : nat → St → option St) (s0 s' : St) :
  P 0%nat s0 →
  (∀ k s s1, (k < n)%nat → P k s → body k s = Some s1 → P (S k) s1) →
  for_in (range n) body s0 = Some s' → P n s'.
Proof.
  intros H0 Hstep. unfold range.
  enough (Hgen : ∀ m k s, (k + m = n)%nat → P k s →
                   for_in (seq k m) body s = Some s' → P n s').
  { by apply (Hgen n 0%nat s0). }
  induction m as [|m IH]; intros k s Hk Hs Hrun; simpl in Hrun.
  - injection Hrun as <-. by replace n with k by lia.
  - destruct (body k s) as [s1|] eqn:Hb; simpl in Hrun; [|done].
    apply (IH (S k) s1); [lia| |done].
    apply (Hstep k s); [lia|done..].
Qed.

Section LambertSums.
Local Open Scope R_scope.

Lemma at2_matvec_forward (normals : list (list (list R))) (light : list R)
    (d : list (list R)) (y x : nat) (nv : list R) :
  mapM (λ row, np_matvec row light) normals = Some d →
  at2 normals y x = Some nv → at2 d y x = Some (np_dot nv light).
Proof.
  intros Hm Hnv. apply mapM_Some_1 in Hm.
  apply at2_Some in Hnv as (row & Hrow & Hnv).
  destruct (Forall2_lookup_l _ _ _ _ _ Hm Hrow) as (drow & Hdrow & Hmv).
  unfold np_matvec in Hmv. case_bool_decide; [|done].
  injection Hmv as <-.
  apply at2_Some. eexists. split; [exact Hdrow|].
  by rewrite list_lookup_fmap, Hnv.
Qed.

Lemma fmap_mult_zero (rho : list R) :
  (λ r, r * 0) <$> rho = replicate (length rho) 0.
Proof.
  induction rho as [|r rho IH]; [done|].
  rewrite fmap_cons, IH. simpl. f_equal. lra.
Qed.

(** The numerator and the denominator accumulated at a pixel all of
    whose intensities are [rho * shade j]: [rho * T] and [T], with [T]
    the sum of the squared shadings. *)
Lemma stereo_num_den_lambert (L0 L1 L2 : list R)
    (images : list (list (list (list R))))
    (normals num den : list (list (list R)))
    (h w c n y x : nat) (rho : list R) (n0 n1 n2 : R) :
  let shade := λ j : nat, n0 * (L0 !!! j) + n1 * (L1 !!! j) + n2 * (L2 !!! j) in
  let T := np_sum ((λ j, shade j * shade j) <$> range n) in
  stereo_num_den [L0; L1; L2] images normals = Some (num, den) →
  length images = n → length L0 = n → length L1 = n → length L2 = n →
  Forall (shaped3 h w c) images → (y < h)%nat → (x < w)%nat →
  at2 normals y x = Some [n0; n1; n2] →
  length rho = c →
  (∀ j img, images !! j = Some img →
     at2 img y x = Some ((λ r, r * shade j) <$> rho)) →
  at2 num y x = Some ((λ r, r * T) <$> rho) ∧
  at2 den y x = Some (replicate c T).
Proof.
  intros shade T Hrun Hn H0 H1 H2 Himgs Hy Hx Hnv Hrho Hlam.
  unfold stereo_num_den in Hrun.
  destruct (images !! 0%nat) as [image0|] eqn:Himg0; simpl in Hrun; [|done].
  pose proof (Forall_lookup_1 _ _ _ _ Himgs Himg0) as Hs0.
  destruct (shaped3_dims h w c image0 Hs0) as (Eh & Ew & Ec); [lia..|].
  rewrite Eh, Ew, Ec, Hn in Hrun.
  set (Tk := λ k : nat, np_sum ((λ j, shade j * shade j) <$> range k)).
  revert Hrun.
  apply (for_in_range_ind
    (λ k (s : list (list (list R)) * list (list (list R))),
       at2 s.1 y x = Some ((λ r, r * Tk k) <$> rho) ∧
       at2 s.2 y x = Some (replicate c (Tk k)))).
  - simpl. rewrite at2_zeros by done. unfold np_zeros1. simpl.
    unfold Tk. simpl. rewrite np_sum_nil, fmap_mult_zero, Hrho. done.
  - intros k [num0 den0] [num1 den1] Hk [Hnum Hden] Hbody. simpl in *.
    destruct (lookup_lt_is_Some_2 images k) as [curr Hcurr]; [lia|].
    rewrite Hcurr in Hbody. simpl in Hbody.
    rewrite (list_lookup_lookup_total_lt L0 k), (list_lookup_lookup_total_lt L1 k),
      (list_lookup_lookup_total_lt L2 k) in Hbody by lia.
    simpl in Hbody.
    destruct (mapM _ normals) as [d|] eqn:Hd; simpl in Hbody; [|done].
    unfold np_iadd3 in Hbody. case_bool_decide; simpl in Hbody; [|done].
    injection Hbody as <- <-.
    pose proof (at2_matvec_forward _ _ _ _ _ _ Hd Hnv) as Hdk.
    assert (Hs : np_dot [n0; n1; n2] [L0 !!! k; L1 !!! k; L2 !!! k] = shade k).
    { unfold np_dot, np_sum, shade. simpl. ring. }
    rewrite Hs in Hdk.
    assert (HT : Tk (S k) = Tk k + shade k * shade k).
    { unfold Tk, range. rewrite seq_S, fmap_app.
      change ((λ j, shade j * shade j) <$> [(0 + k)%nat])
        with [shade k * shade k].
      by rewrite np_sum_snoc. }
    rewrite HT. split.
    + apply at2_zip2d. eexists _, _. split; [exact Hnum|]. split.
      * apply at2_zip2d. eexists _, _. split; [exact Hdk|].
        split; [by apply Hlam|done].
      * rewrite <- !list_fmap_compose, zip_with_fmap_l, zip_with_fmap_r,
          zip_with_diag.
        apply list_fmap_ext. intros i r _. simpl. ring.
    + unfold bcast_last. apply at2_zip2d. eexists _, _.
      split; [exact Hden|]. split.
      * rewrite at2_map2d, Hdk. done.
      * by rewrite fmap_replicate.
Qed.
End LambertSums.

Section Lambertian.
Local Open Scope R_scope.

Lemma stereo_normal_cell_scaled (rho0 n0 n1 n2 : R) :
  0 < rho0 → n0 * n0 + n1 * n1 + n2 * n2 = 1 →
  stereo_normal_cell [rho0 * n0; rho0 * n1; rho0 * n2] = [n0; n1; n2].
Proof.
  intros Hr Hn.
  assert (Hnorm : np_norm [rho0 * n0; rho0 * n1; rho0 * n2] = rho0).
  { unfold np_norm, np_sum. simpl.
    replace (0 + rho0 * n0 * (rho0 * n0) + rho0 * n1 * (rho0 * n1)
             + rho0 * n2 * (rho0 * n2))
      with (rho0 * rho0 * (n0 * n0 + n1 * n1 + n2 * n2)) by ring.
    rewrite Hn, Rmult_1_r. apply sqrt_square. lra. }
  unfold stereo_normal_cell, stereo_divisor. rewrite Hnorm, !seqb_R.
  change (@sofZ R R_scalar 0) with 0.
  rewrite (bool_decide_false (rho0 = 0)) by lra.
  rewrite bool_decide_false by lra. simpl.
  f_equal; [|f_equal; [|f_equal]]; field; lra.
Qed.

Lemma at2_mask_zero_false (mask : list (list bool))
    (a : list (list (list R))) (y x : nat) (v : list R) :
  at2 mask y x = Some false → at2 a y x = Some v →
  at2 (mask_zero mask a) y x = Some v.
Proof.
  intros Hm Ha. unfold mask_zero. apply at2_zip2d. by exists false, v.
Qed.

Lemma stereo_albedo_lambert (junk : nat → nat → nat → R)
    (num den : list (list (list R))) (y x c : nat) (rho : list R) (T : R) :
  at2 num y x = Some ((λ r, r * T) <$> rho) →
  at2 den y x = Some (replicate c T) →
  length rho = c → 0 < T →
  at2 (stereo_albedo junk num den) y x = Some rho.
Proof.
  intros Hnum Hden Hrho HT. unfold stereo_albedo.
  rewrite (at2_imap2 (λ y x, imap (λ k '(n, d),
             if sltb 0 d then n / d else junk y x k))).
  assert (Hz : at2 (zip2d zip num
                 (map3d (λ d, if seqb d 0 then 1 else d) den)) y x
               = Some (zip ((λ r, r * T) <$> rho) (replicate c T))).
  { apply at2_zip2d. eexists _, _. split; [exact Hnum|]. split.
    - unfold map3d. rewrite at2_map2d, Hden. simpl. done.
    - rewrite fmap_replicate, bool_decide_false by lra. done. }
  change (@sofZ R R_scalar 0) with 0. change (@sofZ R R_scalar 1) with 1.
  rewrite Hz. simpl. f_equal. apply list_eq. intros k.
  rewrite list_lookup_imap.
  destruct (rho !! k) as [r|] eqn:Hr.
  - assert (Hk : (k < c)%nat) by (rewrite <- Hrho; by eapply lookup_lt_Some).
    rewrite (proj2 (lookup_zip_Some _ _ k (r * T) T)).
    2:{ split; [by rewrite list_lookup_fmap, Hr|by apply lookup_replicate_2]. }
    simpl. rewrite bool_decide_true by done. f_equal. field. lra.
  - apply lookup_ge_None in Hr.
    rewrite (proj2 (lookup_ge_None _ k)); [done|].
    rewrite length_zip_with, length_fmap. lia.
Qed.

(** X16: a pixel whose intensities follow the Lambertian law
    [albedo * (normal . light j)] in every image, for a unit normal and
    an albedo whose first channel is positive and whose norm is at least
    [1e-7], gets that normal and that albedo back. *)
Theorem photometric_stereo_lambertian (junk : nat → nat → nat → R)
    (L0 L1 L2 : list R) (images : list (list (list (list R))))
    (h w c n y x : nat) (rho : list R) (rho0 n0 n1 n2 : R) :
  let shade := λ j : nat, n0 * (L0 !!! j) + n1 * (L1 !!! j) + n2 * (L2 !!! j) in
  length images = n → (0 < n)%nat → (0 < c)%nat →
  Forall (shaped3 h w c) images → shaped2 3 n [L0; L1; L2] →
  is_Some (np_matmul [L0; L1; L2] (np_transpose [L0; L1; L2])
             ≫= np_linalg_inv) →
  (y < h)%nat → (x < w)%nat →
  n0 * n0 + n1 * n1 + n2 * n2 = 1 →
  length rho = c → rho !! 0%nat = Some rho0 → 0 < rho0 →
  1e-7 <= np_norm rho →
  (∀ j img, images !! j = Some img →
     at2 img y x = Some ((λ r, r * shade j) <$> rho)) →
  ∃ albedo normals,
    compute_photometric_stereo_impl junk [L0; L1; L2] images
    = Some (albedo, normals) ∧
    at2 albedo y x = Some rho ∧ at2 normals y x = Some [n0; n1; n2].
Proof.
  intros shade Hn Hpos Hc Himgs Hl Hinv Hy Hx Hunit Hrho Hrho0 Hr0 Hnorm Hlam.
  pose proof Hl as [_ Hrows].
  apply Forall_cons_1 in Hrows as [H0 Hrows].
  apply Forall_cons_1 in Hrows as [H1 Hrows].
  apply Forall_cons_1 in Hrows as [H2 _].
  destruct (compute_photometric_stereo_impl_total junk [L0; L1; L2] images
              h w c n) as (albedo & normals & Hrun & _ & _); try done.
  exists albedo, normals. split; [done|].
  destruct (stereo_run_inv _ _ _ _ _ Hrun)
    as (G & num & den & HG & Hnd & _ & Hal & Hno).
  rewrite cast32_R_id in Hal, Hno.
  destruct Hinv as [Minv Hinv].
  destruct (stereo_G_at [L0; L1; L2] images Minv h w c n y x)
    as (G' & HG' & _ & HGat); try done.
  rewrite HG in HG'. injection HG' as <-.
  (* the intensities of the pixel *)
  assert (Hiv : (λ img : list (list (list R)), ((img !!! y) !!! x) !!! 0%nat)
                  <$> images
                = (λ j, rho0 * shade j) <$> range n).
  { apply list_eq. intros j. unfold range.
    rewrite !list_lookup_fmap.
    destruct (decide (j < n)%nat) as [Hj|Hj].
    - destruct (lookup_lt_is_Some_2 images j) as [img Himg]; [lia|].
      rewrite Himg, lookup_seq_lt by done. simpl. f_equal.
      rewrite (at2_lookup_total img y x _ (Hlam j img Himg)).
      rewrite (list_lookup_total_correct _ 0 (rho0 * shade j)); [done|].
      rewrite list_lookup_fmap, Hrho0. simpl. done.
    - rewrite lookup_seq_ge by lia.
      rewrite (proj2 (lookup_ge_None images j)) by lia. done. }
  rewrite Hiv, (np_transpose_twice L0 L1 L2 n) in HGat by done.
  (* the Gram matrix and its inverse *)
  rewrite (gram_rows L0 L1 L2 n) in Hinv by done.
  cbn [mbind option_bind] in Hinv.
  destruct (np_linalg_inv_cancel _ Minv (rho0 * n0) (rho0 * n1) (rho0 * n2)
              Hinv)
    as (m00 & m01 & m02 & m10 & m11 & m12 & m20 & m21 & m22 & HM & Hcancel).
  injection HM as <- <- <- <- <- <- <- <- <-.
  assert (Hu : np_dot ((λ j, rho0 * shade j) <$> range n) <$> [L0; L1; L2]
               = [rho0 * n0 * np_dot L0 L0 + rho0 * n1 * np_dot L1 L0
                  + rho0 * n2 * np_dot L2 L0;
                  rho0 * n0 * np_dot L0 L1 + rho0 * n1 * np_dot L1 L1
                  + rho0 * n2 * np_dot L2 L1;
                  rho0 * n0 * np_dot L0 L2 + rho0 * n1 * np_dot L1 L2
                  + rho0 * n2 * np_dot L2 L2]).
  { simpl. unfold shade.
    rewrite !(lambert_dot L0 L1 L2 _ n) by done.
    f_equal; [|f_equal; [|f_equal]]; ring. }
  (* some light meets the surface *)
  set (T := np_sum ((λ j, shade j * shade j) <$> range n)).
  assert (HT : 0 < T).
  { assert (HT0 : 0 <= T).
    { unfold T. rewrite (list_fmap_compose shade (λ a, a * a)).
      apply np_sum_squares_nonneg. }
    destruct (Req_dec T 0) as [Hz|Hnz]; [|lra]. exfalso.
    unfold T in Hz. rewrite (list_fmap_compose shade (λ a, a * a)) in Hz.
    apply np_sum_squares_zero in Hz.
    assert (Hzero : Forall (λ a, a = 0) ((λ j, rho0 * shade j) <$> range n)).
    { rewrite (list_fmap_compose shade (λ a, rho0 * a)).
      apply Forall_fmap. revert Hz. apply Forall_impl.
      intros a ->. simpl. lra. }
    assert (Hu0 : np_dot ((λ j, rho0 * shade j) <$> range n) <$> [L0; L1; L2]
                  = [0; 0; 0]).
    { simpl. by rewrite !np_dot_zero_l. }
    rewrite Hu0 in Hu. rewrite <- Hu in Hcancel.
    destruct (np_transpose Minv) as [|c0 [|c1 [|c2 cs]]]; try done.
    simpl in Hcancel. rewrite !np_dot_zero_l in Hcancel by (repeat constructor).
    injection Hcancel as E0 E1 E2.
    assert (n0 = 0) by nra. assert (n1 = 0) by nra. assert (n2 = 0) by nra.
    subst. lra. }
  rewrite Hu, Hcancel in HGat.
  (* the normal, the sums, the albedo *)
  assert (Hnv : at2 (stereo_normals G) y x = Some [n0; n1; n2]).
  { rewrite stereo_normals_cells, at2_map2d, HGat. simpl.
    by rewrite stereo_normal_cell_scaled. }
  destruct (stereo_num_den_lambert L0 L1 L2 images (stereo_normals G) num den
              h w c n y x rho n0 n1 n2) as [Hnum Hden]; try done.
  fold shade T in Hnum, Hden.
  pose proof (stereo_albedo_lambert junk num den y x c rho T
                Hnum Hden Hrho HT) as Halb.
  assert (Hmask : at2 (map2d (λ a, sltb (np_norm a) lit_1e_7)
                         (stereo_albedo junk num den)) y x = Some false).
  { rewrite at2_map2d, Halb. simpl. f_equal.
    apply bool_decide_eq_false. pose proof lit_1e_7_bounds as Hlit.
    unfold np_norm in Hnorm. simpl in Hnorm. lra. }
  subst albedo normals. split; by apply at2_mask_zero_false.
Qed.

Lemma photometric_stereo_lambertian_witness :
  ∃ albedo normals,
    compute_photometric_stereo_impl (λ _ _ _, 0)
      [[1; 0; 0]; [0; 1; 0]; [0; 0; 1]] [[[[0]]]; [[[0]]]; [[[2]]]]
    = Some (albedo, normals) ∧
    at2 albedo 0 0 = Some [2] ∧ at2 normals 0 0 = Some [0; 0; 1].
Proof.
  apply (photometric_stereo_lambertian (λ _ _ _, 0)
           [1; 0; 0] [0; 1; 0] [0; 0; 1] [[[[0]]]; [[[0]]]; [[[2]]]]
           1 1 1 3 0 0 [2] 2 0 0 1).
  - reflexivity.
  - lia.
  - lia.
  - repeat constructor.
  - split; [reflexivity|]. repeat constructor.
  - unfold np_matmul, np_vecmat, np_transpose. simpl.
    unfold np_linalg_inv.
    rewrite bool_decide_false by (unfold np_dot, np_sum; simpl; lra).
    by eexists.
  - lia.
  - lia.
  - lra.
  - reflexivity.
  - reflexivity.
  - lra.
  - unfold np_norm, np_sum. simpl.
    replace (0 + 2 * 2) with (2 * 2) by lra.
    rewrite sqrt_square by lra. lra.
  - intros j img Himg.
    destruct j as [|[|[|j]]]; [| | |done]; injection Himg as <-;
      unfold at2; simpl; do 2 f_equal; lra.
Defined.
End Lambertian.

Section StereoShapes.
Context {F : Type} `{Scalar F}.

(** X17: on [n] images of one shape [h] x [w] x [c], with at least one
    channel, and a 3 x [n] array of lights whose Gram matrix
    [np.linalg.inv] accepts, the call returns: an albedo of the shape of
    the images and one normal of three components per pixel. *)
Theorem photometric_stereo_shapes (junk : nat → nat → nat → F)
    (lights : list (list F)) (images : list (list (list (list F))))
    (h w c n : nat) :
  length images = n → (0 < n)%nat → (0 < c)%nat →
  Forall (shaped3 h w c) images → shaped2 3 n lights →
  is_Some (np_matmul lights (np_transpose lights) ≫= np_linalg_inv) →
  ∃ albedo normals,
    compute_photometric_stereo_impl junk lights images = Some (albedo, normals) ∧
    shaped3 h w c albedo ∧ shaped3 h w 3 normals.
Proof. apply compute_photometric_stereo_impl_total. Qed.
End StereoShapes.

Lemma photometric_stereo_shapes_witness :
  ∃ albedo normals,
    compute_photometric_stereo_impl (F := R) (λ _ _ _, 0%R)
      [[1; 0; 0]; [0; 1; 0]; [0; 0; 1]]%R
      [[[[1; 5]]]; [[[2; 6]]]; [[[2; 7]]]]%R = Some (albedo, normals) ∧
    shaped3 1 1 2 albedo ∧ shaped3 1 1 3 normals.
Proof.
  apply (photometric_stereo_shapes _ _ _ 1 1 2 3).
  - reflexivity.
  - lia.
  - lia.
  - repeat constructor.
  - split; [reflexivity|]. repeat constructor.
  - unfold np_matmul, np_vecmat, np_transpose. simpl.
    unfold np_linalg_inv.
    rewrite bool_decide_false by (unfold np_dot, np_sum; simpl; lra).
    by eexists.
Defined.

Section DarkFirstChannel.
Local Open Scope R_scope.

(** X20: the normal is estimated from the first channel alone: at a
    pixel whose first channel is zero in every image, the returned
    normal is the zero vector and the whole albedo is zero, whatever the
    other channels hold. *)
Theorem photometric_stereo_dark_first_channel (junk : nat → nat → nat → R)
    (lights : list (list R)) (images : list (list (list (list R))))
    (h w c n y x : nat) :
  length images = n → (0 < n)%nat → (0 < c)%nat →
  Forall (shaped3 h w c) images → shaped2 3 n lights →
  is_Some (np_matmul lights (np_transpose lights) ≫= np_linalg_inv) →
  (y < h)%nat → (x < w)%nat →
  (∀ j img px, images !! j = Some img → at2 img y x = Some px →
     px !! 0%nat = Some 0) →
  ∃ albedo normals,
    compute_photometric_stereo_impl junk lights images
    = Some (albedo, normals) ∧
    at2 albedo y x = Some (replicate c 0) ∧
    at2 normals y x = Some [0; 0; 0].
Proof.
  intros Hn Hpos Hc Himgs Hl Hinv Hy Hx Hdark.
  destruct (compute_photometric_stereo_impl_total junk lights images
              h w c n) as (albedo & normals & Hrun & Hsa & Hsn); try done.
  exists albedo, normals. split; [done|].
  destruct (shaped3_lookup h w c albedo y x Hsa Hy Hx)
    as (ra & a & Hra & Ha & _ & Hla).
  destruct (shaped3_lookup h w 3 normals y x Hsn Hy Hx)
    as (rn & nv & Hrn & Hnv & _ & Hlnv).
  assert (Hat_a : at2 albedo y x = Some a) by (apply at2_Some; eauto).
  assert (Hat_n : at2 normals y x = Some nv) by (apply at2_Some; eauto).
  destruct (stereo_results_at junk lights images albedo normals y x a nv
              Hrun Hat_a Hat_n)
    as (G & alb0 & g & a0 & HG & _ & Hg & _ & Hlg & Hzero & Ea & Env).
  destruct Hinv as [Minv Hinv].
  destruct (stereo_G_at lights images Minv h w c n y x)
    as (G' & HG' & _ & HGat); try done.
  rewrite HG in HG'. injection HG' as <-.
  rewrite Hg in HGat. injection HGat as Eg.
  (* the vector of the pixel vanishes *)
  assert (Hiv : Forall (λ e, e = 0)
            ((λ img : list (list (list R)), ((img !!! y) !!! x) !!! 0%nat)
               <$> images)).
  { apply Forall_fmap, Forall_lookup_2. intros j img Himg. simpl.
    pose proof (Forall_lookup_1 _ _ _ _ Himgs Himg) as Hs.
    destruct (shaped3_lookup h w c img y x Hs Hy Hx)
      as (row & px & Hrow & Hpx & _ & _).
    assert (Hat : at2 img y x = Some px) by (apply at2_Some; eauto).
    rewrite (at2_lookup_total img y x px Hat).
    apply list_lookup_total_correct. by apply (Hdark j img). }
  assert (Hu : Forall (λ e, e = 0)
            (np_dot ((λ img : list (list (list R)),
                        ((img !!! y) !!! x) !!! 0%nat) <$> images)
               <$> np_transpose (np_transpose lights))).
  { apply Forall_fmap, Forall_true. intros L. simpl.
    by apply np_dot_zero_l. }
  assert (Hgz : Forall (λ e, e = 0) g).
  { rewrite Eg. apply Forall_fmap, Forall_true. intros col. simpl.
    by apply np_dot_zero_l. }
  assert (Hng : np_norm g = 0).
  { rewrite (Forall_zero_replicate g Hgz). apply np_norm_zeros. }
  specialize (Hzero Hng).
  pose proof (stereo_normal_cell_zero_norm g Hng) as Hcell.
  split.
  - rewrite Hat_a. f_equal.
    assert (Haz : Forall (λ e, e = 0) a).
    { rewrite Ea. case_bool_decide; [apply Forall_zero_fmap_const | done]. }
    by rewrite (Forall_zero_replicate a Haz), Hla.
  - rewrite Hat_n. f_equal. apply Forall_zero_3; [done|].
    rewrite Env. case_bool_decide; [apply Forall_zero_fmap_const | done].
Qed.

Lemma photometric_stereo_dark_first_channel_witness :
  ∃ albedo normals,
    compute_photometric_stereo_impl (λ _ _ _, 0)
      [[1; 0; 0]; [0; 1; 0]; [0; 0; 1]]
      [[[[0; 5]]]; [[[0; 6]]]; [[[0; 7]]]] = Some (albedo, normals) ∧
    at2 albedo 0 0 = Some (replicate 2 0) ∧
    at2 normals 0 0 = Some [0; 0; 0].
Proof.
  apply (photometric_stereo_dark_first_channel (λ _ _ _, 0)
           [[1; 0; 0]; [0; 1; 0]; [0; 0; 1]]
           [[[[0; 5]]]; [[[0; 6]]]; [[[0; 7]]]] 1 1 2 3 0 0).
  - reflexivity.
  - lia.
  - lia.
  - repeat constructor.
  - split; [reflexivity|]. repeat constructor.
  - unfold np_matmul, np_vecmat, np_transpose. simpl.
    unfold np_linalg_inv.
    rewrite bool_decide_false by (unfold np_dot, np_sum; simpl; lra).
    by eexists.
  - lia.
  - lia.
  - intros j img px Himg Hpx.
    destruct j as [|[|[|j]]]; [| | |done]; injection Himg as <-;
      unfold at2 in Hpx; simpl in Hpx; by injection Hpx as <-.
Defined.
End DarkFirstChannel.

(** * The kernels run in binary64 *)

Section Binary64.
Local Open Scope float_scope.

(** The literal [1e-7] as the kernels compare against it: the binary64
    value nearest to [10^-7], which the correctly rounded quotient of 1
    and [10^7] is as well. *)
Example lit_1e_7_binary64 :
  lit_1e_7 = 0x1.ad7f29abcaf48p-24 ∧ lit_1e_7 = 1 / 10000000.
Proof. vm_compute. split; reflexivity. Qed.

(** A 2 x 2 image of one channel with patch size 1: every patch is its
    own mean, and the result is zero everywhere. *)
Example preprocess_ncc_single_samples :
  preprocess_ncc_impl [[[3]; [5]]; [[7]; [9]]] 1
  = Some [[[0]; [0]]; [[0]; [0]]].
Proof. vm_compute. reflexivity. Qed.

(** An even patch size makes the copy of the first inside patch fail. *)
Example preprocess_ncc_even_size :
  preprocess_ncc_impl [[[1]; [2]; [3]]; [[4]; [5]; [6]]; [[7]; [8]; [9]]] 2
  = None.
Proof. vm_compute. reflexivity. Qed.

(** A centred patch of norm about [1.4e-7] comes back as a unit vector. *)
Example preprocess_ncc_small_norm_binary64 :
  ncc_centered [[[0; 2 / 10000000]]] 1
  = Some [[[-0x1.ad7f29abcaf48p-24; 0x1.ad7f29abcaf48p-24]]] ∧
  sltb (np_norm [-0x1.ad7f29abcaf48p-24; 0x1.ad7f29abcaf48p-24])
       (1 / 1000000) = true ∧
  preprocess_ncc_impl [[[0; 2 / 10000000]]] 1
  = Some [[[-0x1.6a09e667f3bcdp-1; 0x1.6a09e667f3bcdp-1]]].
Proof. vm_compute. repeat split; reflexivity. Qed.

(** The correlation of two one-row images, pixel by pixel; a single
    pixel is broadcast along the row, and three channels do not meet
    two. *)
Example compute_ncc_two_pixels :
  compute_ncc_impl [[[1; 2]; [0; 3]]] [[[3; 4]; [5; 6]]] = Some [[11; 18]] ∧
  compute_ncc_impl [[[1; 2]; [0; 3]]] [[[3; 4]]] = Some [[11; 12]] ∧
  compute_ncc_impl [[[1; 2; 3]]] [[[3; 4]]] = None.
Proof. vm_compute. repeat split; reflexivity. Qed.

(** A point in front of the camera, one on its plane and one behind. *)
Example project_three_points :
  project_impl [[1; 0; 0]; [0; 1; 0]; [0; 0; 1]]
    [[1; 0; 0; 0]; [0; 1; 0; 0]; [0; 0; 1; 0]]
    [[[1; 2; 4]; [1; 2; 0]; [1; 2; -3]]]
  = Some [[[0.25; 0.5]; [0; 0]; [0; 0]]].
Proof. vm_compute. reflexivity. Qed.

(** A point whose depth is the constant of line 175 is projected, the
    next binary64 value below it is not. *)
Example project_at_threshold :
  project_impl [[1; 0; 0]; [0; 1; 0]; [0; 0; 1]]
    [[1; 0; 0; 0]; [0; 1; 0; 0]; [0; 0; 1; 0]]
    [[[1; 2; 0x1.ad7f29abcaf48p-24]; [1; 2; 0x1.ad7f29abcaf47p-24]]]
  = Some [[[10000000; 20000000]; [0; 0]]].
Proof. vm_compute. reflexivity. Qed.

(** The corners of a 2 x 2 image at depth 1 under the identity camera. *)
Example unproject_identity_camera :
  unproject_corners_impl [[1; 0; 0]; [0; 1; 0]; [0; 0; 1]] 2 2 1
    [[1; 0; 0; 0]; [0; 1; 0; 0]; [0; 0; 1; 0]]
  = Some [[[0; 0; 1]; [2; 0; 1]]; [[0; 2; 1]; [2; 2; 1]]].
Proof. vm_compute. reflexivity. Qed.

(** A singular intrinsics matrix is refused. *)
Example unproject_singular_intrinsics :
  unproject_corners_impl [[1; 0; 0]; [0; 1; 0]; [0; 0; 0]] 2 2 1
    [[1; 0; 0; 0]; [0; 1; 0; 0]; [0; 0; 1; 0]]
  = None.
Proof. vm_compute. reflexivity. Qed.

(** A 2 x 3 image of one channel goes down to 1 x 2 and keeps its
    channel axis. *)
Example pyrdown_two_by_three :
  pyrdown_impl (Nd3 [[[16]; [0]; [0]]; [[0]; [0]; [32]]])
  = Some (Nd3 [[[5]; [7]]]).
Proof. vm_compute. reflexivity. Qed.

(** A single pixel of two channels goes up to 2 x 2. *)
Example pyrup_one_pixel :
  pyrup_impl (Nd3 [[[16; 1]]])
  = Some (Nd3 [[[16; 1]; [16; 1]]; [[16; 1]; [16; 1]]]).
Proof. vm_compute. reflexivity. Qed.

(** Three lights along the axes; the second pixel is black. *)
Example photometric_stereo_two_pixels :
  compute_photometric_stereo_impl (λ _ _ _, nan)
    [[1; 0; 0]; [0; 1; 0]; [0; 0; 1]]
    [[[[1]; [0]]]; [[[2]; [0]]]; [[[2]; [0]]]]
  = Some ([[[3]; [0]]],
          [[[0x1.555556p-2; 0x1.555556p-1; 0x1.555556p-1]; [0; 0; 0]]]).
Proof. vm_compute. reflexivity. Qed.
End Binary64.
